(** * McDonaldApp: the order controller and its cooking bots

    A shallow embedding of [src/McDonaldApp.py].  The Python program has one
    main thread that calls the methods of [OrderController] and one thread
    per [Bot].  Objects are shared by reference, so the model keeps two
    object stores (one of [Order] objects, one of [Bot] objects) and the
    lists of the controller hold addresses into them.

    Threads are interleaved at the granularity of Python statements.  A
    [with self.order_lock:] block that contains no blocking call is a single
    step, enabled only while the lock is free; [remove_bot], which joins the
    bot inside its locked block, is split at the join.

    Time is the wall clock in microseconds, assumed never to go backwards;
    [datetime.now()] and [time.time()] both read it. *)

From Stdlib Require Import ZArith Lia Ascii String.
From stdpp Require Import base list strings.
From Stdlib Require Import SpecFloat.

Local Open Scope Z_scope.

(** ** Strings: [str.upper] on ASCII text *)

Definition upper_ascii (c : ascii) : ascii :=
  let n := nat_of_ascii c in
  if ((97 <=? n) && (n <=? 122))%nat then ascii_of_nat (n - 32) else c.

Fixpoint upper (s : string) : string :=
  match s with
  | EmptyString => EmptyString
  | String c s' => String (upper_ascii c) (upper s')
  end.

(** [order_type.upper() == 'VIP'] *)
Definition is_vip (order_type : string) : bool :=
  bool_decide (upper order_type = "VIP"%string).

(** ** Orders *)

(** The three strings ever stored in [Order.status]. *)
Inductive Status := PENDING | PROCESSING | COMPLETE.

Global Instance Status_eq_dec : EqDecision Status.
Proof. solve_decision. Defined.

Abbreviation addr := nat (only parsing).   (* address of an Order object *)
Abbreviation baddr := nat (only parsing).  (* address of a Bot object *)

Module Order.
Record t := mk {
  order_number : Z;
  type : string;
  status : Status;
  creation_time : Z;
  start_time : option Z;
  end_time : option Z
}.

(** [Order.__init__], with [now] the value of [datetime.now()]. *)
Definition init (order_number : Z) (order_type : string) (now : Z) : t :=
  mk order_number order_type PENDING now None None.

Definition set_status (st : Status) (o : t) : t :=
  mk (order_number o) (type o) st (creation_time o) (start_time o) (end_time o).
Definition set_start_time (v : option Z) (o : t) : t :=
  mk (order_number o) (type o) (status o) (creation_time o) v (end_time o).
Definition set_end_time (v : option Z) (o : t) : t :=
  mk (order_number o) (type o) (status o) (creation_time o) (start_time o) v.

(** [Order.__str__]: the three holes of
    [f"Order {order_number} [{type.upper()}] - {status}"]. *)
Definition str (o : t) : Z * string * Status :=
  (order_number o, upper (type o), status o).
End Order.

(** ** Bots *)

(** Control points of [Bot.run], named after the source line that runs
    next.  Local variables ([order], [start_time]) live in the control
    point. *)
Inductive BotPc :=
| L29                                   (* while not self.stop_event.is_set() *)
| L30                                   (* order = get_next_order(); if order *)
| L32 (order : addr)                    (* self.current_order = order *)
| L33 (order : addr)                    (* order.status = "PROCESSING" *)
| L34 (order : addr)                    (* order.start_time = now; print *)
| L36 (order : addr)                    (* start_time = time.time() *)
| L37 (order : addr) (start_time : Z)   (* while time.time() - start_time < 10 *)
| L38 (order : addr) (start_time : Z)   (* if self.stop_event.is_set(): print *)
| L40 (order : addr)                    (* order.status = "PENDING" *)
| L41 (order : addr)                    (* order.start_time = None *)
| L42                                   (* self.current_order = None; return *)
| L44 (order : addr) (start_time : Z)   (* time.sleep(1): going to sleep *)
| L44_asleep (order : addr) (start_time : Z) (wake : Z)
| L45 (order : addr)                    (* order.status = "COMPLETE" *)
| L46 (order : addr)                    (* order.end_time = now; print *)
| L48                                   (* self.current_order = None *)
| L50                                   (* time.sleep(1): going to sleep *)
| L50_asleep (wake : Z)
| Finished.                             (* run has returned: join succeeds *)

Global Instance BotPc_eq_dec : EqDecision BotPc.
Proof. solve_decision. Defined.

Module Bot.
Record t := mk {
  bot_id : Z;
  current_order : option addr;
  stop_event : bool;
  pc : BotPc
}.

(** [Bot.__init__] followed by [start()]: the thread is about to run the
    first test of its loop. *)
Definition init (bot_id : Z) : t := mk bot_id None false L29.

Definition set_current_order (v : option addr) (b : t) : t :=
  mk (bot_id b) v (stop_event b) (pc b).
Definition set_stop_event (v : bool) (b : t) : t :=
  mk (bot_id b) (current_order b) v (pc b).
Definition set_pc (v : BotPc) (b : t) : t :=
  mk (bot_id b) (current_order b) (stop_event b) v.
End Bot.

(** ** The main thread *)

(** Control points of [Bot.stop], run by the main thread. *)
Inductive StopPc :=
| L53   (* self.stop_event.set() *)
| L54   (* if self.current_order: print *)
| L56.  (* self.join() *)

(** Who called [stop]: [remove_bot] (line 110, holding the lock) or the
    loop of [shutdown] (line 200), at index [i] of [self.bots]. *)
Inductive Caller := FromRemove | FromShutdown (i : nat).

Arguments FromShutdown i%_nat.

Inductive MainPc :=
| Idle
| Stopping (caller : Caller) (bot : baddr) (at_line : StopPc).

Arguments Stopping caller bot%_nat at_line.

Global Instance StopPc_eq_dec : EqDecision StopPc.
Proof. solve_decision. Defined.
Global Instance Caller_eq_dec : EqDecision Caller.
Proof. solve_decision. Defined.
Global Instance MainPc_eq_dec : EqDecision MainPc.
Proof. solve_decision. Defined.

(** ** The whole state *)

Record State := mkState {
  heap : list Order.t;          (* the Order objects *)
  threads : list Bot.t;         (* the Bot objects, removed ones included *)
  orders : list addr;           (* self.orders *)
  pending_orders : list addr;   (* self.pending_orders *)
  order_number : Z;             (* self.order_number *)
  bots : list baddr;            (* self.bots *)
  bot_id_counter : Z;           (* self.bot_id_counter *)
  order_lock : bool;            (* true while self.order_lock is held *)
  main : MainPc;
  clock : Z
}.

(** [OrderController.__init__], at time [now]. *)
Definition init (now : Z) : State :=
  mkState [] [] [] [] 0 [] 1 false Idle now.

Definition set_heap (v : list Order.t) (s : State) : State :=
  mkState v (threads s) (orders s) (pending_orders s) (order_number s)
          (bots s) (bot_id_counter s) (order_lock s) (main s) (clock s).
Definition set_threads (v : list Bot.t) (s : State) : State :=
  mkState (heap s) v (orders s) (pending_orders s) (order_number s)
          (bots s) (bot_id_counter s) (order_lock s) (main s) (clock s).
Definition set_pending_orders (v : list addr) (s : State) : State :=
  mkState (heap s) (threads s) (orders s) v (order_number s)
          (bots s) (bot_id_counter s) (order_lock s) (main s) (clock s).
Definition set_bots (v : list baddr) (s : State) : State :=
  mkState (heap s) (threads s) (orders s) (pending_orders s) (order_number s)
          v (bot_id_counter s) (order_lock s) (main s) (clock s).
Definition set_order_lock (v : bool) (s : State) : State :=
  mkState (heap s) (threads s) (orders s) (pending_orders s) (order_number s)
          (bots s) (bot_id_counter s) v (main s) (clock s).
Definition set_main (v : MainPc) (s : State) : State :=
  mkState (heap s) (threads s) (orders s) (pending_orders s) (order_number s)
          (bots s) (bot_id_counter s) (order_lock s) v (clock s).
Definition set_clock (v : Z) (s : State) : State :=
  mkState (heap s) (threads s) (orders s) (pending_orders s) (order_number s)
          (bots s) (bot_id_counter s) (order_lock s) (main s) v.

(** ** What is printed, returned and raised *)

Inductive Filter := ALL | Only (st : Status).

(** One row of the table of [display_orders].  A cell that the source
    renders from a time stays the time it is rendered from; [None] is the
    cell ["-"]. *)
Record Row := mkRow {
  row_number : Z;               (* order.order_number *)
  row_type : string;            (* order.type.upper() *)
  row_status : Status;          (* order.status *)
  row_progress : option Z;      (* datetime.now() - order.start_time *)
  row_start : option Z;         (* order.start_time *)
  row_end : option Z;           (* order.end_time *)
  row_waiting : option Z        (* the timedelta printed in whole seconds *)
}.

Inductive Msg :=
| SysAdded (o : Z * string * Status)            (* line 85 *)
| BotStarted (bot_id : Z) (o : Z * string * Status)     (* line 35 *)
| BotStopping (bot_id : Z) (o : Z * string * Status)    (* line 39 *)
| BotCompleted (bot_id : Z) (o : Z * string * Status)   (* line 47 *)
| BotBeingStopped (bot_id : Z) (o : Z * string * Status) (* line 55 *)
| SysAddedBot (bot_id : Z)                      (* line 101 *)
| SysNoBots                                     (* line 107 *)
| SysRemovedBot (bot_id : Z)                    (* line 111 *)
| SysNoOrders                                   (* line 139 *)
| SysNoneWithStatus (f : Filter)                (* line 191 *)
| Table (rows : list Row)                       (* line 195 *)
| SysShuttingDown                               (* line 198 *)
| SysAllShutDown.                               (* line 201 *)

Inductive Value := PyNone | PyInt (z : Z).
Inductive Outcome := Returns (v : Value) | RaisesTypeError.

(** ** OrderController: the methods that run in one locked block *)

(** [with self.order_lock: body], entered while the lock is free (a caller
    that finds it held waits, see [step]). *)
Definition with_order_lock {R} (body : State → State * list Msg * R)
    (s : State) : State * list Msg * R :=
  let '(s', out, r) := body (set_order_lock true s) in
  (set_order_lock false s', out, r).

Definition is_vip_at (h : list Order.t) (a : addr) : bool :=
  match h !! a with
  | Some o => is_vip (Order.type o)
  | None => false
  end.

(** Lines 75-79: the scan over [enumerate(self.pending_orders)], with the
    loop variable [i] and the running [index]. *)
Fixpoint vip_scan (h : list Order.t) (q : list addr) (i index : nat) : nat :=
  match q with
  | [] => index
  | a :: q' =>
      if negb (is_vip_at h a) then index
      else vip_scan h q' (S i) (S i)
  end.

(** [deque.insert(index, x)]: past the end it appends. *)
Definition insert_at {A} (index : nat) (x : A) (l : list A) : list A :=
  take index l ++ x :: drop index l.

(** Lines 69-85. *)
Definition add_order_locked (order_type : string) (s : State)
    : State * list Msg * Value :=
  let n := order_number s + 1 in
  let new_order := Order.init n order_type (clock s) in
  let a := length (heap s) in
  let q :=
    if is_vip order_type
    then insert_at (vip_scan (heap s) (pending_orders s) 0 0) a (pending_orders s)
    else pending_orders s ++ [a] in
  (mkState (heap s ++ [new_order]) (threads s) (orders s ++ [a]) q n
           (bots s) (bot_id_counter s) (order_lock s) (main s) (clock s),
   [SysAdded (Order.str new_order)], PyNone).

Definition add_order (order_type : string) : State → State * list Msg * Value :=
  with_order_lock (add_order_locked order_type).

(** Lines 89-93. *)
Definition get_next_order_locked (s : State) : State * list Msg * option addr :=
  match pending_orders s with
  | order :: rest => (set_pending_orders rest s, [], Some order)
  | [] => (s, [], None)
  end.

Definition get_next_order : State → State * list Msg * option addr :=
  with_order_lock get_next_order_locked.

(** Lines 97-102. *)
Definition add_bot_locked (s : State) : State * list Msg * Value :=
  let bot := Bot.init (bot_id_counter s) in
  let b := length (threads s) in
  (mkState (heap s) (threads s ++ [bot]) (orders s) (pending_orders s)
           (order_number s) (bots s ++ [b]) (bot_id_counter s + 1)
           (order_lock s) (main s) (clock s),
   [SysAddedBot (Bot.bot_id bot)], PyInt (Bot.bot_id bot)).

Definition add_bot : State → State * list Msg * Value :=
  with_order_lock add_bot_locked.

(** Lines 144-188 for one order; [None] is the [TypeError] of line 151,
    [None - datetime]. *)
Definition display_row (now : Z) (o : Order.t) : option Row :=
  let number := Order.order_number o in
  let type := upper (Order.type o) in
  match Order.status o with
  | PENDING =>
      Some (mkRow number type PENDING None None None
                  (Some (now - Order.creation_time o)))
  | PROCESSING =>
      match Order.start_time o with
      | None => None
      | Some st =>
          Some (mkRow number type PROCESSING (Some (now - st)) (Some st) None
                      (Some (st - Order.creation_time o)))
      end
  | COMPLETE =>
      let waiting :=
        match Order.start_time o with
        | Some st => st - Order.creation_time o
        | None => 0
        end in
      Some (mkRow number type COMPLETE None (Order.start_time o)
                  (Order.end_time o) (Some waiting))
  end.

(** [filter_status == "ALL" or order.status == filter_status] *)
Definition selects (f : Filter) (st : Status) : bool :=
  match f with
  | ALL => true
  | Only st' => bool_decide (st = st')
  end.

(** The loop of lines 143-188 over [self.orders]; [None] when a row
    raises. *)
Fixpoint display_loop (h : list Order.t) (now : Z) (f : Filter)
    (l : list addr) (filtered_orders : list Row) : option (list Row) :=
  match l with
  | [] => Some filtered_orders
  | a :: l' =>
      o ← h !! a;
      if selects f (Order.status o)
      then r ← display_row now o;
           display_loop h now f l' (filtered_orders ++ [r])
      else display_loop h now f l' filtered_orders
  end.

(** Lines 138-195. *)
Definition display_orders_locked (filter_status : Filter) (s : State)
    : State * list Msg * Outcome :=
  match orders s with
  | [] => (s, [SysNoOrders], Returns PyNone)
  | _ =>
      match display_loop (heap s) (clock s) filter_status (orders s) [] with
      | None => (s, [], RaisesTypeError)
      | Some [] => (s, [SysNoneWithStatus filter_status], Returns PyNone)
      | Some filtered_orders => (s, [Table filtered_orders], Returns PyNone)
      end
  end.

Definition display_orders (filter_status : Filter)
    : State → State * list Msg * Outcome :=
  with_order_lock (display_orders_locked filter_status).

(** ** Bot.run, one statement at a time *)

Definition update_order (a : addr) (f : Order.t → Order.t) (s : State) : State :=
  set_heap (alter f a (heap s)) s.
Definition update_bot (b : baddr) (f : Bot.t → Bot.t) (s : State) : State :=
  set_threads (alter f b (threads s)) s.
Definition goto (b : baddr) (pc : BotPc) (s : State) : State :=
  update_bot b (Bot.set_pc pc) s.

(** Ten seconds and one second, in microseconds. *)
Definition processing_time : Z := 10000000.
Definition poll_interval : Z := 1000000.

(** The next statement of the bot at address [b].  [None]: the bot cannot
    move (it waits for the lock, sleeps, or has finished). *)
Definition bot_step (b : baddr) (s : State) : option (State * list Msg) :=
  bot ← threads s !! b;
  match Bot.pc bot with
  | L29 =>
      if Bot.stop_event bot then Some (goto b Finished s, [])
      else Some (goto b L30 s, [])
  | L30 =>
      if order_lock s then None
      else
        let '(s', out, order) := get_next_order s in
        match order with
        | Some o => Some (goto b (L32 o) s', out)
        | None => Some (goto b L50 s', out)
        end
  | L32 o =>
      Some (goto b (L33 o) (update_bot b (Bot.set_current_order (Some o)) s), [])
  | L33 o =>
      Some (goto b (L34 o) (update_order o (Order.set_status PROCESSING) s), [])
  | L34 o =>
      let s' := update_order o (Order.set_start_time (Some (clock s))) s in
      order ← heap s' !! o;
      Some (goto b (L36 o) s', [BotStarted (Bot.bot_id bot) (Order.str order)])
  | L36 o =>
      Some (goto b (L37 o (clock s)) s, [])
  | L37 o start_time =>
      if clock s - start_time <? processing_time
      then Some (goto b (L38 o start_time) s, [])
      else Some (goto b (L45 o) s, [])
  | L38 o start_time =>
      if Bot.stop_event bot
      then order ← heap s !! o;
           Some (goto b (L40 o) s, [BotStopping (Bot.bot_id bot) (Order.str order)])
      else Some (goto b (L44 o start_time) s, [])
  | L40 o =>
      Some (goto b (L41 o) (update_order o (Order.set_status PENDING) s), [])
  | L41 o =>
      Some (goto b L42 (update_order o (Order.set_start_time None) s), [])
  | L42 =>
      Some (goto b Finished (update_bot b (Bot.set_current_order None) s), [])
  | L44 o start_time =>
      Some (goto b (L44_asleep o start_time (clock s + poll_interval)) s, [])
  | L44_asleep o start_time wake =>
      if wake <=? clock s then Some (goto b (L37 o start_time) s, []) else None
  | L45 o =>
      Some (goto b (L46 o) (update_order o (Order.set_status COMPLETE) s), [])
  | L46 o =>
      let s' := update_order o (Order.set_end_time (Some (clock s))) s in
      order ← heap s' !! o;
      Some (goto b L48 s', [BotCompleted (Bot.bot_id bot) (Order.str order)])
  | L48 =>
      Some (goto b L29 (update_bot b (Bot.set_current_order None) s), [])
  | L50 =>
      Some (goto b (L50_asleep (clock s + poll_interval)) s, [])
  | L50_asleep wake =>
      if wake <=? clock s then Some (goto b L29 s, []) else None
  | Finished => None
  end.

(** ** remove_bot, shutdown and Bot.stop, run by the main thread *)

(** [list.pop()]: the last element and what is left. *)
Fixpoint pop {A} (l : list A) : option (list A * A) :=
  match l with
  | [] => None
  | x :: l' =>
      match pop l' with
      | None => Some ([], x)
      | Some (rest, y) => Some (x :: rest, y)
      end
  end.

(** Lines 105-110, up to the call of [bot.stop()]: the lock is taken and,
    when there is a bot to stop, kept. *)
Definition remove_bot (s : State) : State * list Msg * option Outcome :=
  let s := set_order_lock true s in
  match pop (bots s) with
  | None => (set_order_lock false s, [SysNoBots], Some (Returns PyNone))
  | Some (rest, bot) =>
      (set_main (Stopping FromRemove bot L53) (set_bots rest s), [], None)
  end.

(** [stop] of the bot at index [i] of [self.bots] in the loop of
    [shutdown], or the end of the loop (lines 199-201). *)
Definition shutdown_loop (i : nat) (s : State) : State * list Msg * option Outcome :=
  match bots s !! i with
  | Some bot => (set_main (Stopping (FromShutdown i) bot L53) s, [], None)
  | None => (set_main Idle s, [SysAllShutDown], Some (Returns PyNone))
  end.

(** Lines 198-201, up to the first call of [bot.stop()]. *)
Definition shutdown (s : State) : State * list Msg * option Outcome :=
  let '(s', out, r) := shutdown_loop 0 s in
  (s', SysShuttingDown :: out, r).

(** What follows the return of [bot.stop()]: line 111 and the end of the
    locked block of [remove_bot], or the next turn of the loop of
    [shutdown]. *)
Definition after_stop (caller : Caller) (bot : Bot.t) (s : State)
    : State * list Msg * option Outcome :=
  match caller with
  | FromRemove =>
      (set_order_lock false (set_main Idle s),
       [SysRemovedBot (Bot.bot_id bot)], Some (Returns PyNone))
  | FromShutdown i => shutdown_loop (S i) s
  end.

(** The next statement of [Bot.stop] (lines 53-56) on the bot at address
    [b].  [None] at line 56: the bot is still running and [join] waits. *)
Definition stop_step (caller : Caller) (b : baddr) (at_line : StopPc)
    (s : State) : option (State * list Msg * option Outcome) :=
  bot ← threads s !! b;
  match at_line with
  | L53 =>
      Some (set_main (Stopping caller b L54)
              (update_bot b (Bot.set_stop_event true) s), [], None)
  | L54 =>
      match Bot.current_order bot with
      | Some a =>
          order ← heap s !! a;
          Some (set_main (Stopping caller b L56) s,
                [BotBeingStopped (Bot.bot_id bot) (Order.str order)], None)
      | None => Some (set_main (Stopping caller b L56) s, [], None)
      end
  | L56 =>
      if bool_decide (Bot.pc bot = Finished)
      then Some (after_stop caller bot s)
      else None
  end.

(** ** The interleaving *)

Inductive Action :=
| Tick (d : Z)                      (* the clock advances by [d] *)
| AddOrder (order_type : string)    (* main calls add_order *)
| AddBot                            (* main calls add_bot *)
| RemoveBot                         (* main calls remove_bot *)
| DisplayOrders (f : Filter)        (* main calls display_orders *)
| Shutdown                          (* main calls shutdown *)
| MainStep                          (* main runs its next statement of stop *)
| BotStep (b : baddr).              (* bot [b] runs its next statement *)

Arguments BotStep b%_nat.

Definition returns {R} (f : R → Outcome) (r : State * list Msg * R)
    : option (State * list Msg * option Outcome) :=
  let '(s, out, v) := r in Some (s, out, Some (f v)).

(** One step of the system: the new state, what was printed, and the
    outcome of the call of the main thread if it ended in this step.
    [None]: the action is not enabled. *)
Definition step (a : Action) (s : State)
    : option (State * list Msg * option Outcome) :=
  let idle := bool_decide (main s = Idle) in
  let free := negb (order_lock s) in
  match a with
  | Tick d =>
      if 0 <=? d then Some (set_clock (clock s + d) s, [], None) else None
  | AddOrder order_type =>
      if idle && free then returns Returns (add_order order_type s) else None
  | AddBot =>
      if idle && free then returns Returns (add_bot s) else None
  | RemoveBot =>
      if idle && free then Some (remove_bot s) else None
  | DisplayOrders f =>
      if idle && free then returns id (display_orders f s) else None
  | Shutdown =>
      if idle then Some (shutdown s) else None
  | MainStep =>
      match main s with
      | Idle => None
      | Stopping caller b at_line => stop_step caller b at_line s
      end
  | BotStep b =>
      '(s', out) ← bot_step b s; Some (s', out, None)
  end.

(** A schedule run from a state: the final state and everything printed. *)
Fixpoint run (acts : list Action) (s : State) : option (State * list Msg) :=
  match acts with
  | [] => Some (s, [])
  | a :: acts' =>
      '(s', out, _) ← step a s;
      '(s'', out') ← run acts' s';
      Some (s'', out ++ out')
  end.

Definition reachable (s : State) : Prop :=
  ∃ now acts out, run acts (init now) = Some (s, out).

(** * Properties *)

(** ** Schedules *)

Lemma run_app acts1 acts2 s :
  run (acts1 ++ acts2) s =
  '(s1, out1) ← run acts1 s;
  '(s2, out2) ← run acts2 s1;
  Some (s2, out1 ++ out2).
Proof.
  revert s. induction acts1 as [|a acts1 IH]; intros s; simpl.
  - by destruct (run acts2 s) as [[??]|].
  - destruct (step a s) as [[[s' out] r]|]; simpl; [|done].
    rewrite IH. destruct (run acts1 s') as [[s1 out1]|]; simpl; [|done].
    destruct (run acts2 s1) as [[s2 out2]|]; simpl; [|done].
    by rewrite (assoc_L (++)).
Qed.

Lemma run_snoc acts a s :
  run (acts ++ [a]) s =
  '(s1, out1) ← run acts s;
  '(s2, out2, _) ← step a s1;
  Some (s2, out1 ++ out2).
Proof.
  rewrite run_app. destruct (run acts s) as [[s1 out1]|]; simpl; [|done].
  destruct (step a s1) as [[[s2 out2] r]|]; simpl; [|done].
  by rewrite (right_id_L [] (++)).
Qed.

Lemma run_invariant (P : State → Prop) :
  (∀ a s s' out r, P s → step a s = Some (s', out, r) → P s') →
  ∀ acts s s' out, P s → run acts s = Some (s', out) → P s'.
Proof.
  intros Hstep acts. induction acts as [|a acts IH]; intros s s' out HP; simpl.
  - by intros [= <- _].
  - destruct (step a s) as [[[s1 out1] r]|] eqn:Hs; simpl; [|done].
    destruct (run acts s1) as [[s2 out2]|] eqn:Hr; simpl; [|done].
    intros [= <- _]. eapply IH; [|done]. by eapply Hstep.
Qed.

Lemma reachable_invariant (P : State → Prop) :
  (∀ now, P (init now)) →
  (∀ a s s' out r, P s → step a s = Some (s', out, r) → P s') →
  ∀ s, reachable s → P s.
Proof.
  intros Hinit Hstep s (now & acts & out & Hrun).
  eapply run_invariant; [exact Hstep|apply Hinit|exact Hrun].
Qed.

Lemma reachable_step a s s' out r :
  reachable s → step a s = Some (s', out, r) → reachable s'.
Proof.
  intros (now & acts & out0 & Hrun) Hs.
  exists now, (acts ++ [a]), (out0 ++ out).
  rewrite run_snoc, Hrun. simpl. by rewrite Hs.
Qed.

Lemma reachable_run acts s s' out :
  reachable s → run acts s = Some (s', out) → reachable s'.
Proof.
  intros Hr. eapply (run_invariant reachable); [|done].
  intros ??????. by eapply reachable_step.
Qed.

(** ** Case analysis of a step *)

(** [display_orders] takes the lock and gives it back; it writes nothing
    else. *)
Lemma display_orders_state f s :
  ∃ out r,
    display_orders f s = (set_order_lock false (set_order_lock true s), out, r).
Proof.
  unfold display_orders, with_order_lock, display_orders_locked. simpl.
  destruct (orders s); [by eauto|].
  destruct (display_loop _ _ _ _ _) as [[|??]|]; by eauto.
Qed.

(** From [Hs : step a s = Some (s', out, r)], one goal per statement that
    can have run, with [s'] replaced by the state it leaves. *)
Ltac step_inv Hs :=
  let a := match type of Hs with step ?a _ = _ => a end in
  destruct a; simpl in Hs;
  [ destruct (0 <=? _) eqn:?; [|done]; simplify_eq
  | destruct (_ && _) eqn:?; [|done]; simplify_eq;
    unfold add_order, with_order_lock, add_order_locked; simpl
  | destruct (_ && _) eqn:?; [|done]; simplify_eq;
    unfold add_bot, with_order_lock, add_bot_locked; simpl
  | destruct (_ && _) eqn:?; [|done]; revert Hs; unfold remove_bot; simpl;
    destruct (pop (bots _)) as [[??]|] eqn:?; intros ?; simplify_eq; simpl
  | destruct (_ && _) eqn:?; [|done];
    let H := fresh in
    edestruct display_orders_state as (? & ? & H); rewrite H in Hs; clear H;
    simpl in Hs; simplify_eq; simpl
  | destruct (bool_decide _) eqn:?; [|done]; revert Hs;
    unfold shutdown, shutdown_loop;
    destruct (bots _ !! 0%nat) eqn:?; intros ?; simplify_eq; simpl
  | destruct (main _) as [|[|?] ? []] eqn:?; [done|..]; revert Hs;
    unfold stop_step;
    match goal with
    | |- context [mbind _ (threads ?s0 !! ?b0)] =>
        destruct (threads s0 !! b0) as [?|] eqn:?; [|done]
    end; simpl;
    repeat (case_match; simplify_eq); try done;
    unfold after_stop, shutdown_loop;
    repeat (case_match; simplify_eq); try done;
    intros Hs; try (apply bind_Some in Hs as (? & ? & Hs));
    simplify_eq; simpl
  | let Hb := fresh "Hb" in
    destruct (bot_step _ _) as [[??]|] eqn:Hb; [|done];
    simpl in Hs; simplify_eq; revert Hb;
    unfold bot_step, get_next_order, with_order_lock, get_next_order_locked;
    match goal with
    | |- context [mbind _ (threads ?s0 !! ?b0)] =>
        destruct (threads s0 !! b0) as [?|] eqn:?; [|done]
    end; simpl;
    (destruct (Bot.pc _) eqn:?); intros Hb;
    repeat (case_match; simplify_eq);
    try (apply bind_Some in Hb as (? & ? & Hb)); simplify_eq;
    unfold goto, update_bot, update_order; simpl ];
  repeat match goal with
         | H : _ && _ = true |- _ => apply andb_prop in H as [? ?]
         | H : bool_decide _ = true |- _ => apply bool_decide_eq_true in H
         | H : negb _ = true |- _ => apply negb_true_iff in H
         end.

(** ** The program counters of the bots *)

Definition pcs (s : State) : list BotPc := Bot.pc <$> threads s.

(** The order a bot has taken from the queue and is working on. *)
Definition held (pc : BotPc) : option addr :=
  match pc with
  | L32 o | L33 o | L34 o | L36 o | L37 o _ | L38 o _ | L40 o | L41 o
  | L44 o _ | L44_asleep o _ _ | L45 o | L46 o => Some o
  | L29 | L30 | L42 | L48 | L50 | L50_asleep _ | Finished => None
  end.

Lemma pcs_lookup s b : pcs s !! b = Bot.pc <$> threads s !! b.
Proof. apply list_lookup_fmap. Qed.

Lemma pcs_alter_pc (ts : list Bot.t) (b : nat) pc :
  Bot.pc <$> alter (Bot.set_pc pc) b ts = <[b:=pc]> (Bot.pc <$> ts).
Proof.
  revert b. induction ts as [|t ts IH]; intros [|b]; csimpl; f_equal; auto.
Qed.

Lemma pcs_alter_other (f : Bot.t → Bot.t) (ts : list Bot.t) (b : nat) :
  (∀ t, Bot.pc (f t) = Bot.pc t) →
  Bot.pc <$> alter f b ts = Bot.pc <$> ts.
Proof.
  intros Hf. revert b.
  induction ts as [|t ts IH]; intros [|b]; csimpl; f_equal; auto.
Qed.

(** ** The invariant of orders, queue and bots *)

(** What holds of every order at every moment. *)
Definition order_ok (now : Z) (o : Order.t) : Prop :=
  Order.creation_time o ≤ now ∧
  (∀ st, Order.start_time o = Some st → Order.creation_time o ≤ st ≤ now) ∧
  (Order.status o = COMPLETE → is_Some (Order.start_time o)) ∧
  (∀ e, Order.end_time o = Some e →
     Order.status o = COMPLETE ∧ e ≤ now ∧
     ∃ st, Order.start_time o = Some st ∧ st + processing_time ≤ e).

(** What holds of the order a bot works on, by the line the bot is at. *)
Definition held_ok (now : Z) (pc : BotPc) (o : Order.t) : Prop :=
  Order.end_time o = None ∧
  match pc with
  | L32 _ | L33 _ =>
      Order.status o = PENDING ∧ Order.start_time o = None
  | L34 _ =>
      Order.status o = PROCESSING ∧ Order.start_time o = None
  | L36 _ | L40 _ =>
      Order.status o = PROCESSING ∧ is_Some (Order.start_time o)
  | L37 _ t0 | L38 _ t0 | L44 _ t0 | L44_asleep _ t0 _ =>
      Order.status o = PROCESSING ∧
      ∃ st, Order.start_time o = Some st ∧ st ≤ t0
  | L41 _ =>
      Order.status o = PENDING ∧ is_Some (Order.start_time o)
  | L45 _ =>
      Order.status o = PROCESSING ∧
      ∃ st, Order.start_time o = Some st ∧ st + processing_time ≤ now
  | L46 _ =>
      Order.status o = COMPLETE ∧
      ∃ st, Order.start_time o = Some st ∧ st + processing_time ≤ now
  | L29 | L30 | L42 | L48 | L50 | L50_asleep _ | Finished => True
  end.

Record InvP (h : list Order.t) (q : list addr) (ps : list BotPc) (now : Z)
    : Prop := {
  inv_order a o : h !! a = Some o → order_ok now o;
  inv_pending a : a ∈ q →
    ∃ o, h !! a = Some o ∧ Order.status o = PENDING ∧
         Order.start_time o = None ∧ Order.end_time o = None;
  inv_nodup : NoDup q;
  inv_held b pc a : ps !! b = Some pc → held pc = Some a →
    (a ∉ q) ∧ (∃ o, h !! a = Some o ∧ held_ok now pc o);
  inv_excl b1 b2 pc1 pc2 a :
    ps !! b1 = Some pc1 → ps !! b2 = Some pc2 →
    held pc1 = Some a → held pc2 = Some a → b1 = b2
}.

Definition Inv (s : State) : Prop :=
  InvP (heap s) (pending_orders s) (pcs s) (clock s).

Lemma order_ok_mono now now' o : now ≤ now' → order_ok now o → order_ok now' o.
Proof.
  intros Hle (Hc & Hs & Hst & He). split; [lia|]. split; [|split; [done|]].
  - intros st Hst'. specialize (Hs _ Hst'). lia.
  - intros e Hend. destruct (He _ Hend) as (? & ? & ?).
    split; [done|]. split; [lia|done].
Qed.

Lemma held_ok_mono now now' pc o : now ≤ now' → held_ok now pc o → held_ok now' pc o.
Proof.
  intros Hle [He Hpc]. split; [done|].
  destruct pc; try done; destruct Hpc as (? & st & ? & ?);
    (split; [done|]); exists st; (split; [done|lia]).
Qed.

Lemma InvP_init now : InvP [] [] [] now.
Proof.
  split; try done.
  - intros a Ha. by apply elem_of_nil in Ha.
  - constructor.
Qed.

Lemma InvP_tick h q ps now d : 0 ≤ d → InvP h q ps now → InvP h q ps (now + d).
Proof.
  intros Hd [Ho Hp Hn Hh He]. split; try done.
  - intros a o Ha. eapply order_ok_mono; [|by eapply Ho]. lia.
  - intros b pc a Hb Ha. destruct (Hh b pc a Hb Ha) as (? & o & ? & ?).
    split; [done|]. exists o. split; [done|].
    eapply held_ok_mono; [|done]. lia.
Qed.

Lemma InvP_add_bot h q ps now : InvP h q ps now → InvP h q (ps ++ [L29]) now.
Proof.
  intros [Ho Hp Hn Hh He]. split; try done.
  - intros b pc a Hb Ha. apply lookup_snoc_Some in Hb as [[_ Hb]|[_ <-]]; [|done].
    by eapply Hh.
  - intros b1 b2 pc1 pc2 a H1 H2 A1 A2.
    apply lookup_snoc_Some in H1 as [[_ H1]|[_ <-]]; [|done].
    apply lookup_snoc_Some in H2 as [[_ H2]|[_ <-]]; [|done].
    by eapply He.
Qed.

(** A bot lets go of its order, or moves between lines that hold none. *)
Lemma InvP_release h q ps now b pc pc' :
  InvP h q ps now → ps !! b = Some pc → held pc' = None →
  InvP h q (<[b:=pc']> ps) now.
Proof.
  intros [Ho Hp Hn Hh He] Hb Hpc'.
  assert (b < length ps)%nat as Hlt by by eapply lookup_lt_Some.
  assert (∀ b' pc'' a, <[b:=pc']> ps !! b' = Some pc'' → held pc'' = Some a →
            b' ≠ b ∧ ps !! b' = Some pc'') as Hold.
  { intros b' pc'' a Hb' Ha. destruct (decide (b = b')) as [->|Hne].
    - rewrite list_lookup_insert_eq in Hb' by done. congruence.
    - by rewrite list_lookup_insert_ne in Hb'. }
  split; try done.
  - intros b' pc'' a Hb' Ha. destruct (Hold _ _ _ Hb' Ha) as [_ ?]. by eapply Hh.
  - intros b1 b2 pc1 pc2 a H1 H2 A1 A2.
    destruct (Hold _ _ _ H1 A1) as [_ ?], (Hold _ _ _ H2 A2) as [_ ?].
    by eapply He.
Qed.

(** A bot at a line that holds [o] runs a statement that rewrites [o] with
    [f] (or leaves it, [f] the identity) and goes to a line that holds [o]
    or nothing. *)
Lemma InvP_move h q ps now b pc pc' o f :
  InvP h q ps now → ps !! b = Some pc → held pc = Some o →
  (∀ a, held pc' = Some a → a = o) →
  (∀ ord, h !! o = Some ord → order_ok now ord → held_ok now pc ord →
     order_ok now (f ord) ∧ (held pc' = Some o → held_ok now pc' (f ord))) →
  InvP (alter f o h) q (<[b:=pc']> ps) now.
Proof.
  intros [Ho Hp Hn Hh He] Hb Hheld Hpc' Hf.
  assert (b < length ps)%nat as Hlt by by eapply lookup_lt_Some.
  destruct (Hh b pc o Hb Hheld) as (Hoq & ord & Hord & Hok).
  destruct (Hf ord Hord (Ho _ _ Hord) Hok) as [Hford Hfheld].
  assert (∀ b' pc'' a, <[b:=pc']> ps !! b' = Some pc'' → held pc'' = Some a →
            (b' = b ∧ pc'' = pc' ∧ a = o) ∨
            (b' ≠ b ∧ a ≠ o ∧ ps !! b' = Some pc'')) as Hcases.
  { intros b' pc'' a Hb' Ha. destruct (decide (b = b')) as [->|Hne].
    - rewrite list_lookup_insert_eq in Hb' by done. injection Hb' as <-.
      left. auto.
    - rewrite list_lookup_insert_ne in Hb' by done. right.
      repeat split; auto. intros ->. apply Hne. by eapply He. }
  split.
  - intros a o'. destruct (decide (o = a)) as [<-|Hne].
    + rewrite list_lookup_alter_eq, Hord. simpl. by intros [= <-].
    + rewrite list_lookup_alter_ne by done. apply Ho.
  - intros a Ha. rewrite list_lookup_alter_ne by (intros ->; done). by apply Hp.
  - done.
  - intros b' pc'' a Hb' Ha.
    destruct (Hcases _ _ _ Hb' Ha) as [(-> & -> & ->)|(? & ? & Hb'')].
    + split; [done|]. exists (f ord).
      rewrite list_lookup_alter_eq, Hord. auto.
    + destruct (Hh b' pc'' a Hb'' Ha) as (? & o2 & ? & ?).
      split; [done|]. exists o2. by rewrite list_lookup_alter_ne.
  - intros b1 b2 pc1 pc2 a H1 H2 A1 A2.
    destruct (Hcases _ _ _ H1 A1) as [(-> & -> & ->)|(? & ? & ?)],
             (Hcases _ _ _ H2 A2) as [(-> & -> & ?)|(? & ? & ?)];
      try done.
    by eapply He.
Qed.

(** Line 90: a bot takes the head of the queue. *)
Lemma InvP_get h q ps now b pc o :
  InvP h (o :: q) ps now → ps !! b = Some pc →
  InvP h q (<[b:=L32 o]> ps) now.
Proof.
  intros [Ho Hp Hn Hh He] Hb.
  assert (b < length ps)%nat as Hlt by by eapply lookup_lt_Some.
  apply NoDup_cons in Hn as [Hoq Hn].
  assert (∀ b' pc'' a, <[b:=L32 o]> ps !! b' = Some pc'' → held pc'' = Some a →
            (b' = b ∧ pc'' = L32 o ∧ a = o) ∨
            (b' ≠ b ∧ a ≠ o ∧ ps !! b' = Some pc'')) as Hcases.
  { intros b' pc'' a Hb' Ha. destruct (decide (b = b')) as [->|Hne].
    - rewrite list_lookup_insert_eq in Hb' by done. injection Hb' as <-.
      left. simpl in Ha. injection Ha as ->. auto.
    - rewrite list_lookup_insert_ne in Hb' by done. right.
      repeat split; auto. intros ->.
      destruct (Hh _ _ _ Hb' Ha) as [Hno _]. apply Hno. by left. }
  split.
  - done.
  - intros a Ha. apply Hp. by right.
  - done.
  - intros b' pc'' a Hb' Ha.
    destruct (Hcases _ _ _ Hb' Ha) as [(-> & -> & ->)|(? & ? & Hb'')].
    + split; [done|]. destruct (Hp o) as (ord & ? & ? & ? & ?); [by left|].
      exists ord. by repeat split.
    + destruct (Hh b' pc'' a Hb'' Ha) as (Hno & o2 & ? & ?).
      split; [|by exists o2]. intros ?. apply Hno. by right.
  - intros b1 b2 pc1 pc2 a H1 H2 A1 A2.
    destruct (Hcases _ _ _ H1 A1) as [(-> & -> & ->)|(? & ? & ?)],
             (Hcases _ _ _ H2 A2) as [(-> & -> & ?)|(? & ? & ?)];
      try done.
    by eapply He.
Qed.

(** Lines 70-83: a new order, at a fresh address, enters the queue. *)
Lemma InvP_add_order h q q' ps now n order_type :
  InvP h q ps now → q' ≡ₚ length h :: q →
  InvP (h ++ [Order.init n order_type now]) q' ps now.
Proof.
  intros [Ho Hp Hn Hh He] Hq'.
  assert (length h ∉ q) as Hfresh.
  { intros Hin. destruct (Hp _ Hin) as (o & Hl & _).
    apply lookup_lt_Some in Hl. lia. }
  split.
  - intros a o Ha. apply lookup_snoc_Some in Ha as [[_ Ha]|[_ <-]].
    + by eapply Ho.
    + unfold order_ok, Order.init; simpl. repeat split; try done; lia.
  - intros a. rewrite Hq'. intros [->|Ha]%elem_of_cons.
    + exists (Order.init n order_type now).
      rewrite lookup_app_r, Nat.sub_diag by done. done.
    + destruct (Hp a Ha) as (o & Hl & ?). exists o.
      split; [|done]. by apply lookup_app_l_Some.
  - rewrite Hq'. by apply NoDup_cons.
  - intros b pc a Hb Ha. destruct (Hh b pc a Hb Ha) as (Hno & o & Hl & Hok).
    split.
    + rewrite Hq'. intros [->|?]%elem_of_cons; [|done].
      apply lookup_lt_Some in Hl. lia.
    + exists o. split; [|done]. by apply lookup_app_l_Some.
  - done.
Qed.

(** A bot moves on without touching its order. *)
Lemma InvP_goto h q ps now b pc pc' o :
  InvP h q ps now → ps !! b = Some pc → held pc = Some o →
  (∀ a, held pc' = Some a → a = o) →
  (∀ ord, h !! o = Some ord → order_ok now ord → held_ok now pc ord →
     held_ok now pc' ord) →
  InvP h q (<[b:=pc']> ps) now.
Proof.
  intros HI Hb Hheld Hpc' Hok.
  rewrite <-(list_alter_id id h o) by done.
  eapply InvP_move; eauto.
Qed.

Lemma insert_at_perm {A} i (x : A) l : insert_at i x l ≡ₚ x :: l.
Proof.
  unfold insert_at. rewrite <-Permutation_middle.
  by rewrite take_drop.
Qed.

(** Side conditions of [InvP_move] and [InvP_goto]. *)
Ltac order_solver :=
  unfold held_ok, order_ok, is_Some; simpl;
  intros ? ? (? & Hstart & ? & ?) ?;
  repeat match goal with
         | H : _ ∧ _ |- _ => destruct H
         | H : ∃ _, _ |- _ => destruct H
         end;
  try match goal with
      | H : Order.start_time _ = Some _ |- _ => pose proof (Hstart _ H)
      end;
  repeat split; intros; simplify_eq; try congruence; try lia;
  eauto 6 with lia.

(** Every step keeps the invariant. *)
Lemma Inv_step a s s' out r : Inv s → step a s = Some (s', out, r) → Inv s'.
Proof.
  intros HI Hs. unfold Inv in *. step_inv Hs.
  all: unfold pcs in *; simpl.
  all: rewrite ?pcs_alter_pc, ?fmap_app; rewrite ?pcs_alter_other by done.
  all: try done.
  all: repeat match goal with
              | H : pending_orders _ = _ |- _ => rewrite H in *
              | H : (_ <? _) = false |- _ => apply Z.ltb_ge in H
              | H : threads _ !! ?b = Some ?t, Hpc : Bot.pc ?t = _ |- _ =>
                  assert ((Bot.pc <$> threads s) !! b = Some (Bot.pc t))
                    by (by rewrite list_lookup_fmap, H);
                  rewrite Hpc in *; clear H Hpc
              end.
  all: try (apply InvP_tick; [lia|done]).
  all: try (by apply InvP_add_bot).
  all: try (eapply InvP_release; [done|done|done]).
  all: try (eapply InvP_get; [exact HI|done]).
  all: try (eapply InvP_goto;
              [exact HI|done|reflexivity|intros ? ?; simpl in *; congruence|];
            order_solver).
  all: try (eapply InvP_move;
              [exact HI|done|reflexivity|intros ? ?; simpl in *; congruence|];
            order_solver).
  apply (InvP_add_order _ (pending_orders s)); [done|].
  destruct (is_vip order_type).
  - apply insert_at_perm.
  - by rewrite <-Permutation_cons_append.
Qed.

Lemma Inv_reachable s : reachable s → Inv s.
Proof.
  apply reachable_invariant.
  - intros now. apply InvP_init.
  - intros a s1 s2 out r. apply Inv_step.
Qed.

(** ** The shape of the queue *)

(** The VIP orders and the other orders among [l], in the order of [l]. *)
Definition vips (h : list Order.t) (l : list addr) : list addr :=
  filter (λ a, is_vip_at h a) l.
Definition normals (h : list Order.t) (l : list addr) : list addr :=
  filter (λ a, ¬ is_vip_at h a) l.

Definition vip_orders (s : State) : list addr := vips (heap s) (orders s).
Definition normal_orders (s : State) : list addr := normals (heap s) (orders s).

Record ShapeP (h : list Order.t) (os q : list addr) (n : Z) : Prop := {
  shape_orders : os = seq 0 (length h);
  shape_counter : n = Z.of_nat (length h);
  shape_number a o : h !! a = Some o → Order.order_number o = Z.of_nat a + 1;
  shape_queue : ∃ kv kn,
    (kv ≤ length (vips h os))%nat ∧ (kn ≤ length (normals h os))%nat ∧
    q = drop kv (vips h os) ++ drop kn (normals h os)
}.

Definition Shape (s : State) : Prop :=
  ShapeP (heap s) (orders s) (pending_orders s) (order_number s).

Lemma filter_ext_in {A} (P Q : A → Prop)
    `{!∀ x, Decision (P x), !∀ x, Decision (Q x)} (l : list A) :
  (∀ x, x ∈ l → P x ↔ Q x) → filter P l = filter Q l.
Proof.
  induction l as [|x l IH]; intros Hl; [done|].
  rewrite !filter_cons. rewrite IH by (intros y Hy; apply Hl; by right).
  apply decide_ext, Hl. by left.
Qed.

Lemma is_vip_at_alter f a h a' :
  (∀ o, Order.type (f o) = Order.type o) →
  is_vip_at (alter f a h) a' = is_vip_at h a'.
Proof.
  intros Hf. unfold is_vip_at. rewrite list_lookup_alter.
  case_decide as Hd; [subst a'|done].
  destruct (h !! a); simpl; [by rewrite Hf|done].
Qed.

Lemma is_vip_at_app h h' a :
  (a < length h)%nat → is_vip_at (h ++ h') a = is_vip_at h a.
Proof. intros Ha. unfold is_vip_at. by rewrite lookup_app_l. Qed.

Lemma is_vip_at_new h o :
  is_vip_at (h ++ [o]) (length h) = is_vip (Order.type o).
Proof.
  unfold is_vip_at. by rewrite lookup_app_r, Nat.sub_diag by done.
Qed.

Lemma vip_scan_spec h vs ns i :
  Forall (λ a, is_vip_at h a) vs →
  match ns with [] => True | a :: _ => ¬ is_vip_at h a end →
  vip_scan h (vs ++ ns) i i = (i + length vs)%nat.
Proof.
  intros Hvs Hns. revert i. induction Hvs as [|v vs Hv _ IH]; intros i; simpl.
  - destruct ns as [|a ns]; simpl; [lia|].
    destruct (is_vip_at h a); simpl; [done|lia].
  - destruct (is_vip_at h v); simpl; [|done]. rewrite IH. lia.
Qed.

Lemma insert_at_app {A} (x : A) l1 l2 :
  insert_at (length l1) x (l1 ++ l2) = l1 ++ x :: l2.
Proof. unfold insert_at. by rewrite take_app_length, drop_app_length. Qed.

Lemma ShapeP_init : ShapeP [] [] [] 0.
Proof. split; try done. exists 0%nat, 0%nat. done. Qed.

Lemma ShapeP_alter h os q n f a :
  (∀ o, Order.type (f o) = Order.type o) →
  (∀ o, Order.order_number (f o) = Order.order_number o) →
  ShapeP h os q n → ShapeP (alter f a h) os q n.
Proof.
  intros Hty Hnum [Hos Hn Hnums Hq].
  assert (vips (alter f a h) os = vips h os) as Hv.
  { apply list_filter_iff. intros x. by rewrite is_vip_at_alter. }
  assert (normals (alter f a h) os = normals h os) as Hnm.
  { apply list_filter_iff. intros x. by rewrite is_vip_at_alter. }
  split.
  - by rewrite length_alter.
  - by rewrite length_alter.
  - intros a' o. rewrite list_lookup_alter. case_decide; [subst a'|by apply Hnums].
    destruct (h !! a) as [o0|] eqn:Ho; simpl; [|done].
    intros [= <-]. rewrite Hnum. by apply Hnums.
  - by rewrite Hv, Hnm.
Qed.

Lemma ShapeP_get h os q n o : ShapeP h os (o :: q) n → ShapeP h os q n.
Proof.
  intros [Hos Hn Hnums (kv & kn & Hkv & Hkn & Hq)]. split; try done.
  destruct (drop kv (vips h os)) as [|v vs] eqn:Hd.
  - destruct (normals h os !! kn) as [x|] eqn:Hx.
    + rewrite (drop_S _ _ _ Hx) in Hq. simpl in Hq. injection Hq as -> ->.
      exists kv, (S kn). rewrite Hd. split; [done|]. split; [|done].
      apply lookup_lt_Some in Hx. lia.
    + apply lookup_ge_None in Hx. by rewrite drop_ge in Hq.
  - simpl in Hq. injection Hq as -> ->.
    destruct (vips h os !! kv) as [x|] eqn:Hx.
    + rewrite (drop_S _ _ _ Hx) in Hd. injection Hd as -> <-.
      exists (S kv), kn. split; [|done]. apply lookup_lt_Some in Hx. lia.
    + apply lookup_ge_None in Hx. by rewrite drop_ge in Hd.
Qed.

Lemma Forall_vips h l : Forall (λ a, is_vip_at h a) (vips h l).
Proof. apply Forall_forall. by intros x [? _]%list_elem_of_filter. Qed.

Lemma Forall_normals h l : Forall (λ a, ¬ is_vip_at h a) (normals h l).
Proof. apply Forall_forall. by intros x [? _]%list_elem_of_filter. Qed.

Lemma head_normals h l kn :
  match drop kn (normals h l) with [] => True | a :: _ => ¬ is_vip_at h a end.
Proof.
  pose proof (Forall_drop _ kn _ (Forall_normals h l)) as Hf.
  destruct (drop kn (normals h l)); [done|]. by inversion Hf.
Qed.

(** Lines 73-83 on a queue of the shape above: the new order goes behind
    the VIP orders or behind all orders, and no order changes place. *)
Lemma queue_add_order h os q kv kn n order_type now :
  os = seq 0 (length h) →
  (kv ≤ length (vips h os))%nat → (kn ≤ length (normals h os))%nat →
  q = drop kv (vips h os) ++ drop kn (normals h os) →
  let h' := h ++ [Order.init n order_type now] in
  let os' := os ++ [length h] in
  let q' := if is_vip order_type
            then insert_at (vip_scan h q 0 0) (length h) q
            else q ++ [length h] in
  (kv ≤ length (vips h' os'))%nat ∧ (kn ≤ length (normals h' os'))%nat ∧
  q' = drop kv (vips h' os') ++ drop kn (normals h' os').
Proof.
  intros Hos Hkv Hkn Hq h' os' q'. subst h' os' q'.
  set (new := Order.init n order_type now).
  assert (∀ x, x ∈ os → (x < length h)%nat) as Hlt.
  { intros x. rewrite Hos, elem_of_seq. lia. }
  assert (vips (h ++ [new]) os = vips h os) as Hv.
  { apply filter_ext_in. intros x Hx. by rewrite is_vip_at_app by auto. }
  assert (normals (h ++ [new]) os = normals h os) as Hnm.
  { apply filter_ext_in. intros x Hx. by rewrite is_vip_at_app by auto. }
  assert (vips (h ++ [new]) (os ++ [length h]) =
          vips h os ++ (if is_vip order_type then [length h] else [])) as ->.
  { unfold vips in *. rewrite filter_app, Hv. f_equal.
    rewrite filter_cons, filter_nil, is_vip_at_new. simpl.
    destruct (is_vip order_type); by simpl. }
  assert (normals (h ++ [new]) (os ++ [length h]) =
          normals h os ++ (if is_vip order_type then [] else [length h])) as ->.
  { unfold normals in *. rewrite filter_app, Hnm. f_equal.
    rewrite filter_cons, filter_nil, is_vip_at_new. simpl.
    destruct (is_vip order_type); by simpl. }
  rewrite !length_app. split; [lia|]. split; [lia|].
  rewrite !drop_app_le by done. destruct (is_vip order_type).
  - rewrite app_nil_r, Hq, vip_scan_spec.
    + simpl. by rewrite insert_at_app, <-(assoc_L (++)).
    + apply Forall_drop, Forall_vips.
    + apply head_normals.
  - by rewrite app_nil_r, Hq, <-(assoc_L (++)).
Qed.

Lemma ShapeP_add_order h os q n order_type now :
  ShapeP h os q n →
  ShapeP (h ++ [Order.init (n + 1) order_type now]) (os ++ [length h])
    (if is_vip order_type
     then insert_at (vip_scan h q 0 0) (length h) q
     else q ++ [length h])
    (n + 1).
Proof.
  intros [Hos Hn Hnums (kv & kn & Hkv & Hkn & Hq)]. split.
  - rewrite length_app, Hos. simpl. by rewrite Nat.add_1_r, seq_S.
  - rewrite length_app. simpl. lia.
  - intros a o Ha. apply lookup_snoc_Some in Ha as [[_ Ha]|[-> <-]]; [auto|].
    simpl. lia.
  - exists kv, kn. by apply queue_add_order.
Qed.


Lemma Shape_step a s s' out r : Shape s → step a s = Some (s', out, r) → Shape s'.
Proof.
  intros HI Hs. unfold Shape in *. step_inv Hs.
  all: try done.
  all: try (by apply ShapeP_add_order).
  all: try (by apply ShapeP_alter).
  all: repeat match goal with
              | H : pending_orders _ = _ |- _ => rewrite H in *
              end.
  all: try done.
  all: by eapply ShapeP_get.
Qed.

Lemma Shape_reachable s : reachable s → Shape s.
Proof.
  apply reachable_invariant.
  - intros now. apply ShapeP_init.
  - intros a s1 s2 out r. apply Shape_step.
Qed.

(** ** What a step writes *)

(** The statements of [Bot.run] that write a field of the order at hand:
    the line, the clock, and the update. *)
Inductive write : BotPc → Z → (Order.t → Order.t) → Prop :=
| write_L33 o now : write (L33 o) now (Order.set_status PROCESSING)
| write_L34 o now : write (L34 o) now (Order.set_start_time (Some now))
| write_L40 o now : write (L40 o) now (Order.set_status PENDING)
| write_L41 o now : write (L41 o) now (Order.set_start_time None)
| write_L45 o now : write (L45 o) now (Order.set_status COMPLETE)
| write_L46 o now : write (L46 o) now (Order.set_end_time (Some now)).

(** A step leaves the orders alone, or creates one, or is one of the six
    writes above by the bot that holds the order. *)
Lemma step_heap a s s' out r :
  step a s = Some (s', out, r) →
  heap s' = heap s ∨
  (∃ order_type,
     heap s' = heap s ++ [Order.init (order_number s + 1) order_type (clock s)]) ∨
  (∃ b bot o f,
     threads s !! b = Some bot ∧ held (Bot.pc bot) = Some o ∧
     write (Bot.pc bot) (clock s) f ∧ heap s' = alter f o (heap s)).
Proof.
  intros Hs. step_inv Hs.
  all: try (by left).
  all: try (right; left; by eexists).
  all: right; right.
  all: match goal with
       | H : threads _ !! ?b = Some ?t, Hpc : Bot.pc ?t = _ |- _ =>
           eexists b, t, _, _; rewrite Hpc
       end.
  all: split; [done|]; split; [done|]; split; [constructor|done].
Qed.

(** A step leaves the queue alone, or puts the new order in, or takes the
    head out. *)
Lemma step_pending_orders a s s' out r :
  step a s = Some (s', out, r) →
  pending_orders s' = pending_orders s ∨
  (length (heap s') = S (length (heap s)) ∧
   pending_orders s' ≡ₚ length (heap s) :: pending_orders s) ∨
  (∃ o, pending_orders s = o :: pending_orders s').
Proof.
  intros Hs. step_inv Hs.
  all: try (by left).
  - right; left. split; [rewrite length_app; simpl; lia|].
    destruct (is_vip order_type).
    + apply insert_at_perm.
    + by rewrite <-Permutation_cons_append.
  - right; right. by eexists.
Qed.

(** * The claims *)

(** ** Taking the next order *)

(** C7. [get_next_order], entered with the lock free, returns the head of
    [pending_orders] and leaves the rest of the queue, or returns [None]
    from an empty queue and leaves the state as it was; a bot at line 30
    is never held back by an empty queue. *)
Theorem get_next_order_head s :
  order_lock s = false →
  (∃ s' r, get_next_order s = (s', [], r) ∧
     r = head (pending_orders s) ∧
     s' = set_pending_orders (tail (pending_orders s)) s ∧
     (pending_orders s = [] → s' = s)) ∧
  (∀ b bot, threads s !! b = Some bot → Bot.pc bot = L30 →
     is_Some (bot_step b s)).
Proof.
  intros Hlock. split.
  - unfold get_next_order, with_order_lock, get_next_order_locked. simpl.
    destruct s as [h ts os q n bs c l m now]; simpl in *; subst l.
    destruct q as [|o q]; simpl; eexists _, _; (split; [reflexivity|]); done.
  - intros b bot Hb Hpc. unfold bot_step. rewrite Hb. simpl. rewrite Hpc, Hlock.
    destruct (get_next_order s) as [[s' out] [o|]]; by eexists.
Qed.

(** ** Displaying the orders *)

(** C8. A call of [display_orders], whatever the filter, leaves the whole
    state as it was: the orders and their fields, the queue, the bots and
    the two counters. *)
Theorem display_orders_pure f s s' out r :
  step (DisplayOrders f) s = Some (s', out, r) → s' = s.
Proof.
  intros Hs. simpl in Hs.
  destruct (bool_decide (main s = Idle) && negb (order_lock s)) eqn:Hen; [|done].
  apply andb_prop in Hen as [_ Hl]. apply negb_true_iff in Hl.
  destruct (display_orders_state f s) as (out0 & r0 & Heq).
  rewrite Heq in Hs. simpl in Hs. injection Hs as <- _ _.
  destruct s; simpl in *. by subst.
Qed.

(** ** The queue holds pending orders, once each *)

(** C10. In every reachable state the orders of [pending_orders] are
    distinct and all [PENDING]; a step never puts back an order that has
    been in the store before the step and was not queued, and a step that
    changes the status of an order finds it outside the queue. *)
Theorem pending_orders_pending_once s :
  reachable s →
  NoDup (pending_orders s) ∧
  (∀ a, a ∈ pending_orders s →
     ∃ o, heap s !! a = Some o ∧ Order.status o = PENDING) ∧
  (∀ act s' out r, step act s = Some (s', out, r) →
     (∀ a, a ∈ pending_orders s' → a ∈ pending_orders s ∨ heap s !! a = None) ∧
     (∀ a o o', heap s !! a = Some o → heap s' !! a = Some o' →
        Order.status o ≠ Order.status o' →
        (a ∉ pending_orders s) ∧ (a ∉ pending_orders s'))).
Proof.
  intros Hr. pose proof (Inv_reachable s Hr) as HI.
  destruct HI as [Ho Hp Hn Hh He].
  split; [done|]. split.
  { intros a Ha. destruct (Hp a Ha) as (o & ? & ? & _). eauto. }
  intros act s' out r Hs.
  assert (∀ a, a ∈ pending_orders s' →
            a ∈ pending_orders s ∨ heap s !! a = None) as Hback.
  { intros a Ha.
    destruct (step_pending_orders _ _ _ _ _ Hs) as [Heq|[[_ Hperm]|[o Heq]]].
    - left. by rewrite <-Heq.
    - rewrite Hperm in Ha. apply elem_of_cons in Ha as [->|Ha]; [|by left].
      right. by apply lookup_ge_None.
    - left. rewrite Heq. by right. }
  split; [done|].
  intros a o o' Hoa Hoa' Hne.
  assert (a ∉ pending_orders s) as Hnot.
  { destruct (step_heap _ _ _ _ _ Hs) as [Heq|[[ty Heq]|(b & bot & x & f & Hb & Hx & _ & Heq)]].
    - rewrite Heq in Hoa'. congruence.
    - rewrite Heq, (lookup_app_l_Some _ _ _ _ Hoa) in Hoa'. congruence.
    - destruct (decide (x = a)) as [->|Hxa].
      + eapply Hh; [|done]. by rewrite pcs_lookup, Hb.
      + rewrite Heq, list_lookup_alter_ne in Hoa' by done. congruence. }
  split; [done|]. intros Hin. destruct (Hback a Hin); [done|congruence].
Qed.

(** ** Submissions only *)



(** The state after the submissions [order_types], one call of
    [add_order] each, from the initial state. *)
Record Submitted (order_types : list string) (now : Z) (s : State) : Prop := {
  sub_main : main s = Idle;
  sub_lock : order_lock s = false;
  sub_clock : clock s = now;
  sub_orders : orders s = seq 0 (length order_types);
  sub_numbers :
    Order.order_number <$> heap s =
    (λ i, Z.of_nat i + 1) <$> seq 0 (length order_types);
  sub_types : Order.type <$> heap s = order_types;
  sub_status : Forall (λ o, Order.status o = PENDING) (heap s);
  sub_shape : Shape s;
  sub_queue : pending_orders s = vip_orders s ++ normal_orders s;
  sub_length : length (pending_orders s) = length order_types
}.

Lemma Submitted_length order_types now s :
  Submitted order_types now s → length (heap s) = length order_types.
Proof. intros [_ _ _ _ _ Hty _ _ _ _]. by rewrite <-Hty, length_fmap. Qed.

Lemma Submitted_init now : Submitted [] now (init now).
Proof. split; try done. apply ShapeP_init. Qed.

Lemma Submitted_add_order order_types now s order_type :
  Submitted order_types now s →
  ∃ s' out,
    step (AddOrder order_type) s = Some (s', out, Some (Returns PyNone)) ∧
    length (pending_orders s') = S (length (pending_orders s)) ∧
    Submitted (order_types ++ [order_type]) now s'.
Proof.
  intros Hsub. pose proof (Submitted_length _ _ _ Hsub) as Hlen.
  destruct Hsub as [Hm Hl Hc Hos Hnum Hty Hst Hsh Hq Hql].
  destruct (step (AddOrder order_type) s) as [[[s' out] r]|] eqn:Hstep.
  2: { simpl in Hstep. by rewrite Hm, Hl in Hstep. }
  pose proof (Shape_step _ _ _ _ _ Hsh Hstep) as Hsh'.
  simpl in Hstep. rewrite Hm, Hl in Hstep. simpl in Hstep.
  unfold add_order, with_order_lock, add_order_locked in Hstep.
  simpl in Hstep. injection Hstep as <- <- <-.
  eexists _, _. split; [reflexivity|]. simpl.
  assert (length (if is_vip order_type
                  then insert_at (vip_scan (heap s) (pending_orders s) 0 0)
                         (length (heap s)) (pending_orders s)
                  else pending_orders s ++ [length (heap s)]) =
          S (length (pending_orders s))) as Hlen'.
  { destruct (is_vip order_type); unfold insert_at;
      rewrite ?length_app; simpl; rewrite ?length_take, ?length_drop; lia. }
  split; [done|].
  destruct Hsh as [_ Hn _ _].
  split; simpl; try done.
  - rewrite length_app, Hos, Hlen. simpl. by rewrite Nat.add_1_r, seq_S.
  - rewrite length_app, fmap_app, Hnum. simpl.
    rewrite Nat.add_1_r, seq_S, fmap_app. simpl.
    do 2 f_equal. lia.
  - by rewrite fmap_app, Hty.
  - apply Forall_app. split; [done|]. by repeat constructor.
  - unfold vip_orders, normal_orders in *. simpl.
    destruct (queue_add_order (heap s) (orders s) (pending_orders s) 0 0
                (order_number s + 1) order_type (clock s)) as (_ & _ & Heq).
    + by rewrite Hos, Hlen.
    + lia.
    + lia.
    + done.
    + exact Heq.
  - rewrite Hlen', length_app, Hql. simpl. lia.
Qed.

Lemma run_submissions order_types now :
  ∃ s out,
    run (AddOrder <$> order_types) (init now) = Some (s, out) ∧
    Submitted order_types now s.
Proof.
  induction order_types as [|order_type order_types IH] using rev_ind.
  - exists (init now), []. split; [done|]. apply Submitted_init.
  - destruct IH as (s & out & Hrun & Hsub).
    destruct (Submitted_add_order _ _ _ order_type Hsub)
      as (s' & out' & Hstep & _ & Hsub').
    exists s', (out ++ out'). split; [|done].
    rewrite fmap_app. simpl. rewrite run_snoc, Hrun.
    cbv beta iota delta [mbind option_bind]. by rewrite Hstep.
Qed.

(** The order numbers of the orders at the addresses [l]. *)
Definition order_numbers (s : State) (l : list addr) : list (option Z) :=
  (λ a, Order.order_number <$> heap s !! a) <$> l.

(** C2. In every reachable state the queue is what is left of the VIP
    orders followed by what is left of the other orders, each in the order
    of [orders], which lists the orders by number; after submissions only
    nothing has left, and NORMAL, VIP, NORMAL gives the queue #2, #1, #3. *)
Theorem pending_orders_vip_first :
  (∀ s, reachable s →
     (∃ kv kn,
        pending_orders s = drop kv (vip_orders s) ++ drop kn (normal_orders s)) ∧
     (∀ i a, orders s !! i = Some a →
        Order.order_number <$> heap s !! a = Some (Z.of_nat i + 1))) ∧
  (∀ order_types now, ∃ s out,
     run (AddOrder <$> order_types) (init now) = Some (s, out) ∧
     pending_orders s = vip_orders s ++ normal_orders s) ∧
  (∀ now, ∃ s out,
     run [AddOrder "normal"; AddOrder "VIP"; AddOrder "normal"] (init now)
     = Some (s, out) ∧
     order_numbers s (pending_orders s) = [Some 2; Some 1; Some 3]).
Proof.
  split; [|split].
  - intros s Hr. destruct (Shape_reachable s Hr) as [Hos Hn Hnums Hq]. split.
    + destruct Hq as (kv & kn & _ & _ & Hq). by exists kv, kn.
    + intros i a. rewrite Hos. intros [-> Hi]%lookup_seq. simpl.
      destruct (lookup_lt_is_Some_2 (heap s) i Hi) as [o Ho].
      rewrite Ho. simpl. f_equal. by apply Hnums.
  - intros order_types now.
    destruct (run_submissions order_types now) as (s & out & Hrun & Hsub).
    exists s, out. split; [done|]. by destruct Hsub.
  - intros now. by eexists _, _.
Qed.


(** ** The life of an order *)

(** C4 (as amended).  In every reachable state, an order with an
    [end_time] is [COMPLETE] and has a [start_time]; a [COMPLETE] order has
    a [start_time], not before its [creation_time]; the [end_time] is at
    least the processing time after the [start_time]; and a step changes
    the status of an order only from [PENDING] to [PROCESSING] or from
    [PROCESSING] to [COMPLETE] or back to [PENDING]. *)
Theorem order_lifecycle s :
  reachable s →
  (∀ a o, heap s !! a = Some o →
     (∀ e, Order.end_time o = Some e →
        Order.status o = COMPLETE ∧ is_Some (Order.start_time o)) ∧
     (Order.status o = COMPLETE →
        ∃ st, Order.start_time o = Some st ∧ Order.creation_time o ≤ st ∧
              ∀ e, Order.end_time o = Some e →
                   st + processing_time ≤ e ∧ st < e)) ∧
  (∀ act s' out r a o o',
     step act s = Some (s', out, r) →
     heap s !! a = Some o → heap s' !! a = Some o' →
     Order.status o' = Order.status o ∨
     (Order.status o = PENDING ∧ Order.status o' = PROCESSING) ∨
     (Order.status o = PROCESSING ∧ Order.status o' = COMPLETE) ∨
     (Order.status o = PROCESSING ∧ Order.status o' = PENDING)).
Proof.
  intros Hr. pose proof (Inv_reachable s Hr) as [Ho Hp Hn Hh He]. split.
  - intros a o Ha. destruct (Ho a o Ha) as (Hc & Hs & Hst & Hend). split.
    + intros e Hend'. destruct (Hend e Hend') as (? & _ & st & ? & _). eauto.
    + intros Hcomplete. destruct (Hst Hcomplete) as [st Hst'].
      exists st. split; [done|]. split; [by apply Hs|].
      intros e Hend'. destruct (Hend e Hend') as (_ & _ & st' & ? & ?).
      unfold processing_time in *. simplify_eq. lia.
  - intros act s' out r a o o' Hs Ha Ha'.
    destruct (step_heap _ _ _ _ _ Hs)
      as [Heq|[[ty Heq]|(b & bot & x & f & Hb & Hx & Hw & Heq)]].
    + rewrite Heq in Ha'. left. congruence.
    + rewrite Heq, (lookup_app_l_Some _ _ _ _ Ha) in Ha'. left. congruence.
    + destruct (decide (x = a)) as [->|Hxa].
      2: { rewrite Heq, list_lookup_alter_ne in Ha' by done. left. congruence. }
      rewrite Heq, list_lookup_alter_eq, Ha in Ha'. simpl in Ha'.
      injection Ha' as <-.
      destruct (Hh b (Bot.pc bot) a) as (_ & o0 & Ha0 & _ & Hok); [|done|].
      { by rewrite pcs_lookup, Hb. }
      rewrite Ha in Ha0. injection Ha0 as <-.
      destruct Hw; simpl in *; naive_solver.
Qed.

(** ** The bots and the order they announce *)

(** [current_order] against the line the bot is at. *)
Definition cur_ok (bot : Bot.t) : Prop :=
  match Bot.pc bot with
  | L29 | L30 | L32 _ | L50 | L50_asleep _ | Finished =>
      Bot.current_order bot = None
  | L42 | L48 => True
  | pc => Bot.current_order bot = held pc
  end.

Definition CurInv (s : State) : Prop :=
  ∀ b bot, threads s !! b = Some bot →
    cur_ok bot ∧
    ∀ a, Bot.current_order bot = Some a → is_Some (heap s !! a).

Lemma is_Some_lookup_alter {A} (f : A → A) (l : list A) i j :
  is_Some (l !! j) → is_Some (alter f i l !! j).
Proof. rewrite !lookup_lt_is_Some, length_alter. done. Qed.

Lemma is_Some_lookup_app {A} (l k : list A) j :
  is_Some (l !! j) → is_Some ((l ++ k) !! j).
Proof. rewrite !lookup_lt_is_Some, length_app. lia. Qed.

Lemma Inv_held_lookup s b bot o :
  Inv s → threads s !! b = Some bot → held (Bot.pc bot) = Some o →
  is_Some (heap s !! o).
Proof.
  intros [_ _ _ Hh _] Hb Ho.
  destruct (Hh b (Bot.pc bot) o) as (_ & ord & Hord & _); [|done|by eexists].
  by rewrite pcs_lookup, Hb.
Qed.

Lemma CurInv_init now : CurInv (init now).
Proof. by intros b bot Hb. Qed.

Lemma CurInv_step a s s' out r :
  Inv s → CurInv s → step a s = Some (s', out, r) → CurInv s'.
Proof.
  intros HI HC Hs b' bot'. unfold CurInv in HC. step_inv Hs; simpl; intros Hb'.
  all: try (by eapply HC).
  all: try (apply lookup_snoc_Some in Hb' as [[_ ?]|[_ <-]];
            [by eapply HC|by split]).
  all: rewrite ?list_lookup_alter in Hb'.
  all: repeat (case_decide; simplify_eq).
  all: try (by eapply HC).
  all: try (destruct (HC _ _ Hb') as [Hcur Hlook]; split; [done|];
            intros a Ha; first [by apply is_Some_lookup_alter, Hlook
                               |by apply is_Some_lookup_app, Hlook]).
  all: match goal with
       | H : threads _ !! _ = Some ?t |- _ =>
           rewrite ?H in Hb'; simpl in Hb'; simplify_eq;
           pose proof (λ o, Inv_held_lookup _ _ _ o HI H) as Hheld;
           destruct (HC _ _ H) as [Hcur Hlook]
       end.
  all: unfold cur_ok in *; simpl in *.
  all: repeat match goal with H : Bot.pc _ = _ |- _ => rewrite H in * end.
  all: simpl in *.
  all: split; [done|].
  all: intros a Ha; simplify_eq; rewrite ?lookup_lt_is_Some, ?length_alter;
       rewrite <-?lookup_lt_is_Some; eauto.
Qed.

(** ** The main thread, the lock and the pool *)

Lemma pop_snoc {A} (l : list A) x : pop (l ++ [x]) = Some (l, x).
Proof. induction l as [|y l IH]; simpl; [done|]. by rewrite IH. Qed.

Lemma pop_Some {A} (l rest : list A) x :
  pop l = Some (rest, x) → l = rest ++ [x].
Proof.
  destruct l as [|y l] using rev_ind; [done|].
  rewrite pop_snoc. by intros [= <- <-].
Qed.

Lemma pop_None {A} (l : list A) : pop l = None → l = [].
Proof. destruct l as [|y l] using rev_ind; [done|]. by rewrite pop_snoc. Qed.

(** A bot that has been told to stop and whose [run] has returned. *)
Definition stopped (s : State) (b : baddr) : Prop :=
  ∃ bot, threads s !! b = Some bot ∧
         Bot.pc bot = Finished ∧ Bot.stop_event bot = true.

Definition all_stopped (s : State) : Prop :=
  ∀ b, b ∈ bots s → stopped s b.

(** No step unsets a [stop_event], restarts a finished bot or changes a
    [bot_id]. *)
Lemma step_threads a s s' out r b bot :
  step a s = Some (s', out, r) → threads s !! b = Some bot →
  ∃ bot', threads s' !! b = Some bot' ∧
          Bot.bot_id bot' = Bot.bot_id bot ∧
          (Bot.stop_event bot = true → Bot.stop_event bot' = true) ∧
          (Bot.pc bot = Finished → Bot.pc bot' = Finished).
Proof.
  intros Hs Hb. step_inv Hs.
  all: try (by exists bot).
  all: try (exists bot; split; [by apply lookup_app_l_Some|done]).
  all: rewrite ?list_lookup_alter.
  all: repeat (case_decide; simplify_eq).
  all: try (by exists bot).
  all: repeat match goal with
              | H : threads _ !! _ = Some _ |- _ => rewrite H; clear H
              end.
  all: simpl; eexists; (split; [reflexivity|]); simpl.
  all: split; [done|]; split; [done|]; congruence.
Qed.

Lemma stopped_step a s s' out r b :
  step a s = Some (s', out, r) → stopped s b → stopped s' b.
Proof.
  intros Hs (bot & Hb & Hpc & Hstop).
  destruct (step_threads _ _ _ _ _ _ _ Hs Hb) as (bot' & ? & _ & ? & ?).
  exists bot'. auto.
Qed.

(** The lock is held exactly while [remove_bot] stops a bot; the bot that
    the main thread stops exists and, past line 53, has its [stop_event]
    set; the loop of [shutdown] has stopped the bots before its index. *)
Record MainInv (s : State) : Prop := {
  minv_lock :
    order_lock s =
    match main s with Stopping FromRemove _ _ => true | _ => false end;
  minv_bots b : b ∈ bots s → is_Some (threads s !! b);
  minv_main c b at_line :
    main s = Stopping c b at_line →
    ∃ bot, threads s !! b = Some bot ∧
           (at_line ≠ L53 → Bot.stop_event bot = true);
  minv_shutdown i b at_line :
    main s = Stopping (FromShutdown i) b at_line →
    bots s !! i = Some b ∧
    ∀ j b', (j < i)%nat → bots s !! j = Some b' → stopped s b'
}.

Lemma MainInv_init now : MainInv (init now).
Proof.
  split; try done. intros b Hb. by apply elem_of_nil in Hb.
Qed.

Lemma stopped_frame s s' b :
  (∀ b bot, threads s !! b = Some bot →
     ∃ bot', threads s' !! b = Some bot' ∧
             Bot.bot_id bot' = Bot.bot_id bot ∧
             (Bot.stop_event bot = true → Bot.stop_event bot' = true) ∧
             (Bot.pc bot = Finished → Bot.pc bot' = Finished)) →
  stopped s b → stopped s' b.
Proof.
  intros Hthr (bot & Hb & Hpc & Hstop).
  destruct (Hthr _ _ Hb) as (bot' & ? & _ & ? & ?). exists bot'. auto.
Qed.

(** A step that leaves the main thread, the pool and the lock alone. *)
Lemma MainInv_frame s s' :
  MainInv s →
  main s' = main s → bots s' = bots s → order_lock s' = order_lock s →
  (∀ b bot, threads s !! b = Some bot →
     ∃ bot', threads s' !! b = Some bot' ∧
             Bot.bot_id bot' = Bot.bot_id bot ∧
             (Bot.stop_event bot = true → Bot.stop_event bot' = true) ∧
             (Bot.pc bot = Finished → Bot.pc bot' = Finished)) →
  MainInv s'.
Proof.
  intros [Hlock Hbots Hmain Hshut] Hm Hb Hl Hthr. split.
  - by rewrite Hl, Hm.
  - rewrite Hb. intros b Hin. destruct (Hbots b Hin) as [bot Hbot].
    destruct (Hthr _ _ Hbot) as (bot' & ? & _). by exists bot'.
  - rewrite Hm. intros c b at_line Hmn.
    destruct (Hmain _ _ _ Hmn) as (bot & Hbot & Hstop).
    destruct (Hthr _ _ Hbot) as (bot' & ? & _ & ? & _). exists bot'. auto.
  - rewrite Hm, Hb. intros i b at_line Hmn.
    destruct (Hshut _ _ _ Hmn) as [Hi Hbefore]. split; [done|].
    intros j b' Hj Hb'. eapply stopped_frame; eauto.
Qed.

Lemma MainInv_step a s s' out r :
  MainInv s → step a s = Some (s', out, r) → MainInv s'.
Proof.
  intros HM Hs.
  pose proof (λ b bot, step_threads _ _ _ _ _ b bot Hs) as Hthr.
  step_inv Hs.
  all: try (by apply (MainInv_frame s)).
  all: destruct HM as [Hlock Hbots Hmain Hshut].
  all: repeat match goal with H : main _ = _ |- _ => rewrite H in * end.
  - (* add_bot *)
    split; simpl; try done.
    intros b [Hb| ->%list_elem_of_singleton]%elem_of_app.
    + by apply is_Some_lookup_app, Hbots.
    + rewrite lookup_app_r, Nat.sub_diag by done. by eexists.
  - (* remove_bot pops a bot *)
    match goal with H : pop _ = Some _ |- _ => apply pop_Some in H as Hpop end.
    split; simpl; try done.
    + intros b Hb. apply Hbots. rewrite Hpop, elem_of_app. by left.
    + intros c b at_line [= <- <- <-].
      destruct (Hbots n) as [bot Hbot].
      { rewrite Hpop, elem_of_app. right. by left. }
      by exists bot.
  - (* shutdown starts on the first bot *)
    split; simpl; try done.
    + intros c b at_line [= <- <- <-].
      destruct (Hbots n) as [bot Hbot]; [by eapply list_elem_of_lookup_2|].
      by exists bot.
    + intros i b at_line [= <- <- <-]. split; [done|]. intros j b' Hj. lia.
  - (* remove_bot, line 53 *)
    split; simpl; try done.
    + intros b Hb. by apply is_Some_lookup_alter, Hbots.
    + intros c b at_line [= <- <- <-]. rewrite list_lookup_alter_eq.
      match goal with H : threads _ !! _ = Some _ |- _ => rewrite H end.
      simpl. eexists. by split.
  - (* remove_bot, line 54, with the notice *)
    destruct (Hmain _ _ _ eq_refl) as (bot0 & Hbot & Hset).
    split; simpl; try done.
    intros c b at_line [= <- <- <-]. exists bot0. split; [done|]. by auto.
  - (* remove_bot, line 54, nothing printed *)
    destruct (Hmain _ _ _ eq_refl) as (bot0 & Hbot & Hset).
    split; simpl; try done.
    intros c b at_line [= <- <- <-]. exists bot0. split; [done|]. by auto.
  - (* remove_bot, line 56 *)
    split; simpl; try done.
  - (* shutdown, line 53 *)
    destruct (Hshut _ _ _ eq_refl) as [Hi Hbefore].
    split; simpl; try done.
    + intros b Hb. by apply is_Some_lookup_alter, Hbots.
    + intros c b at_line [= <- <- <-]. rewrite list_lookup_alter_eq.
      match goal with H : threads _ !! _ = Some _ |- _ => rewrite H end.
      simpl. eexists. by split.
    + intros i' b at_line [= <- <- <-]. split; [done|].
      intros j b' Hj Hb'. eapply stopped_frame; eauto.
  - (* shutdown, line 54, with the notice *)
    destruct (Hmain _ _ _ eq_refl) as (bot0 & Hbot & Hset).
    destruct (Hshut _ _ _ eq_refl) as [Hi Hbefore].
    split; simpl; try done.
    + intros c b at_line [= <- <- <-]. exists bot0. split; [done|]. by auto.
    + intros i' b at_line [= <- <- <-]. eauto.
  - (* shutdown, line 54, nothing printed *)
    destruct (Hmain _ _ _ eq_refl) as (bot0 & Hbot & Hset).
    destruct (Hshut _ _ _ eq_refl) as [Hi Hbefore].
    split; simpl; try done.
    + intros c b at_line [= <- <- <-]. exists bot0. split; [done|]. by auto.
    + intros i' b at_line [= <- <- <-]. eauto.
  - (* shutdown, line 56, on to the next bot *)
    destruct (Hmain _ _ _ eq_refl) as (bot0 & Hbot & Hset).
    destruct (Hshut _ _ _ eq_refl) as [Hi Hbefore].
    split; simpl; try done.
    + intros c b at_line [= <- <- <-].
      destruct (Hbots n) as [bot1 Hbot1]; [by eapply list_elem_of_lookup_2|].
      by exists bot1.
    + intros i' b at_line [= <- <- <-]. split; [done|].
      intros j b' Hj Hb'. destruct (decide (j = i)) as [->|Hne].
      * simplify_eq. eexists. split; [eassumption|]. split; [done|].
        by apply Hset.
      * apply (Hbefore j); [lia|done].
  - (* shutdown, line 56, the last bot *)
    split; simpl; try done.
Qed.

(** The three invariants together. *)
Definition Good (s : State) : Prop := Inv s ∧ CurInv s ∧ MainInv s.

Lemma Good_reachable s : reachable s → Good s.
Proof.
  apply reachable_invariant.
  - intros now. split; [apply InvP_init|]. split; [apply CurInv_init|].
    apply MainInv_init.
  - intros a s1 s2 out r (HI & HC & HM) Hs.
    split; [by eapply Inv_step|]. split; [by eapply CurInv_step|].
    by eapply MainInv_step.
Qed.

(** ** Removing a bot *)


(** ** Orders that no one will take *)

(** A bot holds an order after a step only if it held it before or took it
    from the queue. *)
Lemma step_held a s s' out r b bot' o :
  step a s = Some (s', out, r) →
  threads s' !! b = Some bot' → held (Bot.pc bot') = Some o →
  o ∈ pending_orders s ∨
  ∃ bot, threads s !! b = Some bot ∧ held (Bot.pc bot) = Some o.
Proof.
  intros Hs. step_inv Hs; intros Hb' Ho.
  all: try (right; by exists bot').
  all: try (apply lookup_snoc_Some in Hb' as [[_ ?]|[_ <-]];
            [right; by exists bot'|done]).
  all: rewrite ?list_lookup_alter in Hb'.
  all: repeat (case_decide; simplify_eq).
  all: try (right; by exists bot').
  all: repeat match goal with
              | H : threads _ !! _ = Some _ |- _ =>
                  rewrite H in Hb'; simpl in Hb'
              end.
  all: simplify_eq; simpl in *; simplify_eq.
  all: try (right; eexists; split; [eassumption|];
            match goal with H : Bot.pc _ = _ |- _ => by rewrite H end).
  all: try (right; eexists; by split).
  left. by left.
Qed.

(** An order in the store that is neither queued nor held by a bot. *)
Definition orphan (s : State) (a : addr) : Prop :=
  is_Some (heap s !! a) ∧ (a ∉ pending_orders s) ∧
  ∀ b bot, threads s !! b = Some bot → held (Bot.pc bot) ≠ Some a.

(** It stays so, and unchanged, whatever runs. *)
Lemma orphan_step act s s' out r a :
  step act s = Some (s', out, r) → orphan s a →
  orphan s' a ∧ heap s' !! a = heap s !! a.
Proof.
  intros Hs (Ha & Hq & Hheld).
  assert (heap s' !! a = heap s !! a) as Heq.
  { destruct (step_heap _ _ _ _ _ Hs)
      as [->|[[ty ->]|(b & bot & x & f & Hb & Hx & _ & ->)]]; [done|..].
    - apply lookup_app_l. by apply lookup_lt_is_Some.
    - apply list_lookup_alter_ne. intros ->. by eapply Hheld. }
  split; [|done]. split; [by rewrite Heq|]. split.
  - intros Hin.
    destruct (step_pending_orders _ _ _ _ _ Hs) as [Hp|[[_ Hp]|[o Hp]]].
    + by rewrite Hp in Hin.
    + rewrite Hp in Hin. apply elem_of_cons in Hin as [->|Hin]; [|done].
      apply lookup_lt_is_Some in Ha. lia.
    + apply Hq. rewrite Hp. by right.
  - intros b bot' Hb' Ho.
    destruct (step_held _ _ _ _ _ _ _ _ Hs Hb' Ho) as [Hin|(bot & Hb & Hbo)].
    + done.
    + by eapply Hheld.
Qed.

Lemma orphan_run acts s s' out a :
  run acts s = Some (s', out) → orphan s a →
  orphan s' a ∧ heap s' !! a = heap s !! a.
Proof.
  revert s out. induction acts as [|act acts IH]; intros s out; simpl.
  - by intros [= <- _].
  - destruct (step act s) as [[[s1 out1] r]|] eqn:Hs; simpl; [|done].
    destruct (run acts s1) as [[s2 out2]|] eqn:Hr; simpl; [|done].
    intros [= <- _] Ho.
    destruct (orphan_step _ _ _ _ _ _ Hs Ho) as [Ho1 Heq1].
    destruct (IH _ _ Hr Ho1) as [Ho2 Heq2]. split; [done|congruence].
Qed.

(** ** Runs of the program *)

(** A bot from line 29 to line 44, an order in hand: lines 29, 30, 32, 33,
    34, 36, 37 and 38. *)
Definition take_order (b : baddr) : list Action := repeat (BotStep b) 8.

(** One bot, one order, and [remove_bot] while the bot is at work: the bot
    sleeps once more (lines 44 and 37), sees the event (38), gives the
    order up (40, 41, 42) and is joined. *)
Definition cancel_schedule : list Action :=
  [AddBot; AddOrder "normal"] ++ take_order 0 ++
  [RemoveBot; MainStep; MainStep;
   BotStep 0; Tick poll_interval; BotStep 0; BotStep 0; BotStep 0;
   BotStep 0; BotStep 0; BotStep 0;
   MainStep].

(** C1 (the code does not do this).  After [cancel_schedule] the call of
    [remove_bot] has returned and the order of the removed bot is [PENDING]
    with no [start_time], but it is not in [pending_orders], and whatever
    runs afterwards it never is again and never changes. *)
Theorem remove_bot_orphans_order :
  ∃ s out,
    run cancel_schedule (init 0) = Some (s, out) ∧
    main s = Idle ∧ bots s = [] ∧
    (∃ o, heap s !! 0%nat = Some o ∧
          Order.status o = PENDING ∧ Order.start_time o = None) ∧
    pending_orders s = [] ∧
    ∀ acts s' out',
      run acts s = Some (s', out') →
      (0%nat ∉ pending_orders s') ∧ heap s' !! 0%nat = heap s !! 0%nat.
Proof.
  eexists _, _. split; [vm_compute; reflexivity|].
  split; [done|]. split; [done|]. split; [by eexists|]. split; [done|].
  intros acts s' out' Hrun.
  eapply orphan_run in Hrun as [(_ & Hq & _) Heq]; [done|].
  split; [by eexists|]. split; [by intros ?%elem_of_nil|].
  intros [|b] bot; simpl; [by intros [= <-]|done].
Qed.

(** The bot has tested its event (line 29) and is about to ask for an order
    (line 30) when [remove_bot] takes the lock, sets the event and joins. *)
Definition deadlock_schedule : list Action :=
  [AddBot; BotStep 0; RemoveBot; MainStep; MainStep].

Definition deadlock_state (now : Z) : State :=
  mkState [] [Bot.mk 1 None true L30] [] [] 0 [] 2 true
          (Stopping FromRemove 0 L56) now.

(** C9 (the code does not do this).  [remove_bot] joins the bot with the
    lock held.  After [deadlock_schedule] the main thread waits in [join]
    for a bot that waits in [get_next_order] for the lock: no statement of
    either can run, and from then on only the clock moves. *)
Theorem remove_bot_deadlock :
  run deadlock_schedule (init 0) = Some (deadlock_state 0, [SysAddedBot 1]) ∧
  (∀ now, step MainStep (deadlock_state now) = None) ∧
  (∀ now b, step (BotStep b) (deadlock_state now) = None) ∧
  ∀ acts now s out,
    run acts (deadlock_state now) = Some (s, out) →
    ∃ now', s = deadlock_state now' ∧ out = [].
Proof.
  assert (∀ now b, step (BotStep b) (deadlock_state now) = None) as Hbot.
  { by intros now [|b]. }
  split; [done|]. split; [done|]. split; [done|].
  induction acts as [|a acts IH]; intros now s out; simpl.
  - intros [= <- <-]. by eexists.
  - destruct (step a (deadlock_state now)) as [[[s1 out1] r]|] eqn:Hs;
      simpl; [|done].
    assert (∃ now1, s1 = deadlock_state now1 ∧ out1 = []) as (now1 & -> & ->).
    { destruct a; try done.
      - simpl in Hs. destruct (0 <=? d); [|done].
        injection Hs as <- <- _. by eexists.
      - by rewrite Hbot in Hs. }
    destruct (run acts (deadlock_state now1)) as [[s2 out2]|] eqn:Hr;
      simpl; [|done].
    intros [= <- <-]. by eapply IH.
Qed.

(** One bot takes the one order up to its [start_time] (lines 29, 30, 32,
    33, 34). *)
Definition dispatch_schedule : list Action :=
  [AddBot; AddOrder "normal"] ++ repeat (BotStep 0) 5.

(** The same bot goes on (lines 36, 37), ten seconds pass, and it completes
    the order (lines 37, 45, 46). *)
Definition complete_schedule : list Action :=
  dispatch_schedule ++
  [BotStep 0; Tick processing_time; BotStep 0; BotStep 0; BotStep 0].

(** C4 as stated fails: the dispatched order has a [start_time] and is
    [PROCESSING], not [COMPLETE]; and where the clock has not moved between
    [add_order] and line 34, the completed order has a [start_time] equal
    to its [creation_time], not greater. *)
Lemma started_order_not_complete :
  (∃ s out o,
     run dispatch_schedule (init 0) = Some (s, out) ∧
     heap s !! 0%nat = Some o ∧
     is_Some (Order.start_time o) ∧ Order.status o ≠ COMPLETE) ∧
  (∃ s out o,
     run complete_schedule (init 0) = Some (s, out) ∧
     heap s !! 0%nat = Some o ∧
     Order.status o = COMPLETE ∧
     Order.start_time o = Some (Order.creation_time o)).
Proof.
  split; eexists _, _, _.
  - split; [vm_compute; reflexivity|]. split; [reflexivity|]. by split.
  - split; [vm_compute; reflexivity|]. split; [reflexivity|]. by split.
Qed.


(** ** Shutting down *)

Lemma Good_step a s s' out r : Good s → step a s = Some (s', out, r) → Good s'.
Proof.
  intros (HI & HC & HM) Hs.
  split; [by eapply Inv_step|]. split; [by eapply CurInv_step|].
  by eapply MainInv_step.
Qed.

Lemma Good_run acts s s' out : Good s → run acts s = Some (s', out) → Good s'.
Proof.
  intros HG. eapply (run_invariant Good); [|done].
  intros ??????. by eapply Good_step.
Qed.

(** What can happen while a call of the main thread is under way: time
    passes, a bot runs a statement, the call runs its next statement. *)
Definition background (a : Action) : bool :=
  match a with
  | Tick _ | BotStep _ | MainStep => true
  | _ => false
  end.

(** How many statements a bot still runs, at most, once its event is set. *)
Definition rank (pc : BotPc) : nat :=
  match pc with
  | Finished => 0
  | L29 | L42 => 1
  | L48 | L50_asleep _ | L41 _ => 2
  | L46 _ | L50 | L40 _ => 3
  | L45 _ | L38 _ _ => 4
  | L37 _ _ => 5
  | L44_asleep _ _ _ | L36 _ => 6
  | L44 _ _ | L34 _ => 7
  | L33 _ => 8
  | L32 _ => 9
  | L30 => 10
  end.

(** The time a sleeping bot still has to sleep. *)
Definition nap (now : Z) (pc : BotPc) : Z :=
  match pc with
  | L44_asleep _ _ wake | L50_asleep wake => Z.max 0 (wake - now)
  | _ => 0
  end.

(** A bot whose event is set, with the lock free, runs its next statement
    once it has slept enough, and gets closer to the end of [run]. *)
Lemma bot_progress s b bot :
  Inv s → order_lock s = false →
  threads s !! b = Some bot → Bot.stop_event bot = true →
  Bot.pc bot ≠ Finished →
  ∃ s' out bot',
    run [Tick (nap (clock s) (Bot.pc bot)); BotStep b] s = Some (s', out) ∧
    threads s' !! b = Some bot' ∧ Bot.stop_event bot' = true ∧
    (rank (Bot.pc bot') < rank (Bot.pc bot))%nat ∧
    order_lock s' = false ∧ main s' = main s ∧ bots s' = bots s.
Proof.
  intros HI Hlock Hb Hstop Hpc.
  pose proof (λ o, Inv_held_lookup s b bot o HI Hb) as Hheld.
  unfold run. cbn [step].
  assert ((0 <=? nap (clock s) (Bot.pc bot)) = true) as ->.
  { apply Z.leb_le. unfold nap. destruct (Bot.pc bot); lia. }
  cbn [mbind option_bind]. unfold bot_step. cbn [threads set_clock].
  rewrite Hb. cbn [mbind option_bind].
  destruct (Bot.pc bot) eqn:Hbpc; [..|done]; cbn [nap].
  all: try (destruct (Hheld order eq_refl) as [ord Hord]).
  all: cbn [clock set_clock heap order_lock update_order set_heap].
  all: rewrite ?Hstop, ?Hlock, ?list_lookup_alter_eq, ?Hord.
  all: cbn [fmap option_fmap option_map mbind option_bind].
  all: unfold get_next_order, with_order_lock, get_next_order_locked.
  all: cbn [pending_orders set_order_lock set_clock].
  all: try (destruct (pending_orders s) as [|o q]).
  all: try (destruct (_ <? processing_time)).
  all: try match goal with
           | |- context [?w <=? ?c] =>
               replace (w <=? c) with true by (symmetry; apply Z.leb_le; lia)
           end.
  all: cbn [mbind option_bind].
  all: eexists _, _, _; (split; [reflexivity|]).
  all: unfold goto, update_bot, update_order.
  all: cbn [threads set_threads set_heap set_clock set_order_lock
              set_pending_orders order_lock main bots].
  all: rewrite !list_lookup_alter_eq, Hb.
  all: cbn [fmap option_fmap option_map].
  all: (split; [reflexivity|]).
  all: cbn [Bot.pc Bot.stop_event Bot.set_pc Bot.set_current_order rank].
  all: repeat split; try done; lia.
Qed.

(** So, left to run with the lock free, it reaches the end of [run]. *)
Lemma bot_finishes n : ∀ s b bot,
  (rank (Bot.pc bot) ≤ n)%nat →
  Good s → order_lock s = false →
  threads s !! b = Some bot → Bot.stop_event bot = true →
  ∃ acts s' out bot',
    forallb background acts = true ∧
    run acts s = Some (s', out) ∧
    threads s' !! b = Some bot' ∧
    Bot.pc bot' = Finished ∧ Bot.stop_event bot' = true ∧
    order_lock s' = false ∧ main s' = main s ∧ bots s' = bots s ∧ Good s'.
Proof.
  induction n as [|n IH]; intros s b bot Hrank HG Hlock Hb Hstop.
  - exists [], s, [], bot. split_and!; try done.
    destruct (Bot.pc bot); simpl in Hrank; try lia. done.
  - destruct (decide (Bot.pc bot = Finished)) as [Hfin|Hrun].
    { exists [], s, [], bot. by split_and!. }
    destruct (bot_progress s b bot) as
      (s1 & out1 & bot1 & Hrun1 & Hb1 & Hstop1 & Hlt & Hlock1 & Hm1 & Hbots1);
      [apply HG|done..|].
    pose proof (Good_run _ _ _ _ HG Hrun1) as HG1.
    destruct (IH s1 b bot1) as
      (acts & s2 & out2 & bot2 & Hbg & Hrun2 & Hb2 & Hfin2 & Hstop2 & Hlock2
       & Hm2 & Hbots2 & HG2); [lia|done..|].
    exists ([Tick (nap (clock s) (Bot.pc bot)); BotStep b] ++ acts), s2,
      (out1 ++ out2), bot2.
    split; [by rewrite forallb_app, Hbg|].
    split; [by rewrite run_app, Hrun1; simpl; rewrite Hrun2|].
    split_and!; try done; congruence.
Qed.

Lemma run_cons a acts s s1 out1 r s2 out2 :
  step a s = Some (s1, out1, r) → run acts s1 = Some (s2, out2) →
  run (a :: acts) s = Some (s2, out1 ++ out2).
Proof. intros Hs Hr. simpl. rewrite Hs. simpl. by rewrite Hr. Qed.

Lemma run_app_Some acts1 acts2 s s1 out1 s2 out2 :
  run acts1 s = Some (s1, out1) → run acts2 s1 = Some (s2, out2) →
  run (acts1 ++ acts2) s = Some (s2, out1 ++ out2).
Proof. intros H1 H2. rewrite run_app, H1. simpl. by rewrite H2. Qed.

Lemma set_main_id s : set_main (main s) s = s.
Proof. by destruct s. Qed.

Lemma shutdown_loop_set_main i m s :
  shutdown_loop i (set_main m s) = shutdown_loop i s.
Proof. unfold shutdown_loop. simpl. by destruct (bots s !! i). Qed.

Lemma stopped_set_main m s b : stopped (set_main m s) b ↔ stopped s b.
Proof. done. Qed.

(** When a call of [shutdown] returns, every bot of the pool has been told
    to stop and has finished. *)
Lemma shutdown_return s a s' out v :
  MainInv s → step a s = Some (s', out, Some v) →
  a = Shutdown ∨ (∃ i b at_line, main s = Stopping (FromShutdown i) b at_line) →
  v = Returns PyNone ∧ main s' = Idle ∧ all_stopped s'.
Proof.
  intros [Hlock Hbots Hmain Hshut] Hs Hsd. step_inv Hs.
  all: try (destruct Hsd as [?|(? & ? & ? & ?)]; congruence).
  - (* shutdown, no bot *)
    split; [done|]. split; [done|]. intros b Hb. simpl in Hb.
    apply list_elem_of_lookup_1 in Hb as [[|j] Hj]; [congruence|].
    match goal with H : bots s !! 0%nat = None |- _ =>
      apply lookup_ge_None in H end.
    apply lookup_lt_Some in Hj. lia.
  - (* shutdown, line 56, the last bot *)
    split; [done|]. split; [done|]. intros b Hb. simpl in Hb.
    apply stopped_set_main.
    destruct (Hmain _ _ _ eq_refl) as (bot0 & Hbot0 & Hset).
    destruct (Hshut _ _ _ eq_refl) as [Hi Hbefore].
    apply list_elem_of_lookup_1 in Hb as [j Hj].
    match goal with H : bots s !! S _ = None |- _ =>
      apply lookup_ge_None in H; pose proof (lookup_lt_Some _ _ _ Hj) end.
    destruct (decide (j = i)) as [->|Hne].
    + simplify_eq. eexists. split; [eassumption|]. split; [done|].
      by apply Hset.
    + apply (Hbefore j); [lia|done].
Qed.

Lemma alter_fixed {A} (f : A → A) (l : list A) i x :
  l !! i = Some x → f x = x → alter f i l = l.
Proof.
  revert i. induction l as [|y l IH]; intros [|i] Hi Hf; csimpl in *;
    simplify_eq; f_equal; eauto.
Qed.

(** The statements of [stop], one by one. *)
Lemma step_L53 s c b bot :
  main s = Stopping c b L53 → threads s !! b = Some bot →
  step MainStep s =
  Some (set_main (Stopping c b L54) (update_bot b (Bot.set_stop_event true) s),
        [], None).
Proof. intros Hm Hb. simpl. rewrite Hm. unfold stop_step. by rewrite Hb. Qed.

Lemma step_L54 s c b bot :
  main s = Stopping c b L54 → threads s !! b = Some bot →
  (∀ a, Bot.current_order bot = Some a → is_Some (heap s !! a)) →
  ∃ out, step MainStep s = Some (set_main (Stopping c b L56) s, out, None) ∧
         (Bot.current_order bot = None → out = []).
Proof.
  intros Hm Hb Hcur. simpl. rewrite Hm. unfold stop_step. rewrite Hb. simpl.
  destruct (Bot.current_order bot) as [a|]; [|by eexists].
  destruct (Hcur a eq_refl) as [o ->]. simpl. by eexists.
Qed.

Lemma step_L56 s c b bot :
  main s = Stopping c b L56 → threads s !! b = Some bot →
  Bot.pc bot = Finished →
  step MainStep s = Some (after_stop c bot s).
Proof.
  intros Hm Hb Hfin. simpl. rewrite Hm. unfold stop_step. rewrite Hb. simpl.
  by rewrite bool_decide_eq_true_2.
Qed.

(** [stop] on a bot that is stopped already: three statements, none of
    which waits, writes or prints. *)
Lemma stop_stopped c b s bot :
  threads s !! b = Some bot →
  Bot.pc bot = Finished → Bot.stop_event bot = true →
  Bot.current_order bot = None →
  run [MainStep; MainStep; MainStep] (set_main (Stopping c b L53) s) =
  Some ((after_stop c bot (set_main (Stopping c b L56) s)).1.1,
        (after_stop c bot (set_main (Stopping c b L56) s)).1.2).
Proof.
  intros Hbot Hfin Hstop Hcur.
  assert (update_bot b (Bot.set_stop_event true) (set_main (Stopping c b L53) s)
          = set_main (Stopping c b L53) s) as Hsame.
  { unfold update_bot. simpl. rewrite (alter_fixed _ _ _ _ Hbot).
    - by destruct s.
    - destruct bot; simpl in *. by subst. }
  destruct (step_L54 (set_main (Stopping c b L54) s) c b bot)
    as (out & Hs54 & Hout); [done..|by rewrite Hcur|].
  rewrite (Hout Hcur) in Hs54.
  destruct (after_stop c bot (set_main (Stopping c b L56) s))
    as [[s' out'] r] eqn:Ha.
  eapply (run_cons _ _ _ _ [] None _ out');
    [by eapply step_L53; [reflexivity|]|].
  rewrite Hsame.
  eapply (run_cons _ _ _ _ [] None _ out'); [exact Hs54|].
  cbn [run]. erewrite step_L56; [|reflexivity|exact Hbot|exact Hfin].
  change (set_main (Stopping c b L56) (set_main (Stopping c b L54) s))
    with (set_main (Stopping c b L56) s).
  rewrite Ha. simpl. by rewrite app_nil_r.
Qed.

(** The loop of [shutdown] from index [i], over bots that are all stopped,
    runs through and leaves the state as it was. *)
Lemma shutdown_loop_again k : ∀ i s,
  main s = Idle → all_stopped s → CurInv s →
  length (bots s) = (i + k)%nat →
  ∃ rest,
    run (repeat MainStep (3 * k)) (shutdown_loop i s).1.1 = Some (s, rest) ∧
    (shutdown_loop i s).1.2 ++ rest = [SysAllShutDown].
Proof.
  induction k as [|k IH]; intros i s Hm Hall HC Hlen.
  - exists []. unfold shutdown_loop.
    rewrite (lookup_ge_None_2 (bots s) i) by lia. simpl.
    by rewrite <-Hm, set_main_id.
  - destruct (lookup_lt_is_Some_2 (bots s) i) as [b Hb]; [lia|].
    destruct (Hall b) as (bot & Hbot & Hfin & Hstop);
      [by eapply list_elem_of_lookup_2|].
    destruct (HC b bot Hbot) as [Hcur _]. unfold cur_ok in Hcur.
    rewrite Hfin in Hcur.
    destruct (IH (S i) s) as (rest & Hrun & Hout); [done..|lia|].
    exists ((shutdown_loop (S i) s).1.2 ++ rest).
    replace (3 * S k)%nat with (3 + 3 * k)%nat by lia.
    assert (shutdown_loop i s =
            (set_main (Stopping (FromShutdown i) b L53) s, [], None)) as ->.
    { unfold shutdown_loop. by rewrite Hb. }
    rewrite repeat_app. cbn [fst snd]. split; [|exact Hout].
    rewrite <-(shutdown_loop_set_main (S i)
                 (Stopping (FromShutdown i) b L56) s) at 1.
    eapply run_app_Some;
      [exact (stop_stopped (FromShutdown i) b s bot Hbot Hfin Hstop Hcur)|].
    cbn [after_stop]. by rewrite shutdown_loop_set_main.
Qed.

(** [stop] called without the lock: the main thread sets the event, the
    bot runs to its end, and the join is ready to return. *)
Lemma stop_completes s c b :
  Good s → main s = Stopping c b L53 → order_lock s = false →
  ∃ acts s' out bot,
    forallb background acts = true ∧
    run acts s = Some (s', out) ∧
    main s' = Stopping c b L56 ∧
    threads s' !! b = Some bot ∧ Bot.pc bot = Finished ∧
    bots s' = bots s ∧ order_lock s' = false ∧ Good s'.
Proof.
  intros HG Hm Hlock.
  destruct HG as (HI & HC & HM).
  destruct (minv_main _ HM _ _ _ Hm) as (bot & Hbot & _).
  pose proof (step_L53 s c b bot Hm Hbot) as Hs1.
  set (s1 := set_main (Stopping c b L54)
               (update_bot b (Bot.set_stop_event true) s)) in *.
  assert (Good s1) as HG1 by (by eapply Good_step).
  assert (threads s1 !! b = Some (Bot.set_stop_event true bot)) as Hbot1.
  { unfold s1, update_bot. simpl. by rewrite list_lookup_alter_eq, Hbot. }
  destruct (step_L54 s1 c b _ eq_refl Hbot1) as (out2 & Hs2 & _).
  { intros a Ha. destruct HG1 as (_ & HC1 & _). by eapply HC1. }
  set (s2 := set_main (Stopping c b L56) s1) in *.
  assert (Good s2) as HG2 by (by eapply Good_step).
  destruct (bot_finishes _ s2 b (Bot.set_stop_event true bot) (le_n _))
    as (acts & s3 & out3 & bot3 & Hbg & Hrun & Hbot3 & Hfin & _ & Hlock3 & Hm3
        & Hbots3 & HG3); [done..|].
  exists (MainStep :: MainStep :: acts), s3, ([] ++ out2 ++ out3), bot3.
  split; [done|]. split; [|by split_and!].
  eapply run_cons; [exact Hs1|]. eapply run_cons; [exact Hs2|]. exact Hrun.
Qed.

(** The loop of [shutdown] from index [i] comes to its end. *)
Lemma shutdown_loop_completes k : ∀ i b s,
  Good s → main s = Stopping (FromShutdown i) b L53 →
  length (bots s) = (i + S k)%nat →
  ∃ acts s' out,
    forallb background acts = true ∧
    run acts s = Some (s', out) ∧ main s' = Idle ∧ all_stopped s' ∧ Good s'.
Proof.
  induction k as [|k IH]; intros i b s HG Hm Hlen.
  all: assert (order_lock s = false) as Hlock
         by (destruct HG as (_ & _ & HM); by rewrite (minv_lock _ HM), Hm).
  all: destruct (stop_completes s _ b HG Hm Hlock)
         as (acts & s3 & out3 & bot3 & Hbg & Hrun & Hm3 & Hbot3 & Hfin & Hbots3
             & Hlock3 & HG3).
  all: pose proof (step_L56 s3 _ b bot3 Hm3 Hbot3 Hfin) as Hs4.
  all: cbn [after_stop] in Hs4; unfold shutdown_loop in Hs4.
  all: rewrite <-Hbots3 in Hlen.
  - rewrite (lookup_ge_None_2 (bots s3) (S i)) in Hs4 by lia.
    destruct HG3 as (HI3 & HC3 & HM3).
    destruct (shutdown_return _ _ _ _ _ HM3 Hs4) as (_ & Hidle & Hall);
      [right; by eexists _, _, _|].
    exists (acts ++ [MainStep]), (set_main Idle s3), (out3 ++ [SysAllShutDown]).
    split; [by rewrite forallb_app, Hbg|].
    split; [|split; [done|split; [done|]]].
    + rewrite run_snoc, Hrun. simpl in *. by rewrite Hs4.
    + eapply Good_step; [|exact Hs4]. by split_and!.
  - destruct (lookup_lt_is_Some_2 (bots s3) (S i)) as [b' Hb']; [lia|].
    rewrite Hb' in Hs4.
    destruct (IH (S i) b' _ (Good_step _ _ _ _ _ HG3 Hs4))
      as (acts5 & s5 & out5 & Hbg5 & Hrun5 & Hm5 & Hall5 & HG5);
      [done|simpl; lia|].
    exists (acts ++ MainStep :: acts5), s5, (out3 ++ [] ++ out5).
    split; [by rewrite forallb_app, Hbg|].
    split; [|by split_and!].
    eapply run_app_Some; [exact Hrun|]. eapply run_cons; [exact Hs4|done].
Qed.

(** Every bot is in the pool, or being removed, or has finished. *)
Definition PoolInv (s : State) : Prop :=
  ∀ b bot, threads s !! b = Some bot →
    b ∈ bots s ∨ (∃ at_line, main s = Stopping FromRemove b at_line) ∨
    Bot.pc bot = Finished.

Lemma PoolInv_step a s s' out r :
  PoolInv s → step a s = Some (s', out, r) → PoolInv s'.
Proof.
  intros HP Hs b' bot'. unfold PoolInv in HP.
  step_inv Hs; simpl; intros Hb';
    try (by eapply HP);
    try (apply lookup_snoc_Some in Hb' as [[_ Hb']|[-> <-]];
         [|left; apply elem_of_app; right; by left]);
    try match goal with H : pop _ = Some _ |- _ => apply pop_Some in H end;
    rewrite ?list_lookup_alter in Hb';
    repeat (case_decide; simplify_eq);
    repeat match goal with
           | H : threads s !! ?b = Some _, H' : context [threads s !! ?b]
             |- _ => rewrite H in H'; simpl in H'; simplify_eq
           end;
    match goal with
    | H : threads s !! b' = Some _ |- _ =>
        destruct (HP _ _ H) as [Hin|[[at_line Hat]|Hfin]]
    end;
    simplify_eq;
    try match goal with
        | H : bots s = _ ++ [_] |- _ =>
            rewrite H, elem_of_app, list_elem_of_singleton in Hin;
            destruct Hin as [Hin| ->]
        end;
    first [ left; done
          | left; apply elem_of_app; by left
          | right; left; by eexists
          | right; right; simpl in *; congruence
          | exfalso; congruence ].
Qed.

Lemma PoolInv_reachable s : reachable s → PoolInv s.
Proof.
  apply reachable_invariant.
  - by intros now b bot Hb.
  - intros a s1 s2 out r. apply PoolInv_step.
Qed.

(** Every thread has come to the end of [run]. *)
Definition quiet (s : State) : Prop :=
  ∀ b bot, threads s !! b = Some bot → Bot.pc bot = Finished.

Lemma all_stopped_quiet s :
  PoolInv s → main s = Idle → all_stopped s → quiet s.
Proof.
  intros HP Hm Hall b bot Hb.
  destruct (HP b bot Hb) as [Hin|[[at_line Hat]|Hfin]]; [|congruence|done].
  destruct (Hall b Hin) as (bot' & Hb' & Hfin & _). congruence.
Qed.

(** C6. [shutdown] is idempotent.  The main thread calls [shutdown] from
    its prompt ([main s = Idle]); the call is the action [Shutdown] followed
    by the statements of [stop] on each bot of the pool, with the bots and
    the clock running in between.
    - Whenever a call of [shutdown] returns, in any reachable state and
      under any schedule, it returns [None], every bot of the pool has its
      event set and has finished, and no thread is left running.
    - From every reachable state in which the main thread is at its prompt
      a call of [shutdown] does return: there is a schedule of the bots,
      the clock and the call that brings it to its end.
    - In such a terminal state a second call runs through, three
      statements a bot, without waiting, prints the two messages of
      [shutdown] and leaves the very same state. *)
Theorem shutdown_idempotent :
  (∀ s a s' out v,
     reachable s → step a s = Some (s', out, Some v) →
     a = Shutdown ∨
       (∃ i b at_line, main s = Stopping (FromShutdown i) b at_line) →
     v = Returns PyNone ∧ main s' = Idle ∧ all_stopped s' ∧ quiet s') ∧
  (∀ s, reachable s → main s = Idle →
     ∃ acts s' out,
       forallb background acts = true ∧
       run (Shutdown :: acts) s = Some (s', out) ∧
       main s' = Idle ∧ all_stopped s' ∧ quiet s') ∧
  (∀ s, reachable s → main s = Idle → all_stopped s →
     run (Shutdown :: repeat MainStep (3 * length (bots s))) s =
     Some (s, [SysShuttingDown; SysAllShutDown])).
Proof.
  split_and!.
  - intros s a s' out v Hr Hs Hsd.
    destruct (Good_reachable s Hr) as (_ & _ & HM).
    destruct (shutdown_return s a s' out v HM Hs Hsd) as (Hv & Hm & Hall).
    split_and!; [done..|].
    apply all_stopped_quiet; [|done..].
    apply PoolInv_reachable. by eapply reachable_step.
  - intros s Hr Hm.
    assert (step Shutdown s = Some (shutdown s)) as Hs.
    { simpl. by rewrite bool_decide_eq_true_2. }
    unfold shutdown in Hs.
    destruct (bots s !! 0%nat) as [b|] eqn:Hb.
    + assert (shutdown_loop 0 s =
              (set_main (Stopping (FromShutdown 0) b L53) s, [], None)) as Hl.
      { unfold shutdown_loop. by rewrite Hb. }
      rewrite Hl in Hs.
      pose proof (reachable_step _ _ _ _ _ Hr Hs) as Hr1.
      destruct (shutdown_loop_completes (pred (length (bots s))) 0 b
                  (set_main (Stopping (FromShutdown 0) b L53) s))
        as (acts & s' & out & Hbg & Hrun & Hm' & Hall & HG);
        [by apply Good_reachable|done|
         simpl; apply lookup_lt_Some in Hb; lia|].
      exists acts, s', ([SysShuttingDown] ++ out).
      split; [done|]. split; [by eapply run_cons|].
      split_and!; [done..|].
      apply all_stopped_quiet; [|done..].
      apply PoolInv_reachable. by eapply reachable_run.
    + assert (shutdown_loop 0 s =
              (set_main Idle s, [SysAllShutDown], Some (Returns PyNone)))
        as Hl.
      { unfold shutdown_loop. by rewrite Hb. }
      rewrite Hl in Hs.
      destruct (Good_reachable s Hr) as (_ & _ & HM).
      destruct (shutdown_return s _ _ _ _ HM Hs) as (_ & Hm' & Hall);
        [by left|].
      exists [], (set_main Idle s), ([SysShuttingDown; SysAllShutDown] ++ []).
      split; [done|]. split; [by eapply run_cons|].
      split_and!; [done..|].
      apply all_stopped_quiet; [|done..].
      apply PoolInv_reachable. by eapply reachable_step.
  - intros s Hr Hm Hall.
    destruct (Good_reachable s Hr) as (_ & HC & _).
    destruct (shutdown_loop_again (length (bots s)) 0 s)
      as (rest & Hrun & Hout); [done..|].
    assert (step Shutdown s = Some (shutdown s)) as Hs.
    { simpl. by rewrite bool_decide_eq_true_2. }
    unfold shutdown in Hs.
    destruct (shutdown_loop 0 s) as [[s1 out1] r1]. cbn [fst snd] in Hrun, Hout.
    rewrite <-Hout. exact (run_cons Shutdown _ _ _ _ _ _ _ Hs Hrun).
Qed.

(** ** The theorems at work on runs of the program *)

(** The state a schedule leaves, from the initial state at time 0. *)
Definition after (acts : list Action) : State :=
  match run acts (init 0) with
  | Some (s, _) => s
  | None => init 0
  end.

Lemma get_next_order_head_witness :
  order_lock (after [AddOrder "VIP"]) = false ∧
  ∃ s' r, get_next_order (after [AddOrder "VIP"]) = (s', [], r) ∧
          r = Some 0%nat ∧ pending_orders s' = [].
Proof.
  split; [reflexivity|].
  destruct (get_next_order_head (after [AddOrder "VIP"]) eq_refl)
    as [(s' & r & Heq & Hr & Hs' & _) _].
  exists s', r. split; [exact Heq|]. split; [exact Hr|].
  rewrite Hs'. reflexivity.
Defined.

Lemma display_orders_pure_witness :
  ∃ s' out r,
    step (DisplayOrders (Only PROCESSING)) (after dispatch_schedule)
    = Some (s', out, r) ∧
    s' = after dispatch_schedule.
Proof.
  eexists _, _, _. split; [vm_compute; reflexivity|].
  apply (display_orders_pure (Only PROCESSING) (after dispatch_schedule) _
           [Table [mkRow 1 "NORMAL" PROCESSING (Some 0) (Some 0) None (Some 0)]]
           (Some (Returns PyNone))).
  vm_compute. reflexivity.
Defined.

Lemma pending_orders_pending_once_witness :
  reachable (after [AddOrder "normal"; AddOrder "VIP"]) ∧
  NoDup (pending_orders (after [AddOrder "normal"; AddOrder "VIP"])).
Proof.
  assert (reachable (after [AddOrder "normal"; AddOrder "VIP"])) as Hr.
  { exists 0, [AddOrder "normal"; AddOrder "VIP"]. eexists.
    vm_compute. reflexivity. }
  split; [exact Hr|].
  exact (proj1 (pending_orders_pending_once _ Hr)).
Defined.

Lemma pending_orders_vip_first_witness :
  reachable (after cancel_schedule) ∧
  ∃ kv kn,
    pending_orders (after cancel_schedule) =
    drop kv (vip_orders (after cancel_schedule)) ++
    drop kn (normal_orders (after cancel_schedule)).
Proof.
  assert (reachable (after cancel_schedule)) as Hr.
  { exists 0, cancel_schedule. eexists. vm_compute. reflexivity. }
  split; [exact Hr|].
  exact (proj1 (proj1 pending_orders_vip_first _ Hr)).
Defined.


Lemma order_lifecycle_witness :
  reachable (after complete_schedule) ∧
  ∀ a o, heap (after complete_schedule) !! a = Some o →
    Order.status o = COMPLETE →
    ∃ st, Order.start_time o = Some st ∧ Order.creation_time o ≤ st ∧
          ∀ e, Order.end_time o = Some e →
               st + processing_time ≤ e ∧ st < e.
Proof.
  assert (reachable (after complete_schedule)) as Hr.
  { exists 0, complete_schedule. eexists. vm_compute. reflexivity. }
  split; [exact Hr|].
  intros a o Ha. exact (proj2 (proj1 (order_lifecycle _ Hr) a o Ha)).
Defined.


Lemma shutdown_idempotent_witness :
  reachable (after [AddBot; Shutdown; MainStep; MainStep; BotStep 0;
                    MainStep]) ∧
  run [Shutdown; MainStep; MainStep; MainStep]
    (after [AddBot; Shutdown; MainStep; MainStep; BotStep 0;
            MainStep]) =
  Some (after [AddBot; Shutdown; MainStep; MainStep; BotStep 0;
               MainStep],
        [SysShuttingDown; SysAllShutDown]).
Proof.
  set (acts := [AddBot; Shutdown; MainStep; MainStep; BotStep 0;
                MainStep]).
  assert (reachable (after acts)) as Hr.
  { exists 0, acts. eexists. vm_compute. reflexivity. }
  split; [exact Hr|].
  apply (proj2 (proj2 shutdown_idempotent) (after acts) Hr eq_refl).
  intros b Hb. apply list_elem_of_singleton in Hb as ->.
  eexists. split; [reflexivity|]. by split.
Defined.

(** * Further properties of the controller and of the bots *)

(** ** The numbers of the bots *)

(** The bots ever made are numbered from 1 in the order they were made, and
    the counter is the number of the next one. *)
Definition BotIds (s : State) : Prop :=
  bot_id_counter s = Z.of_nat (length (threads s)) + 1 ∧
  ∀ b bot, threads s !! b = Some bot → Bot.bot_id bot = Z.of_nat b + 1.

Lemma BotIds_step a s s' out r :
  BotIds s → step a s = Some (s', out, r) → BotIds s'.
Proof.
  intros [Hc Hid] Hs.
  destruct (decide (length (threads s') = length (threads s))) as [Hlen|Hlen].
  - assert (bot_id_counter s' = bot_id_counter s) as Hc'.
    { step_inv Hs; simpl in *; try done. rewrite length_app in Hlen.
      simpl in Hlen. lia. }
    split; [by rewrite Hc', Hlen|].
    intros b bot' Hb'.
    assert (is_Some (threads s !! b)) as [bot Hb].
    { apply lookup_lt_is_Some. rewrite <-Hlen. by eapply lookup_lt_Some. }
    destruct (step_threads _ _ _ _ _ _ _ Hs Hb) as (bot'' & Hb'' & Hid' & _).
    simplify_eq. rewrite Hid'. by apply Hid.
  - step_inv Hs; simpl in *; rewrite ?length_alter in Hlen; try done.
    split; simpl.
    + rewrite length_app. simpl. lia.
    + intros b bot [[_ Hb]|[-> <-]]%lookup_snoc_Some; [by apply Hid|].
      simpl. lia.
Qed.

Lemma BotIds_reachable s : reachable s → BotIds s.
Proof.
  apply reachable_invariant.
  - intros now. by split.
  - intros a s1 s2 out r. apply BotIds_step.
Qed.

(** X1. [add_bot] hands out the numbers 1, 2, 3, ... in the order of the
    calls.  In every reachable state the bot made by the [b]-th call (from
    0) has [bot_id] [b + 1], removed bots included, so no two bots share a
    number; and a call of [add_bot] returns and prints the value of the
    counter, which no bot made before has, puts the new bot last in the
    pool and starts it with no order and its event clear. *)
Theorem add_bot_fresh_id s :
  reachable s →
  (∀ b bot, threads s !! b = Some bot → Bot.bot_id bot = Z.of_nat b + 1) ∧
  (∀ b1 b2 bot1 bot2,
     threads s !! b1 = Some bot1 → threads s !! b2 = Some bot2 →
     Bot.bot_id bot1 = Bot.bot_id bot2 → b1 = b2) ∧
  (∀ s' out r, step AddBot s = Some (s', out, r) →
     r = Some (Returns (PyInt (bot_id_counter s))) ∧
     out = [SysAddedBot (bot_id_counter s)] ∧
     bots s' = bots s ++ [length (threads s)] ∧
     threads s' = threads s ++ [Bot.mk (bot_id_counter s) None false L29] ∧
     bot_id_counter s' = bot_id_counter s + 1 ∧
     ∀ b bot, threads s !! b = Some bot →
              Bot.bot_id bot < bot_id_counter s).
Proof.
  intros Hr. destruct (BotIds_reachable s Hr) as [Hc Hid].
  split; [exact Hid|]. split.
  - intros b1 b2 bot1 bot2 H1 H2 Heq.
    rewrite (Hid _ _ H1), (Hid _ _ H2) in Heq. lia.
  - intros s' out r Hs. simpl in Hs.
    destruct (_ && _); [|done]. injection Hs as <- <- <-.
    split_and!; try done.
    intros b bot Hb. rewrite (Hid _ _ Hb), Hc.
    apply lookup_lt_Some in Hb. lia.
Qed.

(** ** What display_orders shows *)

(** The orders of [self.orders], and those among them that pass the test
    of line 144. *)
Definition listed (s : State) : list Order.t :=
  omap (λ a, heap s !! a) (orders s).

Definition selected (f : Filter) (s : State) : list Order.t :=
  filter (λ o, selects f (Order.status o) = true) (listed s).

(** The order for which line 151 raises. *)
Definition unstarted (o : Order.t) : Prop :=
  Order.status o = PROCESSING ∧ Order.start_time o = None.

Lemma display_row_None now o : display_row now o = None ↔ unstarted o.
Proof.
  unfold display_row, unstarted.
  destruct (Order.status o), (Order.start_time o); split;
    (done || (by intros [??])).
Qed.

(** The loop of lines 143-188 as a filter and a map. *)
Lemma display_loop_selected h now f l acc :
  Forall (λ a, is_Some (h !! a)) l →
  display_loop h now f l acc =
  (rows ← mapM (display_row now)
             (filter (λ o, selects f (Order.status o) = true)
                     (omap (λ a, h !! a) l));
   Some (acc ++ rows)).
Proof.
  intros Hl. revert acc. induction Hl as [|a l [o Ho] _ IH]; intros acc; simpl.
  - by rewrite app_nil_r.
  - rewrite Ho. simpl. rewrite filter_cons.
    destruct (selects f (Order.status o)) eqn:Hsel.
    + rewrite decide_True by done. simpl.
      destruct (display_row now o) as [r|]; simpl; [|done].
      rewrite IH.
      destruct (mapM _ _) as [rows|]; simpl; [|done].
      by rewrite <-(assoc_L (++)).
    + rewrite decide_False by done. apply IH.
Qed.

Lemma mapM_display_row now (l : list Order.t) :
  (∃ o, o ∈ l ∧ unstarted o) ∧ mapM (display_row now) l = None ∨
  (∀ o, o ∈ l → ¬ unstarted o) ∧
  ∃ rows, mapM (display_row now) l = Some rows ∧
          display_row now <$> l = Some <$> rows.
Proof.
  induction l as [|o l IH]; simpl.
  - right. split; [by intros ? ?%elem_of_nil|]. by exists [].
  - destruct (display_row now o) as [r|] eqn:Hr; simpl.
    + assert (¬ unstarted o) as Hno.
      { rewrite <-(display_row_None now). congruence. }
      destruct IH as [[(o' & Hin & Hun) ->]|[Hall (rows & -> & Heq)]].
      * left. split; [|done]. exists o'. split; [by right|done].
      * right. split.
        { intros o' [->|Hin]%elem_of_cons; [done|by apply Hall]. }
        exists (r :: rows). split; [done|]. simpl. f_equal. exact Heq.
    + left. split; [|done]. exists o. split; [by left|].
      by apply (display_row_None now).
Qed.

Lemma omap_lookup_seq {A} (h k : list A) :
  omap (λ a, (k ++ h) !! a) (seq (length k) (length h)) = h.
Proof.
  revert k. induction h as [|o h IH]; intros k; [done|]. simpl.
  rewrite list_lookup_middle by done. simpl. f_equal.
  specialize (IH (k ++ [o])). rewrite length_app, Nat.add_1_r in IH. simpl in IH.
  by rewrite <-(assoc_L (++)) in IH.
Qed.

(** In a reachable state [self.orders] lists every order there is, in the
    order of creation. *)
Lemma listed_reachable s : reachable s → listed s = heap s.
Proof.
  intros Hr. destruct (Shape_reachable s Hr) as [Hos _ _ _].
  unfold listed. rewrite Hos. apply (omap_lookup_seq (heap s) []).
Qed.

Lemma orders_valid s :
  reachable s → Forall (λ a, is_Some (heap s !! a)) (orders s).
Proof.
  intros Hr. destruct (Shape_reachable s Hr) as [Hos _ _ _].
  rewrite Hos. apply Forall_forall. intros a Ha%elem_of_seq.
  apply lookup_lt_is_Some. lia.
Qed.

(** What a call of [display_orders] prints and how it ends, from the
    orders it finds. *)
Lemma display_orders_locked_spec f s :
  Forall (λ a, is_Some (heap s !! a)) (orders s) →
  display_orders_locked f s =
  (s,
   match orders s with
   | [] => [SysNoOrders]
   | _ =>
       match mapM (display_row (clock s)) (selected f s) with
       | None => []
       | Some [] => [SysNoneWithStatus f]
       | Some rows => [Table rows]
       end
   end,
   match orders s with
   | [] => Returns PyNone
   | _ =>
       match mapM (display_row (clock s)) (selected f s) with
       | None => RaisesTypeError
       | Some _ => Returns PyNone
       end
   end).
Proof.
  intros Hv. unfold display_orders_locked.
  rewrite (display_loop_selected _ _ _ _ _ Hv).
  fold (listed s). fold (selected f s).
  destruct (orders s); [done|].
  destruct (mapM _ _) as [[|??]|]; done.
Qed.

Lemma step_display_orders f s s' out r :
  step (DisplayOrders f) s = Some (s', out, r) →
  main s = Idle ∧ order_lock s = false ∧ s' = s ∧
  ∃ v, r = Some v ∧ display_orders_locked f (set_order_lock true s) =
                    (set_order_lock true s, out, v).
Proof.
  intros Hs. simpl in Hs.
  destruct (bool_decide (main s = Idle)) eqn:Hm; [|done].
  destruct (order_lock s) eqn:Hl; [done|]. simpl in Hs.
  apply bool_decide_eq_true in Hm.
  split; [done|]. split; [done|].
  unfold display_orders, with_order_lock in Hs.
  destruct (display_orders_locked f (set_order_lock true s))
    as [[s1 out1] v] eqn:Hd.
  simpl in Hs. injection Hs as <- <- <-.
  assert (s1 = set_order_lock true s) as ->.
  { unfold display_orders_locked in Hd.
    destruct (orders _); [by injection Hd|].
    destruct (display_loop _ _ _ _ _) as [[|??]|]; by injection Hd. }
  split; [destruct s; simpl in *; by subst|].
  by exists v.
Qed.

Lemma display_row_Some now o r :
  display_row now o = Some r →
  row_number r = Order.order_number o ∧
  row_type r = upper (Order.type o) ∧
  row_status r = Order.status o.
Proof.
  unfold display_row.
  destruct (Order.status o), (Order.start_time o); intros; by simplify_eq.
Qed.

Lemma display_rows_fields now (l : list Order.t) rows :
  display_row now <$> l = Some <$> rows →
  row_number <$> rows = Order.order_number <$> l ∧
  row_type <$> rows = (λ o, upper (Order.type o)) <$> l ∧
  row_status <$> rows = Order.status <$> l.
Proof.
  revert rows. induction l as [|o l IH]; intros [|r rows] Heq;
    try done; simplify_eq/=.
  destruct (display_row_Some _ _ _ H) as (-> & -> & ->).
  destruct (IH _ H0) as (-> & -> & ->). done.
Qed.

(** X2. A call of [display_orders] that does not raise shows the orders
    of [self.orders] whose status passes the filter, all of them and no
    other, in the order of creation, one row each with the number, the
    type in capitals and the status of its order.  In a reachable state
    [self.orders] holds every order ever added.  With no order at all it
    prints that no order has been placed, whatever the filter; with
    orders but none selected it prints that none has the status asked
    for; it never prints an empty table.  (The call runs as one step: no
    bot writes to an order while the rows are made.) *)
Theorem display_orders_selected f s s' out r :
  reachable s → step (DisplayOrders f) s = Some (s', out, r) →
  r ≠ Some RaisesTypeError →
  r = Some (Returns PyNone) ∧
  listed s = heap s ∧
  ∃ rows,
    display_row (clock s) <$> selected f s = Some <$> rows ∧
    row_number <$> rows = Order.order_number <$> selected f s ∧
    row_type <$> rows = (λ o, upper (Order.type o)) <$> selected f s ∧
    row_status <$> rows = Order.status <$> selected f s ∧
    out = match orders s, rows with
          | [], _ => [SysNoOrders]
          | _, [] => [SysNoneWithStatus f]
          | _, _ => [Table rows]
          end.
Proof.
  intros Hr Hs Hno.
  destruct (step_display_orders _ _ _ _ _ Hs) as (_ & _ & -> & v & -> & Hd).
  rewrite display_orders_locked_spec in Hd by exact (orders_valid s Hr).
  injection Hd as <- <-.
  change (selected f (set_order_lock true s)) with (selected f s) in *.
  change (orders (set_order_lock true s)) with (orders s) in *.
  change (clock (set_order_lock true s)) with (clock s) in *.
  split_and!; [|by apply listed_reachable|].
  { destruct (orders s); [done|]. by destruct (mapM _ _). }
  destruct (mapM_display_row (clock s) (selected f s))
    as [[(o & Hin & _) Hnone]|[_ (rows & Hsome & Heq)]].
  { rewrite Hnone in Hno. destruct (orders s) eqn:Hos; [|done].
    unfold selected, listed in Hin. rewrite Hos in Hin.
    by apply elem_of_nil in Hin. }
  exists rows. rewrite Hsome. split; [done|].
  destruct (display_rows_fields _ _ _ Heq) as (? & ? & ?).
  split_and!; try done.
Qed.





(** ** Who has which order *)

(** The bot at address [b] works on the order at address [a]: it has taken
    it from the queue (line 30) and has not yet set its [end_time] (line
    46) or given it up (line 41). *)
Definition works_on (s : State) (b : baddr) (a : addr) : Prop :=
  ∃ bot, threads s !! b = Some bot ∧ held (Bot.pc bot) = Some a.

(** The bots on the way out of [run], from the test of line 38 or of line
    29, have their event set. *)
Definition leaving (pc : BotPc) : Prop :=
  match pc with
  | L40 _ | L41 _ | L42 | Finished => True
  | _ => False
  end.

Definition StopInv (s : State) : Prop :=
  ∀ b bot, threads s !! b = Some bot → leaving (Bot.pc bot) →
           Bot.stop_event bot = true.

Lemma StopInv_step a s s' out r :
  StopInv s → step a s = Some (s', out, r) → StopInv s'.
Proof.
  intros HS Hs b' bot'. unfold StopInv in HS.
  step_inv Hs; simpl; intros Hb' Hl;
    try (by eapply HS);
    try (apply lookup_snoc_Some in Hb' as [[_ Hb']|[_ <-]];
         [by eapply HS|done]);
    rewrite ?list_lookup_alter in Hb';
    repeat (case_decide; simplify_eq);
    try (by eapply HS);
    repeat match goal with
           | H : threads s !! ?b = Some _, H' : context [threads s !! ?b]
             |- _ => rewrite H in H'; simpl in H'; simplify_eq
           end;
    simpl in *; try done;
    try (eapply HS; [eassumption|];
         match goal with H : Bot.pc _ = _ |- _ => by rewrite H end).
Qed.

Lemma StopInv_reachable s : reachable s → StopInv s.
Proof.
  apply reachable_invariant.
  - by intros now b bot Hb.
  - intros a s1 s2 out r. apply StopInv_step.
Qed.

(** A queued order stays queued through a step, unless a bot takes it. *)
Lemma step_queued a s s' out r x :
  step a s = Some (s', out, r) → x ∈ pending_orders s →
  x ∈ pending_orders s' ∨ ∃ b, works_on s' b x.
Proof.
  intros Hs Hx. step_inv Hs; simpl; try (by left).
  - left. destruct (is_vip order_type).
    + rewrite insert_at_perm. by right.
    + apply elem_of_app. by left.
  - apply elem_of_cons in Hx as [->|Hx]; [|by left].
    right. eexists _, _. simpl. rewrite list_lookup_alter_eq.
    match goal with H : threads _ !! _ = Some _ |- _ => rewrite H end.
    by split.
  - by apply elem_of_nil in Hx.
Qed.

(** A bot goes on working on its order through a step, unless the step
    is line 46 (the order is complete) or line 41 (it is given up). *)
Lemma step_release a s s' out r b x :
  step a s = Some (s', out, r) → works_on s b x →
  works_on s' b x ∨
  ∃ bot, threads s !! b = Some bot ∧
         (Bot.pc bot = L46 x ∨ Bot.pc bot = L41 x).
Proof.
  intros Hs. step_inv Hs; intros (bx & Hb & Hx); unfold works_on; simpl;
    try (left; by exists bx);
    try (left; exists bx; split; [by apply lookup_app_l_Some|done]);
    rewrite ?list_lookup_alter;
    repeat (case_decide; simplify_eq);
    try (left; by exists bx);
    try match goal with
        | H : threads _ !! _ = Some _ |- _ => rewrite H
        end; simpl;
    repeat match goal with
           | H : Bot.pc _ = _ |- _ => rewrite H in Hx; simpl in Hx
           end;
    simplify_eq;
    try (left; eexists; by split);
    try (right; eexists; split; [done|]; by auto).
Qed.

(** The order made by a step is in the queue after it. *)
Lemma step_new_order a s s' out r :
  step a s = Some (s', out, r) →
  length (heap s') ≠ length (heap s) →
  length (heap s) ∈ pending_orders s' ∧
  ∃ order_type, heap s' = heap s ++
                  [Order.init (order_number s + 1) order_type (clock s)].
Proof.
  intros Hs. step_inv Hs; simpl; rewrite ?length_alter; try done.
  intros _. split; [|by eexists].
  destruct (is_vip order_type).
  - rewrite insert_at_perm. by left.
  - apply elem_of_app. right. by left.
Qed.

(** Once [COMPLETE], always [COMPLETE]. *)
Lemma step_complete a s s' out r x o o' :
  Inv s → step a s = Some (s', out, r) →
  heap s !! x = Some o → heap s' !! x = Some o' →
  Order.status o = COMPLETE → Order.status o' = COMPLETE.
Proof.
  intros HI Hs Ho Ho' Hst.
  destruct (step_heap _ _ _ _ _ Hs)
    as [Heq|[[ty Heq]|(b & bot & y & f & Hb & Hy & Hw & Heq)]].
  - rewrite Heq in Ho'. congruence.
  - rewrite Heq, (lookup_app_l_Some _ _ _ _ Ho) in Ho'. congruence.
  - rewrite Heq in Ho'. destruct (decide (y = x)) as [->|Hne].
    2: { rewrite list_lookup_alter_ne in Ho' by done. congruence. }
    rewrite list_lookup_alter_eq, Ho in Ho'. simpl in Ho'. simplify_eq.
    destruct (inv_held _ _ _ _ HI b (Bot.pc bot) x) as (_ & o2 & Ho2 & _ & Hok);
      [by rewrite pcs_lookup, Hb|done|].
    simplify_eq.
    destruct Hw; simpl in *; destruct Hok as [? ?]; congruence.
Qed.

(** Every order is in the queue, or a bot works on it, or it is complete,
    or a bot has been told to stop. *)
Definition Accounted (s : State) : Prop :=
  ∀ a o, heap s !! a = Some o →
    a ∈ pending_orders s ∨ (∃ b, works_on s b a) ∨
    Order.status o = COMPLETE ∨
    ∃ b bot, threads s !! b = Some bot ∧ Bot.stop_event bot = true.

Lemma Accounted_step a s s' out r :
  Inv s → StopInv s → Accounted s → step a s = Some (s', out, r) →
  Accounted s'.
Proof.
  intros HI HS HA Hs x o' Ho'.
  destruct (heap s !! x) as [o|] eqn:Ho.
  2: { left. apply lookup_ge_None in Ho.
       destruct (step_new_order _ _ _ _ _ Hs) as [Hin [ty Heq]].
       { intros Hlen. apply lookup_lt_Some in Ho'. lia. }
       assert (x = length (heap s)) as ->; [|done].
       apply lookup_lt_Some in Ho'. rewrite Heq, length_app in Ho'.
       simpl in Ho'. lia. }
  destruct (HA x o Ho) as [Hq|[[b Hw]|[Hc|(b & bot & Hb & Hstop)]]].
  - destruct (step_queued _ _ _ _ _ _ Hs Hq); auto.
  - destruct (step_release _ _ _ _ _ _ _ Hs Hw)
      as [Hw'|(bot & Hb & [Hpc|Hpc])]; [eauto|..].
    + right. right. left.
      destruct (inv_held _ _ _ _ HI b (L46 x) x) as (_ & o2 & Ho2 & _ & Hst & _);
        [by rewrite pcs_lookup, Hb; simpl; rewrite Hpc|done|].
      simplify_eq. by eapply step_complete.
    + right. right. right.
      assert (Bot.stop_event bot = true) as Hstop
        by (apply (HS b bot Hb); by rewrite Hpc).
      destruct (step_threads _ _ _ _ _ _ _ Hs Hb) as (bot' & Hb' & _ & Hst' & _).
      exists b, bot'. auto.
  - right. right. left. by eapply step_complete.
  - right. right. right.
    destruct (step_threads _ _ _ _ _ _ _ Hs Hb) as (bot' & Hb' & _ & Hst' & _).
    exists b, bot'. auto.
Qed.

(** An order that is [PROCESSING] has a bot that works on it. *)
Definition Processed (s : State) : Prop :=
  ∀ a o, heap s !! a = Some o → Order.status o = PROCESSING →
         ∃ b, works_on s b a.

Lemma Processed_step a s s' out r :
  Inv s → Processed s → step a s = Some (s', out, r) → Processed s'.
Proof.
  intros HI HP Hs x o' Ho' Hst'.
  assert (∀ b, works_on s b x → ∃ b', works_on s' b' x) as Hkeep.
  { intros b Hw.
    destruct (step_release _ _ _ _ _ _ _ Hs Hw)
      as [Hw'|(bot & Hb & Hpc)]; [eauto|].
    exfalso.
    destruct (inv_held _ _ _ _ HI b (Bot.pc bot) x) as (_ & o & Ho & _ & Hok);
      [by rewrite pcs_lookup, Hb|by destruct Hpc as [-> | ->]|].
    assert (Order.status o ≠ PROCESSING ∧ Order.status o ≠ Order.status o' →
            False) as Habs.
    { intros [_ Hne]. apply Hne. clear Hne.
      destruct (step_heap _ _ _ _ _ Hs)
        as [Heq|[[ty Heq]|(b2 & bot2 & y & f & Hb2 & Hy & Hw2 & Heq)]].
      - rewrite Heq in Ho'. congruence.
      - rewrite Heq, (lookup_app_l_Some _ _ _ _ Ho) in Ho'. congruence.
      - rewrite Heq in Ho'. destruct (decide (y = x)) as [->|Hne].
        2: { rewrite list_lookup_alter_ne in Ho' by done. congruence. }
        assert (b2 = b) as ->.
        { eapply (inv_excl _ _ _ _ HI); rewrite ?pcs_lookup, ?Hb2, ?Hb;
            try done. by destruct Hpc as [-> | ->]. }
        simplify_eq.
        rewrite list_lookup_alter_eq, Ho in Ho'. simpl in Ho'. simplify_eq.
        destruct Hpc as [Hpc|Hpc]; rewrite Hpc in Hw2; by inversion Hw2. }
    destruct Hpc as [Hpc|Hpc]; rewrite Hpc in Hok; destruct Hok as [Hst _];
      apply Habs; split; congruence. }
  destruct (heap s !! x) as [o|] eqn:Ho.
  2: { apply lookup_ge_None in Ho.
       destruct (step_new_order _ _ _ _ _ Hs) as [Hin [ty Heq]].
       { intros Hlen. apply lookup_lt_Some in Ho'. lia. }
       rewrite Heq in Ho'.
       apply lookup_app_Some in Ho' as [Ho'|[_ Ho']].
       { apply lookup_lt_Some in Ho'. lia. }
       apply list_lookup_singleton_Some in Ho' as [_ <-]. done. }
  destruct (decide (Order.status o = PROCESSING)) as [Hst|Hst].
  { destruct (HP x o Ho Hst) as [b Hw]. by eapply Hkeep. }
  destruct (step_heap _ _ _ _ _ Hs)
    as [Heq|[[ty Heq]|(b & bot & y & f & Hb & Hy & Hw & Heq)]].
  - rewrite Heq in Ho'. congruence.
  - rewrite Heq, (lookup_app_l_Some _ _ _ _ Ho) in Ho'. congruence.
  - rewrite Heq in Ho'. destruct (decide (y = x)) as [->|Hne].
    2: { rewrite list_lookup_alter_ne in Ho' by done. congruence. }
    apply (Hkeep b). by exists bot.
Qed.

Lemma Processed_reachable s : reachable s → Processed s.
Proof.
  intros Hr.
  cut (Inv s ∧ Processed s); [by intros [??]|].
  revert s Hr. apply reachable_invariant.
  - intros now. split; [apply InvP_init|]. by intros a o Ha.
  - intros a s s' out r [HI HP] Hs.
    split; [by eapply Inv_step|by eapply Processed_step].
Qed.

Lemma Accounted_reachable s : reachable s → Accounted s.
Proof.
  intros Hr.
  cut (Inv s ∧ StopInv s ∧ Accounted s); [by intros (?&?&?)|].
  revert s Hr. apply reachable_invariant.
  - intros now. split; [apply InvP_init|]. split; by intros a o Ha.
  - intros a s s' out r (HI & HS & HA) Hs.
    split; [by eapply Inv_step|].
    split; [by eapply StopInv_step|by eapply Accounted_step].
Qed.

(** X5. No order is worked on twice.  In every reachable state two
    different bots never work on the same order, an order a bot works on
    is not in the queue, it exists and has no [end_time], and every order
    that is [PROCESSING] has a bot, hence exactly one, that works on it. *)
Theorem one_bot_per_order s :
  reachable s →
  (∀ b1 b2 a, works_on s b1 a → works_on s b2 a → b1 = b2) ∧
  (∀ b a, works_on s b a →
     (a ∉ pending_orders s) ∧
     ∃ o, heap s !! a = Some o ∧ Order.end_time o = None) ∧
  (∀ a o, heap s !! a = Some o → Order.status o = PROCESSING →
     ∃ b, works_on s b a ∧ ∀ b', works_on s b' a → b' = b).
Proof.
  intros Hr. pose proof (Inv_reachable s Hr) as HI.
  assert (∀ b1 b2 a, works_on s b1 a → works_on s b2 a → b1 = b2) as Hexcl.
  { intros b1 b2 a (bot1 & Hb1 & Ha1) (bot2 & Hb2 & Ha2).
    eapply (inv_excl _ _ _ _ HI); rewrite ?pcs_lookup, ?Hb1, ?Hb2; done. }
  split; [done|]. split.
  - intros b a (bot & Hb & Ha).
    destruct (inv_held _ _ _ _ HI b (Bot.pc bot) a) as (Hq & o & Ho & Hend & _);
      [by rewrite pcs_lookup, Hb|done|].
    split; [done|]. by exists o.
  - intros a o Ho Hst.
    destruct (Processed_reachable s Hr a o Ho Hst) as [b Hw].
    exists b. split; [done|]. intros b' Hw'. by eapply Hexcl.
Qed.

(** X6. No order is lost as long as no bot is stopped.  In a reachable
    state in which no bot has its event set (no [remove_bot] and no
    [shutdown] has stopped one), every order ever added is in the queue,
    or a bot works on it, or it is [COMPLETE]. *)
Theorem no_order_lost s :
  reachable s →
  (∀ b bot, threads s !! b = Some bot → Bot.stop_event bot = false) →
  ∀ a o, heap s !! a = Some o →
    a ∈ pending_orders s ∨ (∃ b, works_on s b a) ∨
    Order.status o = COMPLETE.
Proof.
  intros Hr Hno a o Ho.
  destruct (Accounted_reachable s Hr a o Ho)
    as [?|[?|[?|(b & bot & Hb & Hstop)]]]; auto.
  rewrite (Hno b bot Hb) in Hstop. done.
Qed.

(** ** When a bot can run *)

(** A sleeping bot has slept enough. *)
Definition awake (now : Z) (pc : BotPc) : Prop :=
  match pc with
  | L44_asleep _ _ wake | L50_asleep wake => wake ≤ now
  | _ => True
  end.

Lemma bot_step_enabled s b bot :
  Inv s → threads s !! b = Some bot →
  Bot.pc bot ≠ Finished → awake (clock s) (Bot.pc bot) →
  (Bot.pc bot = L30 → order_lock s = false) →
  is_Some (bot_step b s).
Proof.
  intros HI Hb Hpc Haw Hlock.
  pose proof (λ o, Inv_held_lookup s b bot o HI Hb) as Hheld.
  unfold bot_step. rewrite Hb. cbn [mbind option_bind].
  destruct (Bot.pc bot) eqn:Hbpc; [..|done]; cbn [awake] in Haw.
  all: try (destruct (Hheld order eq_refl) as [ord Hord]).
  all: try rewrite (Hlock eq_refl).
  all: cbn [clock heap order_lock update_order set_heap].
  all: rewrite ?list_lookup_alter_eq, ?Hord.
  all: cbn [fmap option_fmap option_map mbind option_bind].
  all: unfold get_next_order, with_order_lock, get_next_order_locked.
  all: cbn [pending_orders set_order_lock].
  all: try (destruct (pending_orders s) as [|o q]).
  all: try (destruct (Bot.stop_event bot)).
  all: try (destruct (_ <? processing_time)).
  all: try match goal with
           | |- context [?w <=? ?c] =>
               replace (w <=? c) with true by (symmetry; apply Z.leb_le; lia)
           end.
  all: cbn [mbind option_bind]; by eexists.
Qed.

Lemma bot_step_Some s b s' out :
  bot_step b s = Some (s', out) →
  ∃ bot, threads s !! b = Some bot ∧
         Bot.pc bot ≠ Finished ∧ awake (clock s) (Bot.pc bot) ∧
         (Bot.pc bot = L30 → order_lock s = false).
Proof.
  unfold bot_step. destruct (threads s !! b) as [bot|]; [|done]. simpl.
  intros Hs. exists bot. split; [done|].
  destruct (Bot.pc bot); simpl in *; try done.
  - split; [done|]. split; [done|]. intros _. by destruct (order_lock s).
  - split; [done|]. split; [|done].
    destruct (wake <=? clock s) eqn:Hw; [|done]. by apply Z.leb_le.
  - split; [done|]. split; [|done].
    destruct (wake <=? clock s) eqn:Hw; [|done]. by apply Z.leb_le.
Qed.

(** X7. What keeps a bot from running.  In a reachable state the bot at
    [b] can run its next statement exactly when it has not come to the end
    of [run], is not asleep (lines 44 and 50) before its time, and is not
    at line 30 while the main thread is inside [remove_bot], which holds
    the lock.  So outside [remove_bot] a bot never waits for anything but
    its own sleep: once the clock has passed its waking time it runs. *)
Theorem bot_runs_unless_removing s b :
  reachable s →
  (is_Some (step (BotStep b) s) ↔
   ∃ bot, threads s !! b = Some bot ∧
          Bot.pc bot ≠ Finished ∧ awake (clock s) (Bot.pc bot) ∧
          (Bot.pc bot = L30 →
           ∀ b' at_line, main s ≠ Stopping FromRemove b' at_line)) ∧
  (∀ bot, threads s !! b = Some bot → Bot.pc bot ≠ Finished →
          (∀ b' at_line, main s ≠ Stopping FromRemove b' at_line) →
          is_Some (run [Tick (nap (clock s) (Bot.pc bot)); BotStep b] s)).
Proof.
  intros Hr. destruct (Good_reachable s Hr) as (HI & _ & HM).
  pose proof (minv_lock _ HM) as Hlock.
  assert (order_lock s = false ↔
          ∀ b' at_line, main s ≠ Stopping FromRemove b' at_line) as Hfree.
  { rewrite Hlock. destruct (main s) as [|[|?] ? ?]; split; try done.
    intros Hno. by destruct (Hno bot at_line). }
  split; [split|].
  - intros [[[s' out] r] Hs]. simpl in Hs.
    destruct (bot_step b s) as [[s1 out1]|] eqn:Hb; [|done].
    destruct (bot_step_Some _ _ _ _ Hb) as (bot & ? & ? & ? & Hl).
    exists bot. split_and!; try done. intros Hpc. by apply Hfree, Hl.
  - intros (bot & Hb & Hpc & Haw & Hl).
    destruct (bot_step_enabled s b bot) as [[s' out] Hs]; try done.
    { intros Hpc'. by apply Hfree, Hl. }
    simpl. rewrite Hs. by eexists.
  - intros bot Hb Hpc Hno.
    assert (0 ≤ nap (clock s) (Bot.pc bot)) as Hnap.
    { unfold nap. destruct (Bot.pc bot); lia. }
    assert (step (Tick (nap (clock s) (Bot.pc bot))) s =
            Some (set_clock (clock s + nap (clock s) (Bot.pc bot)) s, [], None))
      as Htick.
    { simpl. by rewrite (proj2 (Z.leb_le _ _) Hnap). }
    destruct (bot_step_enabled
                (set_clock (clock s + nap (clock s) (Bot.pc bot)) s) b bot)
      as [[s' out] Hs]; try done.
    { eapply Inv_step; [exact HI|exact Htick]. }
    { unfold awake, nap. simpl. destruct (Bot.pc bot); try done; lia. }
    { intros _. simpl. by apply Hfree. }
    exists (s', [] ++ out ++ []).
    eapply run_cons; [exact Htick|].
    eapply run_cons; [|done]. simpl. by rewrite Hs.
Qed.

(** ** remove_bot and the bot at line 30 *)

(** The main thread is inside [remove_bot], stopping the bot at [b], with
    the lock; the bot is at line 30, about to ask for the lock. *)
Definition stuck (b : baddr) (s : State) : Prop :=
  order_lock s = true ∧
  (∃ at_line, main s = Stopping FromRemove b at_line) ∧
  ∃ bot, threads s !! b = Some bot ∧ Bot.pc bot = L30.

Lemma stuck_step b a s s' out r :
  stuck b s → step a s = Some (s', out, r) →
  stuck b s' ∧ r = None ∧ bots s' = bots s ∧
  pending_orders s' = pending_orders s.
Proof.
  intros (Hl & [at_line Hm] & bot & Hb & Hpc) Hs. unfold stuck.
  step_inv Hs; simpl; try congruence;
    rewrite ?list_lookup_alter;
    repeat (case_decide; simplify_eq);
    rewrite ?Hb; simpl; try congruence;
    try (split_and!; try done; by eauto).
Qed.

Lemma stuck_run b acts : ∀ s s' out,
  stuck b s → run acts s = Some (s', out) →
  stuck b s' ∧ bots s' = bots s ∧ pending_orders s' = pending_orders s.
Proof.
  induction acts as [|a acts IH]; intros s s' out Hst; simpl.
  - by intros [= <- <-].
  - destruct (step a s) as [[[s1 out1] r]|] eqn:Hs; simpl; [|done].
    destruct (run acts s1) as [[s2 out2]|] eqn:Hr; simpl; [|done].
    intros [= <- <-].
    destruct (stuck_step _ _ _ _ _ _ Hst Hs) as (Hst1 & _ & Hb1 & Hq1).
    destruct (IH _ _ _ Hst1 Hr) as (? & ? & ?).
    split; [done|]. split; congruence.
Qed.

(** X8. [remove_bot] never returns once the bot it stops is at line 30.
    In any reachable state in which the main thread is inside
    [remove_bot], at whatever line of [stop], and the bot it has taken out
    of the pool has passed the test of line 29 and is about to call
    [get_next_order], nothing that can run afterwards ends the call: the
    main thread stays in [stop] with the lock, the bot stays at line 30,
    no call returns and so no other call of the main thread ever starts,
    and the pool and the queue stay as they are. *)
Theorem remove_bot_never_returns s b at_line bot :
  reachable s →
  main s = Stopping FromRemove b at_line →
  threads s !! b = Some bot → Bot.pc bot = L30 →
  (∀ a s' out r, step a s = Some (s', out, r) → r = None) ∧
  ∀ acts s' out, run acts s = Some (s', out) →
    order_lock s' = true ∧
    (∃ at_line', main s' = Stopping FromRemove b at_line') ∧
    (∃ bot', threads s' !! b = Some bot' ∧ Bot.pc bot' = L30) ∧
    bots s' = bots s ∧ pending_orders s' = pending_orders s ∧
    (∀ a s'' out' r, step a s' = Some (s'', out', r) → r = None).
Proof.
  intros Hr Hm Hb Hpc.
  destruct (Good_reachable s Hr) as (_ & _ & HM).
  assert (stuck b s) as Hst.
  { split; [by rewrite (minv_lock _ HM), Hm|]. split; by eauto. }
  split.
  { intros a s' out r Hs.
    by destruct (stuck_step _ _ _ _ _ _ Hst Hs) as (_ & ? & _). }
  intros acts s' out Hrun.
  destruct (stuck_run _ _ _ _ _ Hst Hrun) as (Hst' & ? & ?).
  pose proof Hst' as (? & ? & ?).
  split_and!; try done.
  intros a s'' out' r Hs.
  by destruct (stuck_step _ _ _ _ _ _ Hst' Hs) as (_ & ? & _).
Qed.

(** A bot whose event is set and that is not at line 30 needs no lock to
    get to the end of [run]: its next statement runs once it has slept
    enough, brings it closer to the end, and does not lead to line 30. *)
Lemma bot_progress_stopping s b bot :
  Inv s → threads s !! b = Some bot → Bot.stop_event bot = true →
  Bot.pc bot ≠ Finished → Bot.pc bot ≠ L30 →
  ∃ s' out bot',
    run [Tick (nap (clock s) (Bot.pc bot)); BotStep b] s = Some (s', out) ∧
    threads s' !! b = Some bot' ∧ Bot.stop_event bot' = true ∧
    (rank (Bot.pc bot') < rank (Bot.pc bot))%nat ∧ Bot.pc bot' ≠ L30 ∧
    order_lock s' = order_lock s ∧ main s' = main s ∧ bots s' = bots s.
Proof.
  intros HI Hb Hstop Hpc Hpc30.
  pose proof (λ o, Inv_held_lookup s b bot o HI Hb) as Hheld.
  unfold run. cbn [step].
  assert ((0 <=? nap (clock s) (Bot.pc bot)) = true) as ->.
  { apply Z.leb_le. unfold nap. destruct (Bot.pc bot); lia. }
  cbn [mbind option_bind]. unfold bot_step. cbn [threads set_clock].
  rewrite Hb. cbn [mbind option_bind].
  destruct (Bot.pc bot) eqn:Hbpc; [|done|..|done]; cbn [nap].
  all: try (destruct (Hheld order eq_refl) as [ord Hord]).
  all: cbn [clock set_clock heap order_lock update_order set_heap].
  all: rewrite ?Hstop, ?list_lookup_alter_eq, ?Hord.
  all: cbn [fmap option_fmap option_map mbind option_bind].
  all: try (destruct (_ <? processing_time)).
  all: try match goal with
           | |- context [?w <=? ?c] =>
               replace (w <=? c) with true by (symmetry; apply Z.leb_le; lia)
           end.
  all: cbn [mbind option_bind].
  all: eexists _, _, _; (split; [reflexivity|]).
  all: unfold goto, update_bot, update_order.
  all: cbn [threads set_threads set_heap set_clock set_order_lock
              set_pending_orders order_lock main bots].
  all: rewrite !list_lookup_alter_eq, Hb.
  all: cbn [fmap option_fmap option_map].
  all: (split; [reflexivity|]).
  all: cbn [Bot.pc Bot.stop_event Bot.set_pc Bot.set_current_order rank].
  all: repeat split; try done; lia.
Qed.

Lemma run_bot_id acts : ∀ s s' out b bot,
  run acts s = Some (s', out) → threads s !! b = Some bot →
  ∃ bot', threads s' !! b = Some bot' ∧ Bot.bot_id bot' = Bot.bot_id bot.
Proof.
  induction acts as [|a acts IH]; intros s s' out b bot; simpl.
  - intros [= <- <-] Hb. by exists bot.
  - destruct (step a s) as [[[s1 out1] r]|] eqn:Hs; simpl; [|done].
    destruct (run acts s1) as [[s2 out2]|] eqn:Hr; simpl; [|done].
    intros [= <- <-] Hb.
    destruct (step_threads _ _ _ _ _ _ _ Hs Hb) as (bot1 & Hb1 & Hid1 & _).
    destruct (IH _ _ _ _ _ Hr Hb1) as (bot2 & Hb2 & Hid2).
    exists bot2. split; [done|congruence].
Qed.

Lemma bot_finishes_stopping n : ∀ s b bot,
  (rank (Bot.pc bot) ≤ n)%nat →
  Good s → threads s !! b = Some bot → Bot.stop_event bot = true →
  Bot.pc bot ≠ L30 →
  ∃ acts s' out bot',
    forallb background acts = true ∧
    run acts s = Some (s', out) ∧
    threads s' !! b = Some bot' ∧
    Bot.pc bot' = Finished ∧ Bot.stop_event bot' = true ∧
    Bot.bot_id bot' = Bot.bot_id bot ∧
    order_lock s' = order_lock s ∧ main s' = main s ∧ bots s' = bots s ∧
    Good s'.
Proof.
  induction n as [|n IH]; intros s b bot Hrank HG Hb Hstop Hpc.
  - exists [], s, [], bot. split_and!; try done.
    destruct (Bot.pc bot); simpl in Hrank; try lia. done.
  - destruct (decide (Bot.pc bot = Finished)) as [Hfin|Hrun].
    { exists [], s, [], bot. by split_and!. }
    destruct (bot_progress_stopping s b bot) as
      (s1 & out1 & bot1 & Hrun1 & Hb1 & Hstop1 & Hlt & Hpc1 & Hlock1 & Hm1
       & Hbots1); [apply HG|done..|].
    pose proof (Good_run _ _ _ _ HG Hrun1) as HG1.
    assert (Bot.bot_id bot1 = Bot.bot_id bot) as Hid1.
    { destruct (run_bot_id _ _ _ _ _ _ Hrun1 Hb) as (bot' & Hb' & Hid').
      congruence. }
    destruct (IH s1 b bot1) as
      (acts & s2 & out2 & bot2 & Hbg & Hrun2 & Hb2 & Hfin2 & Hstop2 & Hid2
       & Hlock2 & Hm2 & Hbots2 & HG2); [lia|done..|].
    exists ([Tick (nap (clock s) (Bot.pc bot)); BotStep b] ++ acts), s2,
      (out1 ++ out2), bot2.
    split; [by rewrite forallb_app, Hbg|].
    split; [by rewrite run_app, Hrun1; simpl; rewrite Hrun2|].
    split_and!; try done; congruence.
Qed.

(** X9. When [remove_bot] can return.  Called from a reachable state
    with the main thread at its prompt, [remove_bot] takes the last bot
    [b] of the pool.  If that bot is anywhere but at line 30, the call can
    run to its end: there is a schedule of the bots, the clock and the
    call after which it has returned, printed the notice with the number
    of the bot last, given the lock back and left the pool without the
    bot, which has its event set and has come to the end of [run].  If
    the bot is at line 30 no schedule ends the call: the main thread
    never gets back to its prompt. *)
Theorem remove_bot_returns_unless_line_30 s rest b bot :
  reachable s → main s = Idle →
  bots s = rest ++ [b] → threads s !! b = Some bot →
  (Bot.pc bot ≠ L30 →
   ∃ acts s' out,
     forallb background acts = true ∧
     run (RemoveBot :: acts) s
     = Some (s', out ++ [SysRemovedBot (Bot.bot_id bot)]) ∧
     main s' = Idle ∧ order_lock s' = false ∧ bots s' = rest ∧
     ∃ bot', threads s' !! b = Some bot' ∧
             Bot.pc bot' = Finished ∧ Bot.stop_event bot' = true) ∧
  (Bot.pc bot = L30 →
   ∀ acts s' out, run (RemoveBot :: acts) s = Some (s', out) →
     main s' ≠ Idle ∧ order_lock s' = true ∧ bots s' = rest).
Proof.
  intros Hr Hm Hbots Hb.
  pose proof (Good_reachable s Hr) as HG.
  assert (order_lock s = false) as Hl.
  { destruct HG as (_ & _ & HM). by rewrite (minv_lock _ HM), Hm. }
  set (s1 := set_main (Stopping FromRemove b L53)
               (set_bots rest (set_order_lock true s))).
  assert (step RemoveBot s = Some (s1, [], None)) as Hs1.
  { simpl. rewrite Hm, Hl. simpl. unfold remove_bot. simpl.
    by rewrite Hbots, pop_snoc. }
  pose proof (Good_step _ _ _ _ _ HG Hs1) as HG1.
  split.
  - intros Hpc.
    pose proof (step_L53 s1 FromRemove b bot eq_refl Hb) as Hs2.
    set (s2 := set_main (Stopping FromRemove b L54)
                 (update_bot b (Bot.set_stop_event true) s1)) in *.
    pose proof (Good_step _ _ _ _ _ HG1 Hs2) as HG2.
    assert (threads s2 !! b = Some (Bot.set_stop_event true bot)) as Hb2.
    { unfold s2, update_bot. simpl. by rewrite list_lookup_alter_eq, Hb. }
    destruct (step_L54 s2 FromRemove b _ eq_refl Hb2) as (out3 & Hs3 & _).
    { intros a Ha. destruct HG2 as (_ & HC2 & _). by eapply HC2. }
    set (s3 := set_main (Stopping FromRemove b L56) s2) in *.
    pose proof (Good_step _ _ _ _ _ HG2 Hs3) as HG3.
    destruct (bot_finishes_stopping _ s3 b (Bot.set_stop_event true bot)
                (le_n _))
      as (acts & s4 & out4 & bot4 & Hbg & Hrun & Hb4 & Hfin & Hstop & Hid
          & Hl4 & Hm4 & Hbots4 & HG4); [done..|].
    pose proof (step_L56 s4 FromRemove b bot4 Hm4 Hb4 Hfin) as Hs5.
    cbn [after_stop] in Hs5. simpl in Hid. rewrite Hid in Hs5.
    exists (MainStep :: MainStep :: acts ++ [MainStep]),
      (set_order_lock false (set_main Idle s4)), (out3 ++ out4).
    split; [simpl; by rewrite forallb_app, Hbg|].
    split.
    { rewrite <-(assoc_L (++)).
      change (out3 ++ out4 ++ [SysRemovedBot (Bot.bot_id bot)])
        with ([] ++ [] ++ out3 ++ out4 ++ [SysRemovedBot (Bot.bot_id bot)]).
      eapply run_cons; [exact Hs1|].
      eapply run_cons; [exact Hs2|].
      eapply run_cons; [exact Hs3|].
      eapply run_app_Some; [exact Hrun|].
      cbn [run]. by rewrite Hs5. }
    split_and!; try done. by exists bot4.
  - intros Hpc acts s' out Hrun. cbn [run] in Hrun. rewrite Hs1 in Hrun.
    cbn [mbind option_bind] in Hrun.
    destruct (run acts s1) as [[s2 out2]|] eqn:Hrun1; [|done].
    simpl in Hrun. injection Hrun as <- <-.
    assert (stuck b s1) as Hst.
    { split; [done|]. split; [by eexists|]. by exists bot. }
    destruct (stuck_run _ _ _ _ _ Hst Hrun1) as ((? & [? Hm'] & _) & Hb' & _).
    split_and!; [congruence|done|done].
Qed.

(** ** A bot at work *)

(** The state [s] with the order at [o], the bot at [b], the queue and
    the clock replaced, and the lock free. *)
Definition with_work (s : State) (o : addr) (ord : Order.t)
    (b : baddr) (bot : Bot.t) (q : list addr) (now : Z) : State :=
  mkState (<[o:=ord]> (heap s)) (<[b:=bot]> (threads s)) (orders s) q
          (order_number s) (bots s) (bot_id_counter s) false (main s) now.

(** One turn of the loop of lines 37-44 for a bot that is not stopped:
    the test of the time, the test of the event, and the sleep of one
    second. *)
Definition poll (b : baddr) : list Action :=
  [BotStep b; BotStep b; BotStep b; Tick poll_interval; BotStep b].

(** From line 30, with an order to take, to line 29 again: lines 30 to
    36, ten turns of the loop, and lines 37 and 45 to 48. *)
Definition process_schedule (b : baddr) : list Action :=
  repeat (BotStep b) 5 ++ concat (repeat (poll b) 10) ++ repeat (BotStep b) 4.

Lemma with_work_id s o ord b bot :
  heap s !! o = Some ord → threads s !! b = Some bot →
  order_lock s = false →
  with_work s o ord b bot (pending_orders s) (clock s) = s.
Proof.
  intros Ho Hb Hl. unfold with_work.
  rewrite (list_insert_id _ _ _ Ho), (list_insert_id _ _ _ Hb).
  destruct s; simpl in *. by subst.
Qed.

Lemma alter_insert_eq {A} (f : A → A) (l : list A) i x :
  alter f i (<[i:=x]> l) = <[i:=f x]> l.
Proof.
  revert i. induction l as [|y l IH]; intros [|i]; csimpl; f_equal; auto.
Qed.

Ltac work_tac :=
  unfold with_work; simpl; unfold bot_step; simpl;
  rewrite list_lookup_insert_eq by done; simpl;
  unfold goto, update_bot, update_order; simpl;
  rewrite ?list_lookup_alter_eq, ?list_lookup_insert_eq by done; simpl;
  rewrite ?alter_insert_eq, ?list_insert_insert_eq; simpl;
  try reflexivity.

Section work.
Context (s : State) (o : addr) (b : baddr).
Hypothesis Ho : (o < length (heap s))%nat.
Hypothesis Hb : (b < length (threads s))%nat.

(** The statements of [Bot.run] on the order at [o], for a bot that is
    not stopped. *)
Lemma work_L30 ord id cur q now :
  step (BotStep b) (with_work s o ord b (Bot.mk id cur false L30) (o :: q) now) =
  Some (with_work s o ord b (Bot.mk id cur false (L32 o)) q now, [], None).
Proof. work_tac. Qed.

Lemma work_L32 ord id cur q now :
  step (BotStep b) (with_work s o ord b (Bot.mk id cur false (L32 o)) q now) =
  Some (with_work s o ord b (Bot.mk id (Some o) false (L33 o)) q now,
        [], None).
Proof. work_tac. Qed.

Lemma work_L33 ord id cur q now :
  step (BotStep b) (with_work s o ord b (Bot.mk id cur false (L33 o)) q now) =
  Some (with_work s o (Order.set_status PROCESSING ord) b
          (Bot.mk id cur false (L34 o)) q now, [], None).
Proof. work_tac. Qed.

Lemma work_L34 ord id cur q now :
  step (BotStep b) (with_work s o ord b (Bot.mk id cur false (L34 o)) q now) =
  Some (with_work s o (Order.set_start_time (Some now) ord) b
          (Bot.mk id cur false (L36 o)) q now,
        [BotStarted id (Order.str (Order.set_start_time (Some now) ord))],
        None).
Proof. work_tac. Qed.

Lemma work_L36 ord id cur q now :
  step (BotStep b) (with_work s o ord b (Bot.mk id cur false (L36 o)) q now) =
  Some (with_work s o ord b (Bot.mk id cur false (L37 o now)) q now,
        [], None).
Proof. work_tac. Qed.

Lemma work_L37_wait ord id cur q now t0 :
  now - t0 < processing_time →
  step (BotStep b)
    (with_work s o ord b (Bot.mk id cur false (L37 o t0)) q now) =
  Some (with_work s o ord b (Bot.mk id cur false (L38 o t0)) q now,
        [], None).
Proof.
  intros Hlt. work_tac. by rewrite (proj2 (Z.ltb_lt _ _) Hlt).
Qed.

Lemma work_L37_done ord id cur q now t0 :
  processing_time ≤ now - t0 →
  step (BotStep b)
    (with_work s o ord b (Bot.mk id cur false (L37 o t0)) q now) =
  Some (with_work s o ord b (Bot.mk id cur false (L45 o)) q now, [], None).
Proof.
  intros Hge. work_tac. by rewrite (proj2 (Z.ltb_ge _ _) Hge).
Qed.

Lemma work_L38 ord id cur q now t0 :
  step (BotStep b)
    (with_work s o ord b (Bot.mk id cur false (L38 o t0)) q now) =
  Some (with_work s o ord b (Bot.mk id cur false (L44 o t0)) q now,
        [], None).
Proof. work_tac. Qed.

Lemma work_L44 ord id cur q now t0 :
  step (BotStep b)
    (with_work s o ord b (Bot.mk id cur false (L44 o t0)) q now) =
  Some (with_work s o ord b
          (Bot.mk id cur false (L44_asleep o t0 (now + poll_interval)))
          q now, [], None).
Proof. work_tac. Qed.

Lemma work_L44_asleep ord id cur q now t0 wake :
  wake ≤ now →
  step (BotStep b)
    (with_work s o ord b (Bot.mk id cur false (L44_asleep o t0 wake)) q now) =
  Some (with_work s o ord b (Bot.mk id cur false (L37 o t0)) q now,
        [], None).
Proof.
  intros Hle. work_tac. by rewrite (proj2 (Z.leb_le _ _) Hle).
Qed.

Lemma work_L45 ord id cur q now :
  step (BotStep b) (with_work s o ord b (Bot.mk id cur false (L45 o)) q now) =
  Some (with_work s o (Order.set_status COMPLETE ord) b
          (Bot.mk id cur false (L46 o)) q now, [], None).
Proof. work_tac. Qed.

Lemma work_L46 ord id cur q now :
  step (BotStep b) (with_work s o ord b (Bot.mk id cur false (L46 o)) q now) =
  Some (with_work s o (Order.set_end_time (Some now) ord) b
          (Bot.mk id cur false L48) q now,
        [BotCompleted id (Order.str (Order.set_end_time (Some now) ord))],
        None).
Proof. work_tac. Qed.

Lemma work_L48 ord id cur q now :
  step (BotStep b) (with_work s o ord b (Bot.mk id cur false L48) q now) =
  Some (with_work s o ord b (Bot.mk id None false L29) q now, [], None).
Proof. work_tac. Qed.

Lemma work_tick ord bot q now d :
  0 ≤ d →
  step (Tick d) (with_work s o ord b bot q now) =
  Some (with_work s o ord b bot q (now + d), [], None).
Proof.
  intros Hd. simpl. by rewrite (proj2 (Z.leb_le _ _) Hd).
Qed.
End work.

Section work_runs.
Context (s : State) (o : addr) (b : baddr).
Hypothesis Ho : (o < length (heap s))%nat.
Hypothesis Hb : (b < length (threads s))%nat.

Local Ltac next H :=
  eapply run_cons; [apply H; try done|].

(** Lines 30 to 36: the bot takes the order and starts it. *)
Lemma work_start ord id cur q now :
  run (repeat (BotStep b) 5)
    (with_work s o ord b (Bot.mk id cur false L30) (o :: q) now) =
  Some (with_work s o
          (Order.set_start_time (Some now)
             (Order.set_status PROCESSING ord))
          b (Bot.mk id (Some o) false (L37 o now)) q now,
        [BotStarted id
           (Order.str (Order.set_start_time (Some now)
                         (Order.set_status PROCESSING ord)))]).
Proof.
  change (repeat (BotStep b) 5) with
    [BotStep b; BotStep b; BotStep b; BotStep b; BotStep b].
  match goal with |- _ = Some (_, ?out) =>
    change out with ([] ++ [] ++ [] ++ out ++ [] ++ []) end.
  next work_L30. next work_L32. next work_L33. next work_L34.
  next work_L36. done.
Qed.

(** One turn of the loop: a second passes. *)
Lemma work_poll ord id cur q now t0 :
  now - t0 < processing_time →
  run (poll b)
    (with_work s o ord b (Bot.mk id cur false (L37 o t0)) q now) =
  Some (with_work s o ord b (Bot.mk id cur false (L37 o t0)) q
          (now + poll_interval), []).
Proof.
  intros Hlt. unfold poll.
  change (@nil Msg) with (@nil Msg ++ [] ++ [] ++ [] ++ [] ++ []).
  next work_L37_wait. next work_L38. next work_L44.
  next work_tick. next work_L44_asleep. done.
Qed.

(** [k] turns: [k] seconds pass. *)
Lemma work_polls ord id cur q t0 k : ∀ now,
  now + (Z.of_nat k - 1) * poll_interval - t0 < processing_time →
  run (concat (repeat (poll b) k))
    (with_work s o ord b (Bot.mk id cur false (L37 o t0)) q now) =
  Some (with_work s o ord b (Bot.mk id cur false (L37 o t0)) q
          (now + Z.of_nat k * poll_interval), []).
Proof.
  unfold poll_interval.
  induction k as [|k IH]; intros now Hlt.
  - simpl. by rewrite Z.add_0_r.
  - cbn [repeat concat].
    change (@nil Msg) with (@nil Msg ++ []).
    eapply run_app_Some; [apply work_poll; unfold poll_interval; lia|].
    unfold poll_interval. rewrite IH by lia. do 3 f_equal. lia.
Qed.

(** Lines 37 and 45 to 48: the time is up and the order is complete. *)
Lemma work_end ord id cur q now t0 :
  processing_time ≤ now - t0 →
  run (repeat (BotStep b) 4)
    (with_work s o ord b (Bot.mk id cur false (L37 o t0)) q now) =
  Some (with_work s o
          (Order.set_end_time (Some now) (Order.set_status COMPLETE ord))
          b (Bot.mk id None false L29) q now,
        [BotCompleted id
           (Order.str (Order.set_end_time (Some now)
                         (Order.set_status COMPLETE ord)))]).
Proof.
  intros Hge.
  change (repeat (BotStep b) 4) with
    [BotStep b; BotStep b; BotStep b; BotStep b].
  match goal with |- _ = Some (_, ?out) =>
    change out with ([] ++ [] ++ out ++ [] ++ []) end.
  next work_L37_done. next work_L45. next work_L46. next work_L48. done.
Qed.

Lemma work_process ord id cur q now :
  run (process_schedule b)
    (with_work s o ord b (Bot.mk id cur false L30) (o :: q) now) =
  Some (with_work s o
          (Order.set_end_time (Some (now + processing_time))
             (Order.set_status COMPLETE
                (Order.set_start_time (Some now)
                   (Order.set_status PROCESSING ord))))
          b (Bot.mk id None false L29) q (now + processing_time),
        [BotStarted id (Order.order_number ord, upper (Order.type ord),
                        PROCESSING);
         BotCompleted id (Order.order_number ord, upper (Order.type ord),
                          COMPLETE)]).
Proof.
  unfold process_schedule.
  match goal with |- _ = Some (_, [?x; ?y]) =>
    change [x; y] with ([x] ++ [] ++ [y]) end.
  eapply run_app_Some; [apply work_start|].
  eapply run_app_Some.
  { apply (work_polls _ _ _ _ _ 10). unfold poll_interval, processing_time.
    lia. }
  change (now + Z.of_nat 10 * poll_interval) with (now + processing_time).
  apply work_end. lia.
Qed.
End work_runs.

(** X10. A bot completes the order it takes.  In a reachable state with
    the lock free, let the bot at [b] be at line 30, not stopped, and the
    order at [o] be the head of the queue.  Left to run, with the clock
    moving on by the second it sleeps each turn, the bot takes the order
    off the queue, marks it [PROCESSING] with the time of the clock as
    [start_time], polls ten times, marks it [COMPLETE] with an [end_time]
    exactly ten seconds after the start, prints that it started and that
    it completed it, clears [current_order] and is back at line 29.
    Nothing else changes: the other orders, the other bots, the rest of
    the queue, the pool and the counters are as before. *)
Theorem bot_completes_order s b bot o q :
  reachable s → order_lock s = false →
  threads s !! b = Some bot →
  Bot.pc bot = L30 → Bot.stop_event bot = false →
  pending_orders s = o :: q →
  ∃ ord,
    heap s !! o = Some ord ∧
    run (process_schedule b) s =
    Some (with_work s o
            (Order.mk (Order.order_number ord) (Order.type ord) COMPLETE
               (Order.creation_time ord) (Some (clock s))
               (Some (clock s + processing_time)))
            b (Bot.mk (Bot.bot_id bot) None false L29) q
            (clock s + processing_time),
          [BotStarted (Bot.bot_id bot)
             (Order.order_number ord, upper (Order.type ord), PROCESSING);
           BotCompleted (Bot.bot_id bot)
             (Order.order_number ord, upper (Order.type ord), COMPLETE)]).
Proof.
  intros Hr Hl Hb Hpc Hstop Hq.
  pose proof (Inv_reachable s Hr) as HI.
  destruct (inv_pending _ _ _ _ HI o) as (ord & Ho & _).
  { rewrite Hq. by left. }
  exists ord. split; [done|].
  transitivity (run (process_schedule b)
                  (with_work s o ord b bot (o :: q) (clock s))).
  { by rewrite <-Hq, with_work_id. }
  destruct bot as [id cur stop pc]. cbn [Bot.pc Bot.stop_event] in Hpc, Hstop.
  subst pc stop.
  rewrite work_process; [done|by eapply lookup_lt_Some..].
Qed.

(** ** The progress bar *)

(** *** Python floats *)

(** A Python float is an IEEE 754 binary64 number: 53 bits of mantissa,
    exponents below 1024, operations rounded to nearest, ties to even. *)
Definition prec64 : Z := 53.
Definition emax64 : Z := 1024.
Definition emin64 : Z := emin prec64 emax64.

Definition inexact (mrs : shr_record) : bool := shr_r mrs || shr_s mrs.

Lemma digits2_pos_size p : digits2_pos p = Pos.size p.
Proof. induction p as [p IH|p IH|]; simpl; by rewrite ?IH. Qed.

Lemma Zdigits2_bounds m :
  0 < m → 2 ^ (Zdigits2 m - 1) ≤ m < 2 ^ Zdigits2 m.
Proof.
  destruct m as [|p|p]; try done. intros _. simpl.
  rewrite digits2_pos_size. split.
  - pose proof (Pos.size_le p) as Hle.
    apply Pos2Z.pos_le_pos in Hle. rewrite Pos2Z.inj_pow in Hle.
    replace (Z.pos (Pos.size p)) with (Z.succ (Z.pos (Pos.size p) - 1))
      in Hle by lia.
    rewrite Z.pow_succ_r in Hle by lia. lia.
  - pose proof (Pos.size_gt p) as Hgt.
    apply Pos2Z.pos_lt_pos in Hgt. by rewrite Pos2Z.inj_pow in Hgt.
Qed.

Lemma Zdigits2_nonneg m : 0 ≤ Zdigits2 m.
Proof. by destruct m. Qed.

Lemma iter_pos_nat {A} (f : A → A) p x :
  iter_pos f p x = Nat.iter (Pos.to_nat p) f x.
Proof.
  assert (∀ n m y, Nat.iter (n + m) f y = Nat.iter n f (Nat.iter m f y))
    as Hadd.
  { intros n m y. induction n as [|n IH]; simpl; by rewrite ?IH. }
  revert x. induction p as [p IH|p IH|]; intros x; cbn [iter_pos]; [| |done].
  - rewrite !IH.
    replace (Pos.to_nat p~1) with (Pos.to_nat p + (Pos.to_nat p + 1))%nat
      by lia.
    rewrite !Hadd. done.
  - rewrite !IH.
    replace (Pos.to_nat p~0) with (Pos.to_nat p + Pos.to_nat p)%nat by lia.
    by rewrite Hadd.
Qed.

Lemma shr_1_spec mrs :
  0 ≤ shr_m mrs →
  shr_m (shr_1 mrs) = shr_m mrs / 2 ∧
  inexact (shr_1 mrs) = inexact mrs || Z.odd (shr_m mrs).
Proof.
  destruct mrs as [m r s]. unfold inexact.
  cbn [shr_1 shr_m shr_r shr_s]. intros Hm.
  destruct m as [|[p|p|]|p]; try lia; cbn [shr_m shr_r shr_s].
  - split; [done|]. by destruct r, s.
  - split; [|by destruct r, s].
    apply (Z.div_unique (Z.pos p~1) 2 (Z.pos p) 1); lia.
  - split; [|by destruct r, s].
    apply (Z.div_unique (Z.pos p~0) 2 (Z.pos p) 0); lia.
  - split; [done|]. by destruct r, s.
Qed.

Lemma shr_iter_spec k : ∀ mrs,
  0 ≤ shr_m mrs →
  shr_m (Nat.iter k shr_1 mrs) = shr_m mrs / 2 ^ Z.of_nat k ∧
  (inexact (Nat.iter k shr_1 mrs) = false ↔
   inexact mrs = false ∧ shr_m mrs mod 2 ^ Z.of_nat k = 0).
Proof.
  induction k as [|k IH]; intros mrs Hm.
  - simpl. rewrite Z.div_1_r, Z.mod_1_r. naive_solver.
  - destruct (IH mrs Hm) as [IHm IHi].
    assert (0 ≤ shr_m (Nat.iter k shr_1 mrs)) as Hk.
    { rewrite IHm. apply Z.div_pos; [done|]. apply Z.pow_pos_nonneg; lia. }
    destruct (shr_1_spec _ Hk) as [Hm1 Hi1].
    rewrite Nat.iter_succ, Hm1, Hi1, IHm.
    rewrite Nat2Z.inj_succ, Z.pow_succ_r by lia.
    assert (0 < 2 ^ Z.of_nat k) as Hpow by (apply Z.pow_pos_nonneg; lia).
    split.
    { rewrite Z.div_div by lia. f_equal. lia. }
    rewrite orb_false_iff, IHi, <-Z.negb_even, negb_false_iff.
    rewrite Z.even_spec.
    set (m := shr_m mrs) in *. set (p := 2 ^ Z.of_nat k) in *.
    pose proof (Z.div_mod m p ltac:(lia)) as Hdm.
    pose proof (Z.mod_pos_bound m p ltac:(lia)) as Hmb.
    split.
    + intros [[Hin Hmod] [c Hc]]. split; [done|].
      rewrite (Z.mul_comm 2 p), Z.rem_mul_r by lia.
      rewrite Hmod, Hc, (Z.mul_comm 2 c), Z_mod_mult. lia.
    + intros [Hin Hmod].
      assert (m mod p = 0) as Hmp.
      { rewrite (Z.mul_comm 2 p), Z.rem_mul_r in Hmod by lia.
        pose proof (Z.mod_pos_bound (m / p) 2 ltac:(lia)). nia. }
      split; [done|].
      rewrite (Z.mul_comm 2 p), Z.rem_mul_r in Hmod by lia.
      exists (m / p / 2).
      pose proof (Z.div_mod (m / p) 2 ltac:(lia)).
      pose proof (Z.mod_pos_bound (m / p) 2 ltac:(lia)). nia.
Qed.

Lemma shr_spec mrs e n :
  0 ≤ shr_m mrs →
  shr_m (shr mrs e n).1 = shr_m mrs / 2 ^ Z.max 0 n ∧
  (shr mrs e n).2 = e + Z.max 0 n ∧
  (inexact (shr mrs e n).1 = false ↔
   inexact mrs = false ∧ shr_m mrs mod 2 ^ Z.max 0 n = 0).
Proof.
  intros Hm. destruct n as [|p|p]; cbn [shr fst snd].
  - rewrite Z.max_id. simpl. rewrite Z.div_1_r, Z.mod_1_r, Z.add_0_r.
    naive_solver.
  - rewrite Z.max_r by lia. rewrite iter_pos_nat.
    destruct (shr_iter_spec (Pos.to_nat p) mrs Hm) as [H1 H2].
    rewrite positive_nat_Z in H1, H2. done.
  - rewrite Z.max_l by lia. simpl. rewrite Z.div_1_r, Z.mod_1_r, Z.add_0_r.
    naive_solver.
Qed.

Lemma shr_record_of_loc_spec m l :
  shr_m (shr_record_of_loc m l) = m ∧
  (inexact (shr_record_of_loc m l) = false ↔ l = loc_Exact).
Proof. by destruct l as [|[]]. Qed.

Lemma round_nearest_even_spec mrs :
  shr_m mrs ≤ round_nearest_even (shr_m mrs) (loc_of_shr_record mrs)
            ≤ shr_m mrs + 1 ∧
  (inexact mrs = false →
   round_nearest_even (shr_m mrs) (loc_of_shr_record mrs) = shr_m mrs).
Proof.
  destruct mrs as [m [] []]; unfold inexact; simpl;
    try destruct (Z.even m); split; (lia || done).
Qed.

Lemma fexp_ge e : emin64 ≤ fexp prec64 emax64 e ∧ e - prec64 ≤ fexp prec64 emax64 e.
Proof. unfold fexp. fold emin64. lia. Qed.

Lemma fexp_le e E :
  emin64 ≤ E → e - prec64 ≤ E → fexp prec64 emax64 e ≤ E.
Proof. unfold fexp. fold emin64. lia. Qed.

Lemma fexp_mono a b :
  a ≤ b → fexp prec64 emax64 a ≤ fexp prec64 emax64 b.
Proof. unfold fexp. lia. Qed.

(** What the rounding of [binary_round_aux] does to the quotient [a / b],
    given as its whole part [mz], the exponent [ez], and whether it is
    exact: [n] more bits are dropped, the result has exponent [E] or
    [E + 1] and fewer than [2 ^ 53] in the mantissa, and it does not cross
    a multiple [K] of [2 ^ E] that the quotient does not cross. *)
Lemma binary_round_aux_spec a b mz ez lz :
  0 ≤ a → 0 < b → mz = a / b → (lz = loc_Exact ↔ a mod b = 0) →
  let n := Z.max 0 (fexp prec64 emax64 (Zdigits2 mz + ez) - ez) in
  let E := ez + n in
  emin64 ≤ E ∧
  match binary_round_aux prec64 emax64 false mz ez lz with
  | S754_zero false => a < b * 2 ^ n
  | S754_finite false m e =>
      Z.pos m < 2 ^ prec64 ∧ E ≤ e ≤ E + 1 ∧ e ≤ emax64 - prec64 ∧
      (∀ K, a ≤ K * b * 2 ^ n → Z.pos m * 2 ^ (e - E) ≤ K) ∧
      (∀ K, K * b * 2 ^ n ≤ a → K ≤ Z.pos m * 2 ^ (e - E))
  | S754_infinity false => emax64 - prec64 < E + 1
  | _ => False
  end.
Proof.
  intros Ha Hb Hmz Hlz n E.
  assert (0 ≤ mz) as Hmz0 by (subst mz; apply Z.div_pos; lia).
  assert (emin64 ≤ E) as HE.
  { unfold E, n. pose proof (fexp_ge (Zdigits2 mz + ez)). lia. }
  split; [exact HE|].
  assert (0 < 2 ^ n) as Hn by (apply Z.pow_pos_nonneg; lia).
  assert (0 < 2 ^ prec64) as Hp53 by done.
  unfold binary_round_aux, shr_fexp.
  destruct (shr_record_of_loc_spec mz lz) as [Hm0 Hi0].
  pose proof (shr_spec (shr_record_of_loc mz lz) ez
                (fexp prec64 emax64 (Zdigits2 mz + ez) - ez)) as Hs1.
  rewrite Hm0 in Hs1. specialize (Hs1 Hmz0). fold n in Hs1.
  destruct (shr _ ez _) as [mrs1 e1]. cbn [fst snd] in Hs1.
  destruct Hs1 as (Hm1 & -> & Hi1). fold E.
  rewrite Hi0 in Hi1.
  (* the first rounding *)
  pose proof (round_nearest_even_spec mrs1) as [Hr Hrx].
  set (m2 := round_nearest_even (shr_m mrs1) (loc_of_shr_record mrs1)) in *.
  assert (shr_m mrs1 = a / (b * 2 ^ n)) as Hm1'.
  { rewrite Hm1, Hmz. rewrite Z.div_div by lia. done. }
  assert (0 ≤ shr_m mrs1) as Hm1pos.
  { rewrite Hm1'. apply Z.div_pos; nia. }
  assert (shr_m mrs1 < 2 ^ prec64) as Hm1lt.
  { rewrite Hm1. destruct (decide (mz = 0)) as [->|Hne].
    { rewrite Z.div_0_l by lia. done. }
    destruct (Zdigits2_bounds mz) as [_ Hd]; [lia|].
    apply Z.div_lt_upper_bound; [done|].
    eapply Z.lt_le_trans; [exact Hd|].
    rewrite <-Z.pow_add_r by (unfold prec64; lia).
    apply Z.pow_le_mono_r; [lia|].
    unfold n. pose proof (fexp_ge (Zdigits2 mz + ez)). lia. }
  assert (∀ K, a ≤ K * b * 2 ^ n → m2 ≤ K) as Hup.
  { intros K HK.
    assert (shr_m mrs1 ≤ K) as Hle.
    { rewrite Hm1'. apply Z.div_le_upper_bound; nia. }
    destruct (decide (shr_m mrs1 = K)) as [Heq|Hne]; [|lia].
    rewrite Hrx; [lia|]. apply Hi1.
    assert (a = K * (b * 2 ^ n)) as HaK.
    { pose proof (Z.mul_div_le a (b * 2 ^ n) ltac:(nia)).
      rewrite <-Hm1', Heq in H. nia. }
    split.
    - apply Hlz. rewrite HaK.
      replace (K * (b * 2 ^ n)) with (K * 2 ^ n * b) by lia.
      apply Z_mod_mult.
    - rewrite Hmz, HaK.
      replace (K * (b * 2 ^ n)) with (K * 2 ^ n * b) by lia.
      rewrite Z.div_mul by lia. apply Z_mod_mult. }
  assert (∀ K, K * b * 2 ^ n ≤ a → K ≤ m2) as Hlow.
  { intros K HK.
    assert (K ≤ shr_m mrs1); [|lia].
    rewrite Hm1'. apply Z.div_le_lower_bound; nia. }
  (* the second rounding: the mantissa may have reached [2 ^ 53] *)
  destruct (shr_record_of_loc_spec m2 loc_Exact) as [Hm2 _].
  pose proof (shr_spec (shr_record_of_loc m2 loc_Exact) E
                (fexp prec64 emax64 (Zdigits2 m2 + E) - E)) as Hs2.
  rewrite Hm2 in Hs2. specialize (Hs2 ltac:(lia)).
  destruct (shr _ E _) as [mrs2 e2]. cbn [fst snd] in Hs2.
  destruct Hs2 as (Hm3 & -> & _).
  set (n2 := Z.max 0 (fexp prec64 emax64 (Zdigits2 m2 + E) - E)) in *.
  assert (shr_m mrs2 * 2 ^ n2 = m2 ∧ 0 ≤ n2 ≤ 1 ∧ shr_m mrs2 < 2 ^ prec64)
    as (Hval & Hn2 & Hm3lt).
  { destruct (decide (m2 = 0)) as [Hz|Hnz].
    { rewrite Hm3, Hz. rewrite Z.div_0_l by (apply Z.pow_nonzero; lia).
      split; [lia|]. split; [|done].
      unfold n2. rewrite Hz. simpl Zdigits2.
      pose proof (fexp_le (0 + E) E HE ltac:(unfold prec64; lia)). lia. }
    destruct (Zdigits2_bounds m2) as [Hd1 Hd2]; [lia|].
    destruct (decide (m2 < 2 ^ prec64)) as [Hlt|Hge].
    - assert (Zdigits2 m2 ≤ prec64) as Hd.
      { apply Z.nlt_ge. intros Hgt.
        assert (2 ^ prec64 ≤ 2 ^ (Zdigits2 m2 - 1)); [|lia].
        apply Z.pow_le_mono_r; lia. }
      assert (n2 = 0) as Hn20.
      { unfold n2. pose proof (fexp_le (Zdigits2 m2 + E) E HE ltac:(lia)).
        lia. }
      rewrite Hm3, Hn20. simpl. rewrite Z.div_1_r. lia.
    - assert (m2 = 2 ^ prec64) as Hm2eq by lia.
      assert (Zdigits2 m2 = prec64 + 1) as Hd.
      { apply Z.le_antisymm.
        - apply Z.nlt_ge. intros Hgt.
          assert (2 ^ (prec64 + 1) ≤ 2 ^ (Zdigits2 m2 - 1)).
          { apply Z.pow_le_mono_r; lia. }
          rewrite Z.pow_add_r in H by done.
          change (2 ^ 1) with 2 in H. lia.
        - apply Z.nlt_ge. intros Hlt'.
          assert (2 ^ Zdigits2 m2 ≤ 2 ^ prec64); [|lia].
          apply Z.pow_le_mono_r; lia. }
      assert (n2 = 1) as Hn21.
      { unfold n2. rewrite Hd. unfold fexp. fold emin64. unfold prec64. lia. }
      rewrite Hm3, Hn21, Hm2eq. unfold prec64. simpl. done. }
  destruct (shr_m mrs2) as [|m3|m3] eqn:Hm3eq.
  - (* zero *)
    assert (m2 = 0) as Hz by lia.
    assert (shr_m mrs1 = 0) as Hz1 by lia.
    rewrite Hm1' in Hz1.
    apply Z.div_small_iff in Hz1; [|nia]. lia.
  - destruct (E + n2 <=? emax64 - prec64) eqn:Hov.
    + apply Z.leb_le in Hov.
      split; [done|]. split; [lia|]. split; [done|].
      replace (E + n2 - E) with n2 by lia. rewrite Hval. done.
    + apply Z.leb_gt in Hov. lia.
  - pose proof (Z.pow_pos_nonneg 2 n2 eq_refl ltac:(lia)). lia.
Qed.

(** The value of a finite float that is not negative, in units of
    [2 ^ emin64], the smallest positive float: a whole number. *)
Definition units (x : spec_float) : Z :=
  match x with
  | S754_finite false m e => Z.pos m * 2 ^ (e - emin64)
  | _ => 0
  end.

(** Zero or positive, finite, as the operations make them. *)
Definition regular (x : spec_float) : Prop :=
  match x with
  | S754_zero false => True
  | S754_finite false m e => Z.pos m < 2 ^ prec64 ∧ emin64 ≤ e
  | _ => False
  end.

(** The mantissa is as long as the exponent allows, up to one rounding
    step, unless the exponent is at the bottom: a finite float with
    exponent [e] is then at least [2 ^ (e + 51)]. *)
Definition tight (x : spec_float) : Prop :=
  match x with
  | S754_finite false m e =>
      e ≤ emin64 + 1 ∨ 2 ^ (e + 51 - emin64) ≤ Z.pos m * 2 ^ (e - emin64)
  | _ => True
  end.

(** Positive, finite, exponent not below [emin64]: a divisor. *)
Definition positive_float (x : spec_float) : Prop :=
  match x with
  | S754_finite false m e => emin64 ≤ e
  | _ => False
  end.

Lemma pow2_pos e : 0 < 2 ^ e ∨ e < 0.
Proof. destruct (decide (0 ≤ e)); [left; by apply Z.pow_pos_nonneg|lia]. Qed.

Lemma pow2_le_cancel x y p q t :
  0 ≤ p → 0 ≤ q → 0 ≤ p + t → 0 ≤ q + t →
  (x * 2 ^ (p + t) ≤ y * 2 ^ (q + t) ↔ x * 2 ^ p ≤ y * 2 ^ q).
Proof.
  intros Hp Hq Hpt Hqt.
  destruct (decide (0 ≤ t)) as [Ht|Ht].
  - rewrite !Z.pow_add_r by lia.
    assert (0 < 2 ^ t) as HT by (apply Z.pow_pos_nonneg; lia).
    rewrite !Z.mul_assoc. symmetry. by apply Z.mul_le_mono_pos_r.
  - assert (2 ^ p = 2 ^ (p + t) * 2 ^ (- t)) as ->
      by (rewrite <-Z.pow_add_r by lia; f_equal; lia).
    assert (2 ^ q = 2 ^ (q + t) * 2 ^ (- t)) as ->
      by (rewrite <-Z.pow_add_r by lia; f_equal; lia).
    assert (0 < 2 ^ (- t)) as HT by (apply Z.pow_pos_nonneg; lia).
    rewrite !Z.mul_assoc. by apply Z.mul_le_mono_pos_r.
Qed.

Lemma pow2_lt_cancel x y p q t :
  0 ≤ p → 0 ≤ q → 0 ≤ p + t → 0 ≤ q + t →
  (x * 2 ^ (p + t) < y * 2 ^ (q + t) ↔ x * 2 ^ p < y * 2 ^ q).
Proof.
  intros Hp Hq Hpt Hqt.
  destruct (decide (0 ≤ t)) as [Ht|Ht].
  - rewrite !Z.pow_add_r by lia.
    assert (0 < 2 ^ t) as HT by (apply Z.pow_pos_nonneg; lia).
    rewrite !Z.mul_assoc. symmetry. by apply Z.mul_lt_mono_pos_r.
  - assert (2 ^ p = 2 ^ (p + t) * 2 ^ (- t)) as ->
      by (rewrite <-Z.pow_add_r by lia; f_equal; lia).
    assert (2 ^ q = 2 ^ (q + t) * 2 ^ (- t)) as ->
      by (rewrite <-Z.pow_add_r by lia; f_equal; lia).
    assert (0 < 2 ^ (- t)) as HT by (apply Z.pow_pos_nonneg; lia).
    rewrite !Z.mul_assoc. by apply Z.mul_lt_mono_pos_r.
Qed.

(** If [x * 2 ^ p < 2 ^ q] with [x] positive, the digits of [x] are at
    most [q - p]. *)
Lemma Zdigits2_le x p q :
  0 < x → 0 ≤ p → x * 2 ^ p < 2 ^ q → Zdigits2 x + p ≤ q.
Proof.
  intros Hx Hp Hlt.
  destruct (Zdigits2_bounds x Hx) as [Hd _].
  assert (1 ≤ Zdigits2 x) as Hd0 by (destruct x; simpl; lia).
  apply Z.nlt_ge. intros Hgt.
  assert (0 < 2 ^ p) as HP by (apply Z.pow_pos_nonneg; lia).
  assert (0 ≤ q) as Hq.
  { destruct (decide (0 ≤ q)) as [|Hn]; [done|].
    rewrite (Z.pow_neg_r 2 q) in Hlt by lia.
    pose proof (Z.mul_pos_pos _ _ Hx HP). lia. }
  assert (2 ^ q ≤ 2 ^ (Zdigits2 x - 1 + p)) as Hpow.
  { apply Z.pow_le_mono_r; lia. }
  rewrite Z.pow_add_r in Hpow by lia.
  pose proof (Z.mul_le_mono_nonneg_r _ _ (2 ^ p) ltac:(lia) Hd). lia.
Qed.

(** The digits of a quotient. *)
Lemma Zdigits2_div m1 m2 s :
  0 < m1 → 0 < m2 → 0 ≤ s →
  Zdigits2 m1 + s - Zdigits2 m2 ≤ Zdigits2 (m1 * 2 ^ s / m2).
Proof.
  intros H1 H2 Hs. set (q := m1 * 2 ^ s / m2).
  destruct (Zdigits2_bounds m1 H1) as [Hd1 _].
  destruct (Zdigits2_bounds m2 H2) as [_ Hd2].
  assert (1 ≤ Zdigits2 m1) by (destruct m1; simpl; lia).
  assert (1 ≤ Zdigits2 m2) by (destruct m2; simpl; lia).
  assert (0 < 2 ^ s) as Hps by (apply Z.pow_pos_nonneg; lia).
  assert (0 ≤ q) as Hq0 by (apply Z.div_pos; [|done]; lia).
  assert (0 ≤ Zdigits2 q ∧ q < 2 ^ Zdigits2 q) as [Hdq0 Hdq].
  { destruct (decide (q = 0)) as [->|Hn]; [done|].
    destruct (Zdigits2_bounds q) as [_ ?]; [lia|].
    split; [|done]. destruct q; simpl; lia. }
  apply Z.nlt_ge. intros Hlt.
  assert (2 ^ Zdigits2 q ≤ 2 ^ (Zdigits2 m1 + s - Zdigits2 m2 - 1)) as Hpow
    by (apply Z.pow_le_mono_r; lia).
  assert (m1 * 2 ^ s < m2 * (q + 1)) as Hup.
  { pose proof (Z.mod_pos_bound (m1 * 2 ^ s) m2 H2) as Hmod.
    pose proof (Z.div_mod (m1 * 2 ^ s) m2 ltac:(lia)) as Hdm.
    fold q in Hdm. lia. }
  assert (m2 * (q + 1) ≤ m2 * 2 ^ (Zdigits2 m1 + s - Zdigits2 m2 - 1))
    by (apply Z.mul_le_mono_nonneg_l; lia).
  assert (m2 * 2 ^ (Zdigits2 m1 + s - Zdigits2 m2 - 1) <
          2 ^ Zdigits2 m2 * 2 ^ (Zdigits2 m1 + s - Zdigits2 m2 - 1))
    by (apply Z.mul_lt_mono_pos_r; [apply Z.pow_pos_nonneg; lia|done]).
  assert (2 ^ Zdigits2 m2 * 2 ^ (Zdigits2 m1 + s - Zdigits2 m2 - 1) =
          2 ^ (Zdigits2 m1 - 1) * 2 ^ s) as Heq.
  { rewrite <-!Z.pow_add_r by lia. f_equal. lia. }
  assert (2 ^ (Zdigits2 m1 - 1) * 2 ^ s ≤ m1 * 2 ^ s)
    by (apply Z.mul_le_mono_nonneg_r; lia).
  lia.
Qed.

(** Zero or positive, finite, the exponent not below [emin64]; the
    mantissa may be long (an integer as it is). *)
Definition nonneg_float (x : spec_float) : Prop :=
  match x with
  | S754_zero false => True
  | S754_finite false m e => emin64 ≤ e
  | _ => False
  end.

(** The float 1.0 in units. *)
Definition one_units : Z := 2 ^ (- emin64).

Lemma emin64_eq : emin64 = -1074.
Proof. reflexivity. Qed.

Lemma new_location_exact nb k : new_location nb k = loc_Exact ↔ k = 0.
Proof.
  unfold new_location, new_location_even, new_location_odd.
  destruct (Z.even nb), (k =? 0) eqn:Hk; split; try done;
    try (intros _; by apply Z.eqb_eq); intros ->; done.
Qed.

Lemma units_finite m e E K :
  emin64 ≤ E → E ≤ e →
  (Z.pos m * 2 ^ (e - E) ≤ K → Z.pos m * 2 ^ (e - emin64) ≤ K * 2 ^ (E - emin64)) ∧
  (K ≤ Z.pos m * 2 ^ (e - E) → K * 2 ^ (E - emin64) ≤ Z.pos m * 2 ^ (e - emin64)).
Proof.
  intros HE He.
  replace (e - emin64) with ((e - E) + (E - emin64)) by lia.
  rewrite Z.pow_add_r by lia.
  assert (0 < 2 ^ (E - emin64)) by (apply Z.pow_pos_nonneg; lia).
  rewrite Z.mul_assoc. split; intros; by apply Z.mul_le_mono_nonneg_r; [lia|].
Qed.

(** Division, rounded: the quotient of [x] by [y] does not cross a float
    that the exact quotient does not cross.  [Eb] bounds the exponent of
    the result from above, [B] is a multiple of [2 ^ Eb]. *)
Lemma SFdiv_spec x y Eb :
  nonneg_float x → positive_float y →
  emin64 ≤ Eb → Eb + 1 ≤ emax64 - prec64 →
  units x * one_units < 2 ^ (Eb + 52 - emin64) * units y →
  regular (SFdiv prec64 emax64 x y) ∧
  (∀ B, (2 ^ (Eb - emin64) | B) →
        units x * one_units ≤ B * units y →
        units (SFdiv prec64 emax64 x y) ≤ B) ∧
  (∀ B, (2 ^ (Eb - emin64) | B) →
        B * units y ≤ units x * one_units →
        B ≤ units (SFdiv prec64 emax64 x y)) ∧
  tight (SFdiv prec64 emax64 x y).
Proof.
  intros Hx Hy HEb1 HEb2 Hmag.
  destruct y as [| | |[] m2 e2]; try done. simpl in Hy.
  assert (0 < units (S754_finite false m2 e2)) as Hy0.
  { simpl. apply Z.mul_pos_pos; [done|]. apply Z.pow_pos_nonneg; lia. }
  destruct x as [[]| | |[] m1 e1]; try done.
  { (* zero *)
    cbn [SFdiv xorb units regular tight]. split; [done|].
    split; [|split; [|done]]; intros B _ HB.
    - change (0 * one_units) with 0 in HB. nia.
    - change (0 * one_units) with 0 in HB. nia. }
  simpl in Hx.
  cbn [SFdiv xorb]. unfold SFdiv_core_binary.
  set (d1 := Zdigits2 (Z.pos m1)). set (d2 := Zdigits2 (Z.pos m2)).
  set (e' := Z.min (fexp prec64 emax64 (d1 + e1 - (d2 + e2))) (e1 - e2)).
  set (s := e1 - e2 - e').
  assert (0 ≤ s) as Hs by (unfold s, e'; lia).
  set (m' := match s with
             | 0 => Z.pos m1
             | Z.pos _ => Z.shiftl (Z.pos m1) s
             | Z.neg _ => 0
             end).
  assert (m' = Z.pos m1 * 2 ^ s) as Hm'.
  { unfold m'. destruct s eqn:Hseq; [simpl; lia| |lia].
    by rewrite Z.shiftl_mul_pow2. }
  clearbody m'.
  destruct (Z.div_eucl m' (Z.pos m2)) as [q r] eqn:Hdiv.
  assert (q = m' / Z.pos m2) as Hq by (unfold Z.div; by rewrite Hdiv).
  assert (r = m' mod Z.pos m2) as Hr by (unfold Z.modulo; by rewrite Hdiv).
  assert (0 < 2 ^ s) as Hps by (apply Z.pow_pos_nonneg; lia).
  destruct (binary_round_aux_spec m' (Z.pos m2) q e'
              (new_location (Z.pos m2) r)) as [HE Hres];
    [nia|done|done|by rewrite new_location_exact, Hr|].
  set (n := Z.max 0 (fexp prec64 emax64 (Zdigits2 q + e') - e')) in *.
  set (E := e' + n) in *.
  pose proof emin64_eq as Hemin.
  (* the magnitude *)
  set (t := e' + e2 - 2 * emin64).
  cbn [units] in Hmag. unfold one_units in Hmag.
  assert (Z.pos m1 * 2 ^ (e1 - 2 * emin64) <
          Z.pos m2 * 2 ^ (Eb + 52 + e2 - 2 * emin64)) as Hmag'.
  { replace (e1 - 2 * emin64) with ((e1 - emin64) + (- emin64)) by lia.
    replace (Eb + 52 + e2 - 2 * emin64)
      with ((Eb + 52 - emin64) + (e2 - emin64)) by lia.
    rewrite !Z.pow_add_r by lia. lia. }
  assert (d1 + e1 - (d2 + e2) ≤ Eb + 52) as Hdd.
  { destruct (Zdigits2_bounds (Z.pos m1)) as [Hd1 _]; [done|].
    destruct (Zdigits2_bounds (Z.pos m2)) as [_ Hd2]; [done|].
    fold d1 in Hd1. fold d2 in Hd2.
    assert (1 ≤ d1) by (unfold d1; simpl; lia).
    assert (1 ≤ d2) by (unfold d2; simpl; lia).
    assert (2 ^ (d1 - 1 + (e1 - 2 * emin64)) <
            2 ^ (d2 + (Eb + 52 + e2 - 2 * emin64))) as Hpow.
    { rewrite !Z.pow_add_r by lia.
      assert (0 < 2 ^ (e1 - 2 * emin64)) by (apply Z.pow_pos_nonneg; lia).
      assert (0 < 2 ^ (Eb + 52 + e2 - 2 * emin64))
        by (apply Z.pow_pos_nonneg; lia).
      nia. }
    apply Z.pow_lt_mono_r_iff in Hpow; lia. }
  assert (e' ≤ Eb) as He'.
  { unfold e'. pose proof (fexp_le (d1 + e1 - (d2 + e2)) Eb HEb1).
    unfold prec64 in *. lia. }
  assert (m' < Z.pos m2 * 2 ^ (Eb + 52 - e')) as Hlt.
  { rewrite Hm'.
    apply (pow2_lt_cancel (Z.pos m1) (Z.pos m2) s (Eb + 52 - e') t);
      [lia|lia|unfold s, t; lia|unfold t; lia|].
    replace (s + t) with (e1 - 2 * emin64) by (unfold s, t; lia).
    replace (Eb + 52 - e' + t) with (Eb + 52 + e2 - 2 * emin64)
      by (unfold t; lia).
    done. }
  assert (E ≤ Eb) as HEle.
  { unfold E, n.
    assert (fexp prec64 emax64 (Zdigits2 q + e') ≤ Eb); [|lia].
    apply fexp_le; [done|].
    destruct (decide (q = 0)) as [->|Hq0]; [simpl; unfold prec64; lia|].
    assert (0 < q).
    { assert (0 ≤ q); [|lia]. rewrite Hq. apply Z.div_pos; lia. }
    assert (q < 2 ^ (Eb + 52 - e')) as Hqlt.
    { rewrite Hq. apply Z.div_lt_upper_bound; [done|]. lia. }
    pose proof (Zdigits2_le q 0 (Eb + 52 - e') ltac:(done) ltac:(done)) as Hd.
    rewrite Z.pow_0_r, Z.mul_1_r in Hd. specialize (Hd Hqlt).
    unfold prec64. lia. }
  (* the digits of the quotient *)
  assert (E ≤ emin64 ∨ 2 ^ 52 * Z.pos m2 * 2 ^ n ≤ m') as Hdigits.
  { pose proof (Zdigits2_div (Z.pos m1) (Z.pos m2) s) as Hdq.
    rewrite <-Hm', <-Hq in Hdq. fold d1 d2 in Hdq.
    specialize (Hdq ltac:(done) ltac:(done) Hs).
    assert (e' ≤ fexp prec64 emax64 (Zdigits2 q + e')) as Hfe.
    { assert (fexp prec64 emax64 (d1 + e1 - (d2 + e2)) ≤
              fexp prec64 emax64 (Zdigits2 q + e'))
        by (apply fexp_mono; unfold s in Hdq; lia).
      etrans; [apply Z.le_min_l|done]. }
    destruct (decide (E ≤ emin64)) as [|HnE]; [by left|right].
    assert (E = Zdigits2 q + e' - 53) as HEeq.
    { pose proof (eq_refl : fexp prec64 emax64 (Zdigits2 q + e') =
                            Z.max (Zdigits2 q + e' - 53) emin64) as Hfx.
      unfold E, n in HnE |- *. lia. }
    assert (0 ≤ n) as Hn0 by (unfold n; lia).
    assert (Zdigits2 q - 1 = 52 + n) as Hdn by (unfold E in HEeq; lia).
    assert (0 < q) as Hqpos.
    { assert (0 ≤ q) by (rewrite Hq; apply Z.div_pos; lia).
      destruct (decide (q = 0)) as [Hq0|]; [|lia].
      rewrite Hq0 in Hdn. simpl in Hdn. lia. }
    destruct (Zdigits2_bounds q Hqpos) as [Hlow _].
    rewrite Hdn, Z.pow_add_r in Hlow by lia.
    assert (Z.pos m2 * q ≤ m') as Hmq
      by (rewrite Hq; apply Z.mul_div_le; lia).
    assert (Z.pos m2 * (2 ^ 52 * 2 ^ n) ≤ Z.pos m2 * q)
      by (apply Z.mul_le_mono_nonneg_l; lia).
    lia. }
  (* bounds in units *)
  assert (∀ B, (2 ^ (Eb - emin64) | B) →
            ∃ K, B = K * 2 ^ (E - emin64) ∧
                 (Z.pos m1 * 2 ^ (e1 - emin64) * 2 ^ (- emin64) ≤
                  B * (Z.pos m2 * 2 ^ (e2 - emin64)) ↔
                  m' ≤ K * Z.pos m2 * 2 ^ n) ∧
                 (B * (Z.pos m2 * 2 ^ (e2 - emin64)) ≤
                  Z.pos m1 * 2 ^ (e1 - emin64) * 2 ^ (- emin64) ↔
                  K * Z.pos m2 * 2 ^ n ≤ m')) as HB.
  { intros B [c ->]. exists (c * 2 ^ (Eb - E)).
    assert (c * 2 ^ (Eb - emin64) = c * 2 ^ (Eb - E) * 2 ^ (E - emin64))
      as HcE.
    { replace (Eb - emin64) with ((Eb - E) + (E - emin64)) by lia.
      rewrite Z.pow_add_r by lia. lia. }
    split; [done|]. rewrite HcE.
    set (K := c * 2 ^ (Eb - E)).
    assert (Z.pos m1 * 2 ^ (e1 - emin64) * 2 ^ (- emin64) =
            Z.pos m1 * 2 ^ (s + t)) as ->.
    { replace (s + t) with ((e1 - emin64) + (- emin64))
        by (unfold s, t; lia).
      rewrite Z.pow_add_r by lia. lia. }
    assert (K * 2 ^ (E - emin64) * (Z.pos m2 * 2 ^ (e2 - emin64)) =
            (K * Z.pos m2) * 2 ^ (n + t)) as ->.
    { replace (n + t) with ((E - emin64) + (e2 - emin64))
        by (unfold E, t; lia).
      rewrite Z.pow_add_r by lia. lia. }
    rewrite Hm'.
    split; [apply pow2_le_cancel|symmetry]; try (unfold s, t, n, E in *; lia).
    rewrite (pow2_le_cancel (K * Z.pos m2) (Z.pos m1) n s t);
      unfold s, t, n, E in *; lia. }
  cbn [units]. fold one_units in Hmag. unfold one_units.
  destruct (binary_round_aux prec64 emax64 false q e' _)
    as [[]|[]| |[] m e]; try done; try (exfalso; lia).
  - (* the quotient rounds to zero *)
    split; [done|]. cbn [units tight].
    split; [|split; [|done]]; intros B HBd HBv.
    + assert (0 < B * (Z.pos m2 * 2 ^ (e2 - emin64))); [|nia].
      eapply Z.lt_le_trans; [|exact HBv].
      apply Z.mul_pos_pos; [apply Z.mul_pos_pos; [done|]|];
        apply Z.pow_pos_nonneg; lia.
    + destruct (HB B HBd) as (K & -> & _ & HK). apply HK in HBv.
      assert (0 < 2 ^ n) by (apply Z.pow_pos_nonneg; unfold n; lia).
      assert (0 < 2 ^ (E - emin64)) by (apply Z.pow_pos_nonneg; lia).
      assert (K ≤ 0); [|nia]. nia.
  - destruct Hres as (Hm & He & Hov & Hup & Hlow).
    split; [split; [done|lia]|]. cbn [units tight].
    split; [|split]; [intros B HBd HBv..|];
      [destruct (HB B HBd) as (K & -> & HK1 & HK2)..|].
    + apply HK1, Hup in HBv.
      by apply (proj1 (units_finite m e E K HE (proj1 He))).
    + apply HK2, Hlow in HBv.
      by apply (proj2 (units_finite m e E K HE (proj1 He))).
    + destruct Hdigits as [HEmin|Hd]; [left; lia|right].
      apply Hlow in Hd.
      apply (proj2 (units_finite m e E _ HE (proj1 He))) in Hd.
      etrans; [|exact Hd].
      rewrite <-Z.pow_add_r by lia. apply Z.pow_le_mono_r; lia.
Qed.

(** Multiplication, rounded, in the same way. *)
Lemma SFmul_spec mx ex my ey Eb :
  emin64 ≤ ex → emin64 ≤ ey → ex + ey ≤ Eb →
  emin64 ≤ Eb → Eb + 1 ≤ emax64 - prec64 →
  let x := S754_finite false mx ex in
  let y := S754_finite false my ey in
  units x * units y < 2 ^ (Eb + 53 - emin64) * one_units →
  regular (SFmul prec64 emax64 x y) ∧
  (∀ B, (2 ^ (Eb - emin64) | B) →
        units x * units y ≤ B * one_units →
        units (SFmul prec64 emax64 x y) ≤ B) ∧
  (∀ B, (2 ^ (Eb - emin64) | B) →
        B * one_units ≤ units x * units y →
        B ≤ units (SFmul prec64 emax64 x y)).
Proof.
  intros Hex Hey Hez HEb1 HEb2 x y Hmag.
  pose proof emin64_eq as Hemin.
  unfold x, y in *. cbn [SFmul xorb units] in *.
  set (a := Z.pos (mx * my)). set (ez := ex + ey) in *.
  set (t := ez - 2 * emin64).
  assert (0 ≤ t) as Ht by (unfold t, ez; lia).
  assert (Z.pos mx * 2 ^ (ex - emin64) * (Z.pos my * 2 ^ (ey - emin64)) =
          a * 2 ^ t) as Hprod.
  { unfold a, t, ez. rewrite Pos2Z.inj_mul.
    replace (ex + ey - 2 * emin64) with ((ex - emin64) + (ey - emin64))
      by lia.
    rewrite Z.pow_add_r by lia. lia. }
  rewrite Hprod in *. unfold one_units in *.
  destruct (binary_round_aux_spec a 1 a ez loc_Exact) as [HE Hres];
    [done|done|by rewrite Z.div_1_r|by rewrite Z.mod_1_r|].
  set (n := Z.max 0 (fexp prec64 emax64 (Zdigits2 a + ez) - ez)) in *.
  set (E := ez + n) in *.
  assert (E ≤ Eb) as HEle.
  { unfold E, n.
    assert (fexp prec64 emax64 (Zdigits2 a + ez) ≤ Eb); [|lia].
    apply fexp_le; [done|].
    pose proof (Zdigits2_le a t (Eb + 53 - 2 * emin64) ltac:(done) Ht) as Hd.
    replace (Eb + 53 - 2 * emin64) with ((Eb + 53 - emin64) + (- emin64))
      in Hd by lia.
    rewrite Z.pow_add_r in Hd by lia. specialize (Hd Hmag).
    unfold prec64, t in *. lia. }
  assert (∀ B, (2 ^ (Eb - emin64) | B) →
            ∃ K, B = K * 2 ^ (E - emin64) ∧
                 (a * 2 ^ t ≤ B * 2 ^ (- emin64) ↔ a ≤ K * 1 * 2 ^ n) ∧
                 (B * 2 ^ (- emin64) ≤ a * 2 ^ t ↔ K * 1 * 2 ^ n ≤ a)) as HB.
  { intros B [c ->]. exists (c * 2 ^ (Eb - E)).
    assert (c * 2 ^ (Eb - emin64) = c * 2 ^ (Eb - E) * 2 ^ (E - emin64))
      as HcE.
    { replace (Eb - emin64) with ((Eb - E) + (E - emin64)) by lia.
      rewrite Z.pow_add_r by lia. lia. }
    split; [done|]. rewrite HcE.
    set (K := c * 2 ^ (Eb - E)).
    assert (K * 2 ^ (E - emin64) * 2 ^ (- emin64) = K * 2 ^ (n + t)) as ->.
    { replace (n + t) with ((E - emin64) + (- emin64))
        by (unfold E, t; lia).
      rewrite Z.pow_add_r by lia. lia. }
    rewrite Z.mul_1_r.
    replace (a * 2 ^ t) with (a * 2 ^ (0 + t)) by (f_equal; f_equal; lia).
    rewrite (pow2_le_cancel a K 0 n t) by (unfold n; lia).
    rewrite (pow2_le_cancel K a n 0 t) by (unfold n; lia).
    rewrite Z.pow_0_r, Z.mul_1_r. done. }
  destruct (binary_round_aux prec64 emax64 false a ez loc_Exact)
    as [[]|[]| |[] m e]; try done; try (exfalso; lia).
  - (* the product rounds to zero *)
    split; [done|]. cbn [units]. split; intros B HBd HBv.
    + assert (0 < B * 2 ^ (- emin64)); [|nia].
      eapply Z.lt_le_trans; [|exact HBv].
      apply Z.mul_pos_pos; [done|]. by apply Z.pow_pos_nonneg.
    + destruct (HB B HBd) as (K & -> & _ & HK). apply HK in HBv.
      assert (0 < 2 ^ n) by (apply Z.pow_pos_nonneg; unfold n; lia).
      assert (0 < 2 ^ (E - emin64)) by (apply Z.pow_pos_nonneg; lia).
      assert (K ≤ 0); [|nia]. nia.
  - destruct Hres as (Hm & He & Hov & Hup & Hlow).
    split; [split; [done|lia]|]. cbn [units].
    split; intros B HBd HBv; destruct (HB B HBd) as (K & -> & HK1 & HK2).
    + apply HK1, Hup in HBv.
      by apply (proj1 (units_finite m e E K HE (proj1 He))).
    + apply HK2, Hlow in HBv.
      by apply (proj2 (units_finite m e E K HE (proj1 He))).
Qed.

(** *** The numbers of Python in the progress column *)

(** An [int] or a [float]. *)
Inductive Num :=
| NInt (z : Z)
| NFloat (x : spec_float).

(** An [int] as the dividend or divisor of [/]: the quotient of two
    integers is rounded once, from the integers as they are. *)
Definition raw (z : Z) : spec_float :=
  match z with
  | 0 => S754_zero false
  | Z.pos p => S754_finite false p 0
  | Z.neg p => S754_finite true p 0
  end.

(** [float(z)], for an [int] that meets a [float] in [*] or [/]. *)
Definition float_of_int (z : Z) : spec_float :=
  binary_normalize prec64 emax64 z 0 false.

(** [int(x)]: towards zero; [None] is the [ValueError] for a NaN and the
    [OverflowError] for an infinity. *)
Definition int_of_float (x : spec_float) : option Z :=
  match x with
  | S754_zero _ => Some 0
  | S754_finite s m e =>
      Some (cond_Zopp s (if 0 <=? e then Z.pos m * 2 ^ e
                         else Z.pos m / 2 ^ (- e)))
  | _ => None
  end.

Definition int_of (x : Num) : option Z :=
  match x with
  | NInt z => Some z
  | NFloat x => int_of_float x
  end.

(** [k * x] and [x * k] for an [int] [k]. *)
Definition int_mul (k : Z) (x : Num) : Num :=
  match x with
  | NInt z => NInt (k * z)
  | NFloat x => NFloat (SFmul prec64 emax64 (float_of_int k) x)
  end.

Definition mul_int (x : Num) (k : Z) : Num :=
  match x with
  | NInt z => NInt (z * k)
  | NFloat x => NFloat (SFmul prec64 emax64 x (float_of_int k))
  end.

(** [timedelta.total_seconds()] of a difference of [micro] microseconds:
    [micro / 10**6]. *)
Definition total_seconds (micro : Z) : spec_float :=
  SFdiv prec64 emax64 (raw micro) (raw 1000000).

(** [min(elapsed / 10, 1)] (line 167): [1], the [int], when it is less
    than the quotient, the quotient otherwise. *)
Definition progress_of (elapsed : spec_float) : Num :=
  let x := SFdiv prec64 emax64 elapsed (float_of_int 10) in
  if SFltb (float_of_int 1) x then NInt 1 else NFloat x.

(** [c * n] for a string of one character: empty when [n] is negative. *)
Definition string_rep (c : ascii) (n : Z) : string :=
  string_of_list_ascii (repeat c (Z.to_nat n)).

(** [generate_progress_bar] (lines 210-212). *)
Definition generate_progress_bar (progress : Num) (length : Z)
    : option string :=
  filled_length ← int_of (int_mul length progress);
  let bar := (string_rep "#" filled_length ++
              string_rep "-" (length - filled_length))%string in
  Some ("[" ++ bar ++ "]")%string.

(** The progress cell of a row (lines 166-169 and 174): the bar and the
    percentage of [f"{progress_bar} {percentage}%"], for an order started
    [micro] microseconds ago, the [row_progress] of its [Row]. *)
Definition progress_cell (micro : Z) : option (string * Z) :=
  let elapsed := total_seconds micro in
  let progress := progress_of elapsed in
  progress_bar ← generate_progress_bar progress 20;
  percentage ← int_of (mul_int progress 100);
  Some (progress_bar, percentage).

(** *** The progress cell *)

Lemma one_units_pos : 0 < one_units.
Proof. done. Qed.

Lemma units_nonneg x : 0 ≤ units x.
Proof.
  destruct x as [| | |[] m e]; simpl; try done.
  destruct (pow2_pos (e - emin64)) as [?|Hneg]; [lia|].
  rewrite Z.pow_neg_r by done. lia.
Qed.

Lemma regular_nonneg x : regular x → nonneg_float x.
Proof. destruct x as [[]| | |[] m e]; simpl; tauto. Qed.

Lemma units_raw z :
  0 ≤ z → nonneg_float (raw z) ∧ units (raw z) = z * one_units.
Proof.
  intros Hz. destruct z as [|p|p]; [done| |lia]. simpl. split; [done|].
  by rewrite Z.sub_0_l.
Qed.

(** [int] of a float that is not negative: the whole units. *)
Lemma int_of_float_units x :
  regular x → int_of_float x = Some (units x / one_units).
Proof.
  destruct x as [[]| | |[] m e]; simpl; try done. intros [_ He].
  unfold one_units. f_equal.
  destruct (0 <=? e) eqn:Hle.
  - apply Z.leb_le in Hle.
    replace (e - emin64) with (e + (- emin64)) by lia.
    rewrite Z.pow_add_r by (pose proof emin64_eq; lia).
    rewrite Z.mul_assoc, Z.div_mul by done. done.
  - apply Z.leb_gt in Hle.
    replace (- emin64) with ((e - emin64) + (- e)) by lia.
    rewrite Z.pow_add_r by lia.
    rewrite (Z.mul_comm (2 ^ (e - emin64)) (2 ^ (- e))).
    rewrite Z.div_mul_cancel_r; [done|..]; apply Z.pow_nonzero; lia.
Qed.

Lemma float_of_int_1 :
  float_of_int 1 = S754_finite false 4503599627370496 (-52).
Proof. reflexivity. Qed.

Lemma float_of_int_10 :
  float_of_int 10 = S754_finite false 5629499534213120 (-49).
Proof. reflexivity. Qed.

Lemma float_of_int_20 :
  float_of_int 20 = S754_finite false 5629499534213120 (-48).
Proof. reflexivity. Qed.

Lemma float_of_int_100 :
  float_of_int 100 = S754_finite false 7036874417766400 (-46).
Proof. reflexivity. Qed.

(** [1 < x] is false: [x] is at most one. *)
Lemma SFltb_one_false x :
  regular x → SFltb (float_of_int 1) x = false → units x ≤ one_units.
Proof.
  rewrite float_of_int_1.
  destruct x as [[]| | |[] m e]; try done.
  intros [Hm He]. cbn [units]. unfold SFltb, SFcompare, one_units.
  pose proof emin64_eq as Hemin.
  destruct (Z.compare_spec (-52) e) as [<-|Hlt|Hgt]; [|done|].
  - intros Hcmp.
    assert (Z.pos m ≤ 4503599627370496) as Hle.
    { destruct (decide (Z.pos m ≤ 4503599627370496)) as [|Hn]; [done|].
      exfalso.
      assert ((4503599627370496 ?= m)%positive = Lt) as Hc
        by (apply Pos.compare_lt_iff; lia).
      rewrite Pos.compare_cont_spec, Hc in Hcmp. discriminate Hcmp. }
    replace (- emin64) with (52 + (-52 - emin64)) by lia.
    rewrite Z.pow_add_r by lia.
    apply Z.mul_le_mono_nonneg_r; [|done].
    apply Z.pow_nonneg. lia.
  - intros _.
    replace (- emin64) with ((- e) + (e - emin64)) by lia.
    rewrite Z.pow_add_r by lia.
    apply Z.mul_le_mono_nonneg_r; [apply Z.pow_nonneg; lia|].
    assert (2 ^ prec64 ≤ 2 ^ (- e)); [|lia].
    apply Z.pow_le_mono_r; unfold prec64; lia.
Qed.

Lemma string_rep_length c n : String.length (string_rep c n) = Z.to_nat n.
Proof.
  unfold string_rep. generalize (Z.to_nat n). intros k.
  induction k as [|k IH]; simpl; by rewrite ?IH.
Qed.

Lemma string_app_length (s1 s2 : string) :
  String.length (s1 ++ s2) = (String.length s1 + String.length s2)%nat.
Proof. induction s1 as [|c s1 IH]; simpl; by rewrite ?IH. Qed.

(** [1 < x] is true: [x] is more than one (at least one, here). *)
Lemma SFltb_one_true x :
  regular x → tight x → SFltb (float_of_int 1) x = true →
  one_units ≤ units x.
Proof.
  rewrite float_of_int_1.
  destruct x as [[]| | |[] m e]; try done.
  intros [Hm He] Ht. cbn [units tight] in *. unfold SFltb, SFcompare, one_units.
  pose proof emin64_eq as Hemin.
  destruct (Z.compare_spec (-52) e) as [<-|Hlt|Hgt]; [| |done].
  - intros Hcmp. rewrite Pos.compare_cont_spec in Hcmp.
    destruct (4503599627370496 ?= m)%positive eqn:Hc; try discriminate Hcmp.
    apply Pos.compare_lt_iff in Hc.
    replace (- emin64) with (52 + (-52 - emin64)) by lia.
    rewrite Z.pow_add_r by lia.
    apply Z.mul_le_mono_nonneg_r; [apply Z.pow_nonneg; lia|].
    apply Pos2Z.pos_lt_pos in Hc. clear -Hc.
    change (2 ^ 52) with 4503599627370496. lia.
  - intros _. destruct Ht as [?|Ht]; [lia|].
    etrans; [|exact Ht]. apply Z.pow_le_mono_r; lia.
Qed.

Lemma pow2_one_units k : 0 ≤ k → 2 ^ (k - emin64) = 2 ^ k * one_units.
Proof.
  intros Hk. unfold one_units.
  replace (k - emin64) with (k + (- emin64)) by lia.
  by rewrite Z.pow_add_r.
Qed.

Lemma divide_one_units k c :
  0 ≤ k → (2 ^ (k - emin64) | c * 2 ^ k * one_units).
Proof.
  intros Hk. exists c. rewrite pow2_one_units by done. lia.
Qed.

(** [total_seconds]: a float, at least ten when ten seconds have passed. *)
Lemma total_seconds_spec micro :
  0 ≤ micro < 2 ^ 62 →
  regular (total_seconds micro) ∧
  units (total_seconds micro) ≤ 2 ^ 43 * one_units ∧
  (10000000 ≤ micro → 10 * one_units ≤ units (total_seconds micro)).
Proof.
  intros [H0 Hlt]. unfold total_seconds.
  destruct (units_raw micro H0) as [Hnn Hu].
  pose proof one_units_pos as Hone.
  assert (0 < one_units * one_units) as Hsq by (by apply Z.mul_pos_pos).
  assert (units (raw 1000000) = 1000000 * one_units) as Hu6 by reflexivity.
  destruct (SFdiv_spec (raw micro) (raw 1000000) 1) as (Hreg & Hup & Hlow & Htight);
    [done|by vm_compute|by vm_compute|by vm_compute| |].
  { replace (1 + 52 - emin64) with (53 - emin64) by lia.
    rewrite Hu, Hu6, (pow2_one_units 53) by done.
    assert (micro * (one_units * one_units) <
            2 ^ 53 * 1000000 * (one_units * one_units)); [|lia].
    apply Z.mul_lt_mono_pos_r; [done|]. lia. }
  split; [done|]. split.
  - apply Hup.
    + apply (divide_one_units 1 (2 ^ 42)). lia.
    + rewrite Hu, Hu6.
      assert (micro * (one_units * one_units) ≤
              2 ^ 42 * 2 ^ 1 * 1000000 * (one_units * one_units)); [|lia].
      apply Z.mul_le_mono_nonneg_r; lia.
  - intros Hten. apply Hlow.
    + apply (divide_one_units 1 5). lia.
    + rewrite Hu, Hu6.
      assert (5 * 2 ^ 1 * 1000000 * (one_units * one_units) ≤
              micro * (one_units * one_units)); [|lia].
      apply Z.mul_le_mono_nonneg_r; lia.
Qed.

Lemma units_float_of_int_10 : units (float_of_int 10) = 10 * one_units.
Proof. reflexivity. Qed.

(** [elapsed / 10]: a float, at least one when [elapsed] is at least
    ten. *)
Lemma tenth_spec x :
  regular x → units x ≤ 2 ^ 43 * one_units →
  regular (SFdiv prec64 emax64 x (float_of_int 10)) ∧
  (10 * one_units ≤ units x →
   one_units ≤ units (SFdiv prec64 emax64 x (float_of_int 10))).
Proof.
  intros Hreg Hle.
  pose proof one_units_pos as Hone.
  destruct (SFdiv_spec x (float_of_int 10) 0) as (Hreg' & _ & Hlow & Htight);
    [by apply regular_nonneg|by vm_compute|by vm_compute|by vm_compute| |].
  { replace (0 + 52 - emin64) with (52 - emin64) by lia.
    rewrite units_float_of_int_10, (pow2_one_units 52) by done.
    assert (units x * one_units < 2 ^ 52 * 10 * one_units * one_units);
      [|lia].
    apply Z.mul_lt_mono_pos_r; [done|]. lia. }
  split; [done|]. intros Hten.
  apply Hlow.
  - apply (divide_one_units 0 1). lia.
  - rewrite units_float_of_int_10.
    assert (10 * one_units * one_units ≤ units x * one_units); [|lia].
    by apply Z.mul_le_mono_nonneg_r; [lia|].
Qed.

Lemma SFmul_comm_finite mx ex my ey :
  SFmul prec64 emax64 (S754_finite false mx ex) (S754_finite false my ey) =
  SFmul prec64 emax64 (S754_finite false my ey) (S754_finite false mx ex).
Proof. cbn [SFmul]. by rewrite Pos.mul_comm, Z.add_comm. Qed.

(** A float that is at most one has no positive exponent. *)
Lemma units_le_one_exp m e :
  emin64 ≤ e → units (S754_finite false m e) ≤ one_units → e ≤ 0.
Proof.
  intros He Hu. cbn [units] in Hu.
  destruct (decide (e ≤ 0)) as [|Hn]; [done|]. exfalso.
  rewrite (pow2_one_units e) in Hu by lia.
  pose proof one_units_pos as Hone.
  assert (2 ^ 1 ≤ 2 ^ e) as Hp by (apply Z.pow_le_mono_r; lia).
  assert (1 * 2 ≤ Z.pos m * 2 ^ e) as Hm
    by (apply Z.mul_le_mono_nonneg; lia).
  assert (1 * 2 * one_units ≤ Z.pos m * 2 ^ e * one_units)
    by (apply Z.mul_le_mono_nonneg_r; lia).
  lia.
Qed.

(** [int(k * x)] and [int(x * k)] for a float [x] between zero and one
    and a whole number [k] that is a float: a whole number between zero
    and [k], [k] itself when [x] is one, and below a float [B] that
    [k * x] does not cross.  [Eb] bounds the exponent of the product. *)
Lemma int_mul_float k mk ek Eb x :
  float_of_int k = S754_finite false mk ek →
  emin64 ≤ ek ≤ Eb → -53 ≤ Eb ≤ 0 →
  units (float_of_int k) = k * one_units → k < 2 ^ (Eb + 53) →
  regular x → units x ≤ one_units →
  ∃ n, int_of_float (SFmul prec64 emax64 (float_of_int k) x) = Some n ∧
       int_of_float (SFmul prec64 emax64 x (float_of_int k)) = Some n ∧
       0 ≤ n ≤ k ∧ (units x = one_units → n = k) ∧
       (∀ B, (2 ^ (Eb - emin64) | B) → k * units x ≤ B → n * one_units ≤ B) ∧
       (∀ j, j * one_units ≤ k * units x → j ≤ n).
Proof.
  intros Hk Hek HEb Huk Hlt Hreg Hle. rewrite Hk in *.
  pose proof one_units_pos as Hone.
  pose proof emin64_eq as Hemin.
  assert (0 < k) as Hkpos.
  { cbn [units] in Huk.
    assert (0 < 2 ^ (ek - emin64)) by (apply Z.pow_pos_nonneg; lia).
    assert (0 < Z.pos mk * 2 ^ (ek - emin64)) by (apply Z.mul_pos_pos; lia).
    destruct (decide (0 < k)) as [|Hn]; [done|]. exfalso.
    assert (k * one_units ≤ 0 * one_units)
      by (apply Z.mul_le_mono_nonneg_r; lia).
    lia. }
  destruct x as [[]| | |[] m e]; try done.
  - exists 0. cbn [SFmul xorb int_of_float units].
    split_and!; [done|done|lia|lia|lia| |].
    + intros B _ HB. lia.
    + intros j Hj. destruct (decide (j ≤ 0)) as [|Hn]; [done|]. exfalso.
      assert (1 * one_units ≤ j * one_units)
        by (apply Z.mul_le_mono_nonneg_r; lia).
      lia.
  - destruct Hreg as [Hm He].
    pose proof (units_le_one_exp m e He Hle) as He0.
    rewrite (SFmul_comm_finite m e mk ek).
    pose proof (SFmul_spec mk ek m e Eb) as Hspec. cbv zeta in Hspec.
    destruct Hspec as (Hr & Hup & Hlow); [lia|lia|lia|lia| | |].
    { change (emax64 - prec64) with 971. lia. }
    { rewrite Huk, (pow2_one_units (Eb + 53)) by lia.
      assert (k * one_units * units (S754_finite false m e) ≤
              k * one_units * one_units)
        by (apply Z.mul_le_mono_nonneg_l; lia).
      assert (k * (one_units * one_units) <
              2 ^ (Eb + 53) * (one_units * one_units))
        by (apply Z.mul_lt_mono_pos_r; [by apply Z.mul_pos_pos|done]).
      lia. }
    set (r := SFmul prec64 emax64 (S754_finite false mk ek)
                (S754_finite false m e)) in *.
    assert (∀ j, (2 ^ (Eb - emin64) | j * one_units)) as Hdiv.
    { intros j. exists (j * 2 ^ (- Eb)). unfold one_units.
      rewrite <-Z.mul_assoc, <-Z.pow_add_r by lia. do 2 f_equal. lia. }
    assert (units r ≤ k * one_units) as Hle'.
    { apply Hup; [done|].
      rewrite Huk. apply Z.mul_le_mono_nonneg_l; lia. }
    assert (units r / one_units * one_units ≤ units r) as Hfloor.
    { rewrite Z.mul_comm. apply Z.mul_div_le. done. }
    exists (units r / one_units). rewrite int_of_float_units by done.
    split; [done|]. split; [done|]. split; [|split; [|split]].
    + split; [apply Z.div_pos; [apply units_nonneg|done]|].
      apply Z.div_le_upper_bound; [done|lia].
    + intros Hu.
      assert (k * one_units ≤ units r) as Hge.
      { apply Hlow; [done|]. rewrite Huk, Hu. lia. }
      replace (units r) with (k * one_units) by lia.
      by apply Z.div_mul; lia.
    + intros B HB HkB. etrans; [exact Hfloor|].
      apply Hup; [done|]. rewrite Huk.
      rewrite <-Z.mul_assoc, (Z.mul_comm one_units), Z.mul_assoc.
      apply Z.mul_le_mono_nonneg_r; lia.
    + intros j Hj. apply Z.div_le_lower_bound; [done|].
      rewrite Z.mul_comm. apply Hlow; [done|]. rewrite Huk.
      rewrite <-(Z.mul_assoc k), (Z.mul_comm one_units), Z.mul_assoc.
      apply Z.mul_le_mono_nonneg_r; lia.
Qed.

(** [min(elapsed / 10, 1)] for the seconds of [micro] microseconds: the
    int [1], or a float between zero and one, which is one from ten
    seconds on. *)
Lemma progress_of_spec micro :
  0 ≤ micro < 2 ^ 62 →
  progress_of (total_seconds micro) = NInt 1 ∨
  ∃ x, progress_of (total_seconds micro) = NFloat x ∧
       regular x ∧ units x ≤ one_units ∧
       (10000000 ≤ micro → units x = one_units).
Proof.
  intros Hm. destruct (total_seconds_spec micro Hm) as (Hreg & Hle & Hten).
  destruct (tenth_spec _ Hreg Hle) as (Hreg' & Hone).
  unfold progress_of. cbv zeta.
  destruct (SFltb _ _) eqn:Hlt; [by left|right].
  eexists. split; [done|]. split; [done|].
  pose proof (SFltb_one_false _ Hreg' Hlt) as Hle'.
  split; [done|]. intros H10. specialize (Hone (Hten H10)). lia.
Qed.

Lemma float_of_int_20_units : units (float_of_int 20) = 20 * one_units.
Proof. reflexivity. Qed.

Lemma float_of_int_100_units : units (float_of_int 100) = 100 * one_units.
Proof. reflexivity. Qed.

(** The bar of [length] cells of which [filled_length] are filled
    (lines 211-212). *)
Definition bar_of (length filled_length : Z) : string :=
  ("[" ++ (string_rep "#" filled_length ++
           string_rep "-" (length - filled_length)) ++ "]")%string.

Lemma bar_of_length length filled_length :
  0 ≤ filled_length ≤ length →
  String.length (bar_of length filled_length) = Z.to_nat (length + 2).
Proof.
  intros Hf. unfold bar_of. cbn [String.append String.length].
  rewrite !string_app_length, !string_rep_length. simpl. lia.
Qed.

(** *** Before ten seconds *)

(** The last place of the floats between a half and one, in units. *)
Definition ulp_units : Z := 2 ^ (-52 - emin64).

Lemma ulp_units_pos : 0 < ulp_units.
Proof. done. Qed.

Lemma one_units_ulp : one_units = 2 ^ 52 * ulp_units.
Proof. reflexivity. Qed.

(** The seconds of less than ten million microseconds, between the
    multiples [c] of [2 ^ -48] around [micro / 10 ^ 6]. *)
Lemma total_seconds_bounds micro :
  0 ≤ micro < 10000000 →
  regular (total_seconds micro) ∧
  ∀ c, (micro * 2 ^ 48 ≤ c * 1000000 →
        units (total_seconds micro) ≤ c * (2 ^ 4 * ulp_units)) ∧
       (c * 1000000 ≤ micro * 2 ^ 48 →
        c * (2 ^ 4 * ulp_units) ≤ units (total_seconds micro)).
Proof.
  intros [H0 Hlt]. unfold total_seconds.
  destruct (units_raw micro H0) as [Hnn Hu].
  pose proof ulp_units_pos as HW. pose proof one_units_ulp as Hone.
  assert (0 < ulp_units * ulp_units) as HWW by (by apply Z.mul_pos_pos).
  assert (units (raw 1000000) = 1000000 * one_units) as Hu6 by reflexivity.
  destruct (SFdiv_spec (raw micro) (raw 1000000) (-48))
    as (Hreg & Hup & Hlow & _);
    [done|by vm_compute|by vm_compute|by vm_compute| |].
  { rewrite Hu, Hu6.
    change (2 ^ (-48 + 52 - emin64)) with (2 ^ 56 * ulp_units).
    rewrite Hone.
    assert (micro * (ulp_units * ulp_units) <
            16000000 * (ulp_units * ulp_units))
      by (apply Z.mul_lt_mono_pos_r; [done|lia]).
    lia. }
  split; [done|]. intros c.
  assert (2 ^ (-48 - emin64) | c * (2 ^ 4 * ulp_units)) as Hdiv
    by (by exists c).
  split; intros Hc.
  - apply Hup; [done|]. rewrite Hu, Hu6, Hone.
    assert (micro * 2 ^ 48 * (ulp_units * ulp_units) ≤
            c * 1000000 * (ulp_units * ulp_units))
      by (apply Z.mul_le_mono_nonneg_r; lia).
    lia.
  - apply Hlow; [done|]. rewrite Hu, Hu6, Hone.
    assert (c * 1000000 * (ulp_units * ulp_units) ≤
            micro * 2 ^ 48 * (ulp_units * ulp_units))
      by (apply Z.mul_le_mono_nonneg_r; lia).
    lia.
Qed.

(** A tenth of less than ten, between the multiples [c] of [2 ^ -52]
    around it. *)
Lemma tenth_bounds x :
  regular x → units x < 10 * one_units →
  regular (SFdiv prec64 emax64 x (float_of_int 10)) ∧
  tight (SFdiv prec64 emax64 x (float_of_int 10)) ∧
  ∀ c, (units x ≤ 10 * c * ulp_units →
        units (SFdiv prec64 emax64 x (float_of_int 10)) ≤ c * ulp_units) ∧
       (10 * c * ulp_units ≤ units x →
        c * ulp_units ≤ units (SFdiv prec64 emax64 x (float_of_int 10))).
Proof.
  intros Hreg Hle.
  pose proof ulp_units_pos as HW. pose proof one_units_ulp as Hone.
  pose proof one_units_pos as Hone0.
  destruct (SFdiv_spec x (float_of_int 10) (-52))
    as (Hreg' & Hup & Hlow & Htight);
    [by apply regular_nonneg|by vm_compute|by vm_compute|by vm_compute| |].
  { rewrite units_float_of_int_10.
    change (2 ^ (-52 + 52 - emin64)) with one_units.
    assert (units x * one_units < 10 * one_units * one_units)
      by (apply Z.mul_lt_mono_pos_r; lia).
    lia. }
  split; [done|]. split; [done|]. intros c.
  assert (2 ^ (-52 - emin64) | c * ulp_units) as Hdiv
    by apply Z.divide_factor_r.
  split; intros Hc.
  - apply Hup; [done|]. rewrite units_float_of_int_10.
    assert (units x * one_units ≤ 10 * c * ulp_units * one_units)
      by (apply Z.mul_le_mono_nonneg_r; lia).
    lia.
  - apply Hlow; [done|]. rewrite units_float_of_int_10.
    assert (10 * c * ulp_units * one_units ≤ units x * one_units)
      by (apply Z.mul_le_mono_nonneg_r; lia).
    lia.
Qed.

(** [min(elapsed / 10, 1)] before ten seconds: the quotient, a float
    below one, between the multiples [c2] of [2 ^ -52] around
    [micro / 10 ^ 7]. *)
Lemma progress_of_early micro :
  0 ≤ micro < 10000000 →
  ∃ x, progress_of (total_seconds micro) = NFloat x ∧
       regular x ∧ units x ≤ one_units ∧
       ∀ c1 c2,
         (micro * 2 ^ 48 ≤ c1 * 1000000 → c1 * 2 ^ 4 ≤ 10 * c2 →
          units x ≤ c2 * ulp_units) ∧
         (c1 * 1000000 ≤ micro * 2 ^ 48 → 10 * c2 ≤ c1 * 2 ^ 4 →
          c2 * ulp_units ≤ units x).
Proof.
  intros Hm. destruct (total_seconds_bounds micro Hm) as (Hreg & Hb).
  pose proof ulp_units_pos as HW. pose proof one_units_ulp as Hone.
  assert (units (total_seconds micro) ≤
          (10 * 2 ^ 48 - 2 ^ 24) * (2 ^ 4 * ulp_units)) as Hle
    by (apply Hb; lia).
  destruct (tenth_bounds _ Hreg ltac:(lia)) as (Hreg' & Htight & Hb').
  assert (units (SFdiv prec64 emax64 (total_seconds micro) (float_of_int 10))
          ≤ (2 ^ 52 - 2 ^ 24) * ulp_units) as Hle'
    by (apply Hb'; lia).
  unfold progress_of. cbv zeta.
  destruct (SFltb _ _) eqn:Hlt.
  { pose proof (SFltb_one_true _ Hreg' Htight Hlt). lia. }
  eexists. split; [done|]. split; [done|]. split; [lia|].
  intros c1 c2. split; intros H1 H2.
  - apply Hb'. etrans; [by apply Hb|].
    assert (c1 * 2 ^ 4 * ulp_units ≤ 10 * c2 * ulp_units)
      by (apply Z.mul_le_mono_nonneg_r; lia).
    lia.
  - apply Hb'. etrans; [|by apply Hb].
    assert (10 * c2 * ulp_units ≤ c1 * 2 ^ 4 * ulp_units)
      by (apply Z.mul_le_mono_nonneg_r; lia).
    lia.
Qed.

(** *** [float(k)] for a whole number below [2 ^ 52] *)

Lemma Zdigits2_unique m d :
  2 ^ (d - 1) ≤ m < 2 ^ d → 1 ≤ d → Zdigits2 m = d.
Proof.
  intros [Hlo Hhi] Hd.
  assert (0 < m) as Hm.
  { assert (0 < 2 ^ (d - 1)) by (apply Z.pow_pos_nonneg; lia). lia. }
  destruct (Zdigits2_bounds m Hm) as [Hlo' Hhi'].
  assert (1 ≤ Zdigits2 m) by (destruct m; simpl; lia).
  assert (2 ^ (d - 1) < 2 ^ Zdigits2 m) as H1 by lia.
  assert (2 ^ (Zdigits2 m - 1) < 2 ^ d) as H2 by lia.
  apply Z.pow_lt_mono_r_iff in H1; [|lia..].
  apply Z.pow_lt_mono_r_iff in H2; [|lia..]. lia.
Qed.

Lemma float_of_int_spec k :
  0 < k < 2 ^ 52 →
  ∃ mk ek, float_of_int k = S754_finite false mk ek ∧
           Zdigits2 k - 53 ≤ ek ≤ Zdigits2 k - 52 ∧
           units (float_of_int k) = k * one_units.
Proof.
  intros [H0 Hlt]. destruct k as [|p|p]; try done.
  pose proof emin64_eq as Hemin.
  set (d := Zdigits2 (Z.pos p)).
  destruct (Zdigits2_bounds (Z.pos p) H0) as [Hlo Hhi]. fold d in Hlo, Hhi.
  assert (1 ≤ d) as Hd1 by (unfold d; simpl; lia).
  assert (d ≤ 52) as Hd52.
  { pose proof (Zdigits2_le (Z.pos p) 0 52 H0 ltac:(done)) as Hd.
    rewrite Z.pow_0_r, Z.mul_1_r in Hd. specialize (Hd Hlt). fold d in Hd.
    lia. }
  unfold float_of_int. cbn [binary_normalize].
  unfold binary_round, shl_align.
  change (Z.pos (digits2_pos p)) with d.
  assert (fexp prec64 emax64 (d + 0) = d - 53) as ->.
  { change (fexp prec64 emax64 (d + 0)) with (Z.max (d + 0 - 53) emin64).
    lia. }
  destruct (d - 53 - 0) as [|q|q] eqn:Hq; try lia.
  fold (shift_pos q p).
  assert (Z.pos (shift_pos q p) = Z.pos p * 2 ^ (53 - d)) as Hmz.
  { rewrite shift_pos_correct, Z.mul_comm. f_equal.
    replace (53 - d) with (Z.pos q) by lia. done. }
  set (mz := Z.pos (shift_pos q p)) in *.
  assert (0 < 2 ^ (53 - d)) as Hp by (apply Z.pow_pos_nonneg; lia).
  assert (Zdigits2 mz = 53) as Hdz.
  { apply Zdigits2_unique; [|done]. rewrite Hmz. split.
    - replace (53 - 1) with ((d - 1) + (53 - d)) by lia.
      rewrite Z.pow_add_r by lia. apply Z.mul_le_mono_nonneg_r; lia.
    - replace 53 with (d + (53 - d)) at 2 by lia.
      rewrite Z.pow_add_r by lia. apply Z.mul_lt_mono_pos_r; lia. }
  destruct (binary_round_aux_spec mz 1 mz (d - 53) loc_Exact) as [HE Hres];
    [lia|done|by rewrite Z.div_1_r|by rewrite Z.mod_1_r|].
  rewrite Hdz in Hres, HE.
  assert (fexp prec64 emax64 (53 + (d - 53)) = d - 53) as Hf.
  { change (fexp prec64 emax64 (53 + (d - 53)))
      with (Z.max (53 + (d - 53) - 53) emin64).
    lia. }
  rewrite Hf in Hres, HE.
  replace (Z.max 0 (d - 53 - (d - 53))) with 0 in Hres, HE by lia.
  rewrite Z.add_0_r, Z.pow_0_r in Hres.
  destruct (binary_round_aux prec64 emax64 false mz (d - 53) loc_Exact)
    as [[]|[]| |[] m e]; try done; try (exfalso; unfold mz in *; lia).
  { exfalso. change (emax64 - prec64) with 971 in Hres. lia. }
  destruct Hres as (_ & He & _ & Hup & Hlow).
  exists m, e. split; [done|]. split; [lia|].
  specialize (Hup mz ltac:(lia)). specialize (Hlow mz ltac:(lia)).
  assert (Z.pos m * 2 ^ (e - (d - 53)) = mz) as Heq by lia.
  cbn [units]. unfold one_units.
  replace (e - emin64) with ((e - (d - 53)) + (d - 53 - emin64)) by lia.
  rewrite Z.pow_add_r, Z.mul_assoc, Heq, Hmz by lia.
  rewrite <-Z.mul_assoc, <-Z.pow_add_r by lia. do 2 f_equal. lia.
Qed.

(** *** The bar and the percentage *)

(** A progress between zero and one: the int [0] or [1], or a float. *)
Definition unit_progress (progress : Num) : Prop :=
  match progress with
  | NInt z => 0 ≤ z ≤ 1
  | NFloat x => regular x ∧ units x ≤ one_units
  end.

(** X11. [generate_progress_bar] for a progress between zero and one and
    a [length] below [2 ^ 52]: it returns, and the bar has exactly
    [length] cells between its brackets, the filled ones first; the
    rounding of [length * progress] never fills more cells than there
    are. *)
Theorem generate_progress_bar_cells progress length :
  unit_progress progress → 0 ≤ length < 2 ^ 52 →
  ∃ filled_length,
    generate_progress_bar progress length =
      Some (bar_of length filled_length) ∧
    0 ≤ filled_length ≤ length ∧
    String.length (bar_of length filled_length) = Z.to_nat (length + 2).
Proof.
  intros Hp [H0 Hlt].
  assert (∃ filled_length,
            int_of (int_mul length progress) = Some filled_length ∧
            0 ≤ filled_length ≤ length) as (f & Hf & Hb).
  { destruct progress as [z|x]; simpl in Hp.
    - exists (length * z). split; [done|].
      assert (z = 0 ∨ z = 1) as [->| ->] by lia; lia.
    - destruct Hp as [Hreg Hle]. cbn [int_mul int_of].
      destruct (decide (length = 0)) as [->|Hn].
      + exists 0. split; [|done].
        by destruct x as [[]| | |[] m e].
      + destruct (float_of_int_spec length) as (mk & ek & Hk & Hek & Hu);
          [lia|].
        assert (1 ≤ Zdigits2 length ≤ 52) as Hd.
        { split; [destruct length; simpl; lia|].
          pose proof (Zdigits2_le length 0 52 ltac:(lia) ltac:(done)) as Hd.
          rewrite Z.pow_0_r, Z.mul_1_r in Hd. specialize (Hd Hlt). lia. }
        pose proof emin64_eq as Hemin.
        destruct (int_mul_float length mk ek (Zdigits2 length - 52) x Hk)
          as (n & -> & _ & Hn' & _); [lia|lia|done| |done|done|].
        * destruct (Zdigits2_bounds length) as [_ Hhi]; [lia|].
          etrans; [exact Hhi|]. apply Z.pow_lt_mono_r; lia.
        * by exists n. }
  exists f. unfold generate_progress_bar. rewrite Hf. cbn [mbind option_bind].
  split; [done|]. split; [done|]. by apply bar_of_length.
Qed.

(** The progress cell of a row. *)
Definition cell (filled_length percentage : Z) : string * Z :=
  (bar_of 20 filled_length, percentage).

(** X12. The progress cell of an order that has been in process for ten
    seconds or more (and less than [2 ^ 62] microseconds): the full bar
    and [100]. *)
Theorem progress_cell_complete micro :
  10000000 ≤ micro < 2 ^ 62 →
  progress_cell micro = Some ("[####################]"%string, 100).
Proof.
  intros [H10 Hlt]. unfold progress_cell, generate_progress_bar. cbv zeta.
  pose proof emin64_eq as Hemin.
  destruct (progress_of_spec micro ltac:(lia))
    as [->|(x & -> & Hreg & Hle & Hten)]; [done|].
  specialize (Hten H10). cbn [int_mul mul_int int_of].
  destruct (int_mul_float 20 _ _ (-48) x float_of_int_20)
    as (f & -> & _ & _ & Hf & _);
    [lia|lia|exact float_of_int_20_units|done|done|done|].
  destruct (int_mul_float 100 _ _ (-46) x float_of_int_100)
    as (p & _ & -> & _ & Hp & _);
    [lia|lia|exact float_of_int_100_units|done|done|done|].
  by rewrite (Hf Hten), (Hp Hten).
Qed.

(** The instants, in microseconds, at which [progress * 100] falls just
    short of the whole number that the percentage would be. *)
Definition short_percents : list Z :=
  [700000; 1400000; 2800000; 2900000; 3300000;
   5600000; 5800000; 6600000; 8700000; 9100000].

(** The percentage after [micro] microseconds, out of ten seconds. *)
Definition percentage_of (micro : Z) : Z :=
  micro / 100000 - (if bool_decide (micro ∈ short_percents) then 1 else 0).

(** At the whole percents, one by one. *)
Lemma progress_cell_whole_percent j :
  0 ≤ j < 100 →
  progress_cell (100000 * j) =
    Some (cell (100000 * j / 500000) (percentage_of (100000 * j))).
Proof.
  intros Hj.
  assert (forallb (λ j, bool_decide
            (progress_cell (100000 * j) =
             Some (cell (100000 * j / 500000) (percentage_of (100000 * j)))))
            (seqZ 0 100) = true) as Hall by (vm_compute; reflexivity).
  rewrite forallb_forall in Hall.
  eapply bool_decide_eq_true_1, Hall, list_elem_of_In, elem_of_seqZ. lia.
Qed.

(** X13. The progress cell of an order that has been in process for
    less than ten seconds, whatever the rounding of [elapsed / 10], of
    [length * progress] and of [progress * 100]: the bar has one cell
    filled for every half second that has passed, and the percentage is
    the tenths of a second that have passed, except at ten instants
    ([short_percents]: 0.7 s, 1.4 s, ...), where it is one less.  So the
    bar is never full and the percentage never [100] before the ten
    seconds are over. *)
Theorem progress_cell_value micro :
  0 ≤ micro < 10000000 →
  progress_cell micro =
    Some (cell (micro / 500000) (percentage_of micro)) ∧
  0 ≤ micro / 500000 < 20 ∧ 0 ≤ percentage_of micro < 100.
Proof.
  intros Hm. split.
  2: { unfold percentage_of. case_bool_decide as Hin;
         [|Z.div_mod_to_equations; lia].
       unfold short_percents in Hin. rewrite !elem_of_cons, elem_of_nil in Hin.
       (destruct_or! Hin); subst; try done; lia. }
  destruct (decide (micro mod 100000 = 0)) as [Hmod|Hmod].
  { assert (∃ j, micro = 100000 * j ∧ 0 ≤ j < 100) as (j & -> & Hj)
      by (exists (micro / 100000); Z.div_mod_to_equations; lia).
    by apply progress_cell_whole_percent. }
  assert (percentage_of micro = micro / 100000) as ->.
  { unfold percentage_of. case_bool_decide as Hin; [|lia].
    unfold short_percents in Hin. rewrite !elem_of_cons, elem_of_nil in Hin.
    (destruct_or! Hin); subst; try done; by destruct Hmod. }
  unfold progress_cell, generate_progress_bar. cbv zeta.
  destruct (progress_of_early micro Hm) as (x & -> & Hreg & Hle & Hb).
  pose proof ulp_units_pos as HW. pose proof one_units_ulp as Hone.
  pose proof emin64_eq as Hemin.
  cbn [int_mul mul_int int_of].
  destruct (int_mul_float 20 _ _ (-48) x float_of_int_20)
    as (f & -> & _ & _ & _ & HfB & Hfj);
    [lia|lia|exact float_of_int_20_units|done|done|lia|].
  destruct (int_mul_float 100 _ _ (-46) x float_of_int_100)
    as (p & _ & -> & _ & _ & HpB & Hpj);
    [lia|lia|exact float_of_int_100_units|done|done|lia|].
  cbn [mbind option_bind]. unfold cell.
  (* the progress, between two multiples of [2 ^ -52] *)
  set (c1 := micro * 2 ^ 48 / 1000000).
  set (lo := c1 * 2 ^ 4 / 10).
  set (hi := (c1 + 1) * 2 ^ 4 / 10 + 1).
  set (c3 := 20 * hi / 2 ^ 4 + 1).
  set (c4 := 100 * hi / 2 ^ 6 + 1).
  assert (micro / 500000 * 2 ^ 52 ≤ 20 * lo ∧
          micro / 100000 * 2 ^ 52 ≤ 100 * lo ∧
          20 * hi ≤ c3 * 2 ^ 4 ∧ c3 < (micro / 500000 + 1) * 2 ^ 48 ∧
          100 * hi ≤ c4 * 2 ^ 6 ∧ c4 < (micro / 100000 + 1) * 2 ^ 46 ∧
          c1 * 1000000 ≤ micro * 2 ^ 48 ≤ (c1 + 1) * 1000000 ∧
          10 * lo ≤ c1 * 2 ^ 4 ∧ (c1 + 1) * 2 ^ 4 ≤ 10 * hi)
    as (HF & HP & Hc3 & Hc3' & Hc4 & Hc4' & Hc1 & Hlo10 & Hhi10).
  { clear -Hm Hmod. unfold c4, c3, hi, lo, c1.
    Z.div_mod_to_equations. lia. }
  clearbody c1 lo hi c3 c4.
  assert (lo * ulp_units ≤ units x ≤ hi * ulp_units) as [Hlo Hhi].
  { split; [apply (Hb c1 lo); lia|apply (Hb (c1 + 1) hi); lia]. }
  assert (micro / 500000 = f) as <-.
  { apply Z.le_antisymm.
    - apply Hfj. rewrite Hone.
      assert (micro / 500000 * 2 ^ 52 * ulp_units ≤ 20 * lo * ulp_units)
        by (apply Z.mul_le_mono_nonneg_r; lia).
      lia.
    - assert (f * one_units ≤ c3 * (2 ^ 4 * ulp_units)) as Hf.
      { apply HfB; [by exists c3|].
        assert (20 * hi * ulp_units ≤ c3 * 2 ^ 4 * ulp_units)
          by (apply Z.mul_le_mono_nonneg_r; lia).
        lia. }
      rewrite Hone in Hf.
      assert (f * 2 ^ 48 * (2 ^ 4 * ulp_units) ≤ c3 * (2 ^ 4 * ulp_units))
        as Hf' by lia.
      apply Z.mul_le_mono_pos_r in Hf'; lia. }
  assert (micro / 100000 = p) as <-; [|done].
  apply Z.le_antisymm.
  - apply Hpj. rewrite Hone.
    assert (micro / 100000 * 2 ^ 52 * ulp_units ≤ 100 * lo * ulp_units)
      by (apply Z.mul_le_mono_nonneg_r; lia).
    lia.
  - assert (p * one_units ≤ c4 * (2 ^ 6 * ulp_units)) as Hp.
    { apply HpB; [by exists c4|].
      assert (100 * hi * ulp_units ≤ c4 * 2 ^ 6 * ulp_units)
        by (apply Z.mul_le_mono_nonneg_r; lia).
      lia. }
    rewrite Hone in Hp.
    assert (p * 2 ^ 46 * (2 ^ 6 * ulp_units) ≤ c4 * (2 ^ 6 * ulp_units))
      as Hp' by lia.
    apply Z.mul_le_mono_pos_r in Hp'; lia.
Qed.

(** ** The further theorems at work on runs of the program *)

Lemma add_bot_fresh_id_witness :
  reachable (after [AddBot; AddBot]) ∧
  ∀ b bot, threads (after [AddBot; AddBot]) !! b = Some bot →
           Bot.bot_id bot = Z.of_nat b + 1.
Proof.
  assert (reachable (after [AddBot; AddBot])) as Hr.
  { exists 0, [AddBot; AddBot]. eexists. vm_compute. reflexivity. }
  split; [exact Hr|]. exact (proj1 (add_bot_fresh_id _ Hr)).
Defined.

Lemma display_orders_selected_witness :
  reachable (after [AddOrder "normal"; AddOrder "VIP"]) ∧
  ∃ rows,
    row_number <$> rows =
    Order.order_number <$>
      selected (Only PENDING) (after [AddOrder "normal"; AddOrder "VIP"]) ∧
    row_number <$> rows = [1; 2].
Proof.
  set (s := after [AddOrder "normal"; AddOrder "VIP"]).
  assert (reachable s) as Hr.
  { exists 0, [AddOrder "normal"; AddOrder "VIP"]. eexists.
    vm_compute. reflexivity. }
  split; [exact Hr|].
  destruct (display_orders_selected (Only PENDING) s s
              [Table [mkRow 1 "NORMAL" PENDING None None None (Some 0);
                      mkRow 2 "VIP" PENDING None None None (Some 0)]]
              (Some (Returns PyNone)) Hr)
    as (_ & _ & rows & _ & Hn & _ & _ & Hout);
    [vm_compute; reflexivity|discriminate|].
  exists rows. split; [exact Hn|]. rewrite Hn. vm_compute. reflexivity.
Defined.


Lemma one_bot_per_order_witness :
  reachable (after dispatch_schedule) ∧
  ∀ b1 b2 a, works_on (after dispatch_schedule) b1 a →
             works_on (after dispatch_schedule) b2 a → b1 = b2.
Proof.
  assert (reachable (after dispatch_schedule)) as Hr.
  { exists 0, dispatch_schedule. eexists. vm_compute. reflexivity. }
  split; [exact Hr|]. exact (proj1 (one_bot_per_order _ Hr)).
Defined.

Lemma no_order_lost_witness :
  reachable (after dispatch_schedule) ∧
  ∀ a o, heap (after dispatch_schedule) !! a = Some o →
    a ∈ pending_orders (after dispatch_schedule) ∨
    (∃ b, works_on (after dispatch_schedule) b a) ∨
    Order.status o = COMPLETE.
Proof.
  assert (reachable (after dispatch_schedule)) as Hr.
  { exists 0, dispatch_schedule. eexists. vm_compute. reflexivity. }
  split; [exact Hr|].
  apply (no_order_lost _ Hr).
  intros [|b] bot; vm_compute; intros [= <-]; reflexivity.
Defined.

Lemma bot_runs_unless_removing_witness :
  reachable (after [AddBot]) ∧
  is_Some (run [Tick 0; BotStep 0] (after [AddBot])).
Proof.
  assert (reachable (after [AddBot])) as Hr.
  { exists 0, [AddBot]. eexists. vm_compute. reflexivity. }
  split; [exact Hr|].
  apply (proj2 (bot_runs_unless_removing (after [AddBot]) 0 Hr)
           (Bot.mk 1 None false L29)); [reflexivity|discriminate|discriminate].
Defined.

Lemma remove_bot_never_returns_witness :
  reachable (after deadlock_schedule) ∧
  ∀ a s' out r, step a (after deadlock_schedule) = Some (s', out, r) →
                r = None.
Proof.
  assert (reachable (after deadlock_schedule)) as Hr.
  { exists 0, deadlock_schedule. eexists. vm_compute. reflexivity. }
  split; [exact Hr|].
  exact (proj1 (remove_bot_never_returns (after deadlock_schedule) 0 L56
                  (Bot.mk 1 None true L30) Hr eq_refl eq_refl eq_refl)).
Defined.

Lemma remove_bot_returns_unless_line_30_witness :
  reachable (after [AddBot]) ∧
  ∃ acts s' out,
    run (RemoveBot :: acts) (after [AddBot])
    = Some (s', out ++ [SysRemovedBot 1]) ∧
    main s' = Idle ∧ bots s' = [].
Proof.
  assert (reachable (after [AddBot])) as Hr.
  { exists 0, [AddBot]. eexists. vm_compute. reflexivity. }
  split; [exact Hr|].
  destruct (proj1 (remove_bot_returns_unless_line_30 (after [AddBot]) [] 0
                     (Bot.mk 1 None false L29) Hr eq_refl eq_refl eq_refl))
    as (acts & s' & out & _ & Hrun & Hm & _ & Hbots & _); [discriminate|].
  exists acts, s', out. split; [exact Hrun|]. split; [exact Hm|exact Hbots].
Defined.

Lemma bot_completes_order_witness :
  reachable (after [AddBot; AddOrder "VIP"; BotStep 0]) ∧
  ∃ s',
    run (process_schedule 0) (after [AddBot; AddOrder "VIP"; BotStep 0])
    = Some (s', [BotStarted 1 (1, "VIP"%string, PROCESSING);
                 BotCompleted 1 (1, "VIP"%string, COMPLETE)]) ∧
    heap s' !! 0%nat
    = Some (Order.mk 1 "VIP" COMPLETE 0 (Some 0) (Some processing_time)).
Proof.
  set (s := after [AddBot; AddOrder "VIP"; BotStep 0]).
  assert (reachable s) as Hr.
  { exists 0, [AddBot; AddOrder "VIP"; BotStep 0]. eexists.
    vm_compute. reflexivity. }
  split; [exact Hr|].
  destruct (bot_completes_order s 0 (Bot.mk 1 None false L30) 0 [] Hr
              eq_refl eq_refl eq_refl eq_refl eq_refl)
    as (ord & Ho & Hrun).
  injection Ho as <-.
  eexists. split; [exact Hrun|]. reflexivity.
Defined.

(** ** The progress bar on given inputs *)

Lemma generate_progress_bar_cells_witness :
  unit_progress (NFloat (S754_finite false 7 (-4))) ∧ 0 ≤ 20 < 2 ^ 52 ∧
  ∃ filled_length,
    generate_progress_bar (NFloat (S754_finite false 7 (-4))) 20 =
      Some (bar_of 20 filled_length) ∧
    0 ≤ filled_length ≤ 20 ∧
    String.length (bar_of 20 filled_length) = Z.to_nat (20 + 2).
Proof.
  assert (unit_progress (NFloat (S754_finite false 7 (-4)))) as Hp
    by (by vm_compute).
  assert (0 ≤ 20 < 2 ^ 52) as Hl by lia.
  split; [exact Hp|]. split; [exact Hl|].
  exact (generate_progress_bar_cells _ 20 Hp Hl).
Defined.

Lemma progress_cell_complete_witness :
  10000000 ≤ 12345678 < 2 ^ 62 ∧
  progress_cell 12345678 = Some ("[####################]"%string, 100).
Proof.
  assert (10000000 ≤ 12345678 < 2 ^ 62) as Hm by lia.
  split; [exact Hm|]. exact (progress_cell_complete 12345678 Hm).
Defined.

Lemma progress_cell_value_witness :
  0 ≤ 2900000 < 10000000 ∧
  progress_cell 2900000 = Some ("[#####---------------]"%string, 28) ∧
  0 ≤ 2900000 / 500000 < 20 ∧ 0 ≤ percentage_of 2900000 < 100.
Proof.
  assert (0 ≤ 2900000 < 10000000) as Hm by lia.
  split; [exact Hm|]. exact (progress_cell_value 2900000 Hm).
Defined.
